(** * Lagerverwaltung: the local data layer of the inventory intake tracker

    A shallow embedding of the application logic of the repository
    (the IIFE modules [U], [DB], [Camera], [UI], [Admin], [Cart] and [App]
    of the app script), the properties its specification states about it,
    and further properties of the code.  The embedding follows the script
    as a browser runs it, also where a listener cannot do what it is
    written for.

    Conventions of the embedding.
    - A JavaScript string is the list of its UTF-16 code units.
    - The IndexedDB object stores are lists of records; every [DB.*] call of
      the source opens a transaction of its own, so every call is one atomic
      step on the store.  A request that fails (a key that exists on [add], a
      violated unique index) aborts its transaction and leaves the store as
      it was; the source awaits the request object and never sees the error.
    - A request object is no promise: where a [DB.*] function returns the
      request of its [get], the caller's [await] yields that object and not
      the record.  What the callers then do with it throws, and the listener
      ends there with nothing more stored: listeners that can end so return
      a [Completion].
    - Values the source draws from its environment ([U.uuid()], the clock,
      [App.userId()], the browser's [toUpperCase], the rounding of IEEE
      doubles, the answers of the dialogs) are arguments of the functions
      that use them.
    - The quantities of the board and the cart are the integers, the
      infinities and the [NaN] among the doubles, with the rounding of
      doubles written out; the sizes of the canvas are rationals with the
      rounding as a parameter; the sharpness score is computed on the
      binary64 numbers of the kernel. *)

From Stdlib Require Import ZArith NArith List Bool Lia String Ascii.
From Stdlib Require Import QArith Qround Qabs Qminmax Lqa Permutation.
From Stdlib Require Import Floats DecimalString DecimalPos Sorted.
From Stdlib Require Uint63.
Import ListNotations.
Local Open Scope Z_scope.
#[local] Set Warnings "-inexact-float".

(** ** JavaScript strings *)

Definition jsstring := list N.

(** The code units of an ASCII literal, for examples. *)
Definition str (s : string) : jsstring :=
  map N_of_ascii (list_ascii_of_string s).

Fixpoint str_eqb (a b : jsstring) : bool :=
  match a, b with
  | [], [] => true
  | x :: a', y :: b' => N.eqb x y && str_eqb a' b'
  | _, _ => false
  end.

Definition isEmpty (s : jsstring) : bool :=
  match s with [] => true | _ => false end.

(** ECMAScript [WhiteSpace] and [LineTerminator]: what [\s] matches and what
    [String.prototype.trim] removes. *)
Definition isWhiteSpace (c : N) : bool :=
  ((9 <=? c) && (c <=? 13) || (c =? 32) || (c =? 160) || (c =? 5760)
   || (8192 <=? c) && (c <=? 8202) || (c =? 8232) || (c =? 8233)
   || (c =? 8239) || (c =? 8287) || (c =? 12288) || (c =? 65279))%N.

(** The character class [[<>]] of [U.sanitize]. *)
Definition isAngle (c : N) : bool := ((c =? 60) || (c =? 62))%N.

(** The character class [[\s._-]] of [U.normLs]. *)
Definition isSeparator (c : N) : bool :=
  (isWhiteSpace c || (c =? 46) || (c =? 95) || (c =? 45))%N.

Module U.

(** [const sanitize = (s) => (s ?? "").replace(/[<>]/g, "")] *)
Definition sanitize (s : jsstring) : jsstring :=
  filter (fun c => negb (isAngle c)) s.

Fixpoint trimStart (s : jsstring) : jsstring :=
  match s with
  | c :: r => if isWhiteSpace c then trimStart r else s
  | [] => []
  end.

Definition trimEnd (s : jsstring) : jsstring := rev (trimStart (rev s)).

(** [String.prototype.trim] *)
Definition trim (s : jsstring) : jsstring := trimEnd (trimStart s).

(** [.replace(/[\s._-]+/g, "")]: every maximal run of separators is
    replaced by the empty string, so exactly the separators go. *)
Definition stripSeparators (s : jsstring) : jsstring :=
  filter (fun c => negb (isSeparator c)) s.

(** [const normLs = (s) =>
       sanitize(String(s)).replace(/[\s._-]+/g, "").toUpperCase()]

    [toUpperCase] is the browser's: the Unicode case mapping of the whole
    string. *)
Definition normLs (toUpperCase : jsstring -> jsstring) (s : jsstring)
  : jsstring :=
  toUpperCase (stripSeparators (sanitize s)).

(** The upper-casing of the ASCII letters, the part of [toUpperCase] that
    the examples below run. *)
Definition asciiUpper (s : jsstring) : jsstring :=
  map (fun c => if ((97 <=? c) && (c <=? 122))%N then (c - 32)%N else c) s.

End U.

(** What the specification says the normalized number is, in its own
    words and not in terms of the code above: the number without the
    characters it names, the hyphen [-], the underscore [_], the full stop
    [.] and white space, in upper case.  White space is spelled out code
    point by code point: the tabulator to the carriage return, the space,
    the no-break space, the ogham space mark, the en quad to the hair
    space, the line and the paragraph separator, the narrow no-break space,
    the medium mathematical space, the ideographic space and the
    zero-width no-break space. *)
Definition spec_whitespace : list N :=
  [9; 10; 11; 12; 13; 32; 160; 5760;
   8192; 8193; 8194; 8195; 8196; 8197; 8198; 8199; 8200; 8201; 8202;
   8232; 8233; 8239; 8287; 12288; 65279]%N.

Definition spec_stripped (c : N) : bool :=
  existsb (N.eqb c) ([45; 95; 46]%N ++ spec_whitespace).

Fixpoint spec_strip (s : jsstring) : jsstring :=
  match s with
  | [] => []
  | c :: r => if spec_stripped c then spec_strip r else c :: spec_strip r
  end.

Definition spec_normalize (toUpperCase : jsstring -> jsstring)
  (s : jsstring) : jsstring :=
  toUpperCase (spec_strip s).

(** ** Quantities

    The quantities of the board and the cart are JavaScript numbers: they
    come from literals, from [parseInt] and from [+=].  Such a number is an
    integer a double holds, an infinity, or [NaN].  The zero with a minus
    sign, which prints, compares and tests like zero, is [Finite 0]. *)
Inductive Number :=
| Finite (n : Z)
| Infinity (negative : bool)
| NaN.

(** The double nearest to an integer, a tie going to the even mantissa,
    and an infinity from [2^1024] on: the number a run of digits denotes,
    and the result of an exact sum.  Up to [2^53] every integer is a
    double; beyond, the doubles are the multiples of [2^k] with a quotient
    of 53 bits. *)
Definition toDouble (n : Z) : Number :=
  let a := Z.abs n in
  if a <? 2 ^ 53 then Finite n
  else
    let k := Z.log2 a - 52 in
    let q := a / 2 ^ k in
    let r := a mod 2 ^ k in
    let half := 2 ^ (k - 1) in
    let q' := if (half <? r) || ((r =? half) && Z.odd q) then q + 1 else q in
    let v := q' * 2 ^ k in
    if 2 ^ 1024 <=? v then Infinity (n <? 0) else Finite (Z.sgn n * v).

(** [a + b] *)
Definition Number_add (a b : Number) : Number :=
  match a, b with
  | NaN, _ | _, NaN => NaN
  | Finite x, Finite y => toDouble (x + y)
  | Infinity s, Infinity t => if Bool.eqb s t then Infinity s else NaN
  | Infinity s, Finite _ | Finite _, Infinity s => Infinity s
  end.

(** [a < b]: false when one of the two is [NaN]. *)
Definition Number_lt (a b : Number) : bool :=
  match a, b with
  | NaN, _ | _, NaN => false
  | Finite x, Finite y => x <? y
  | Infinity s, Infinity t => s && negb t
  | Infinity s, Finite _ => s
  | Finite _, Infinity t => negb t
  end.

(** [a <= b] *)
Definition Number_le (a b : Number) : bool :=
  match a, b with
  | NaN, _ | _, NaN => false
  | _, _ => negb (Number_lt b a)
  end.

(** [Math.max(a, b)] and [Math.min(a, b)] *)
Definition Number_max (a b : Number) : Number :=
  match a, b with
  | NaN, _ | _, NaN => NaN
  | _, _ => if Number_lt a b then b else a
  end.

Definition Number_min (a b : Number) : Number :=
  match a, b with
  | NaN, _ | _, NaN => NaN
  | _, _ => if Number_lt b a then b else a
  end.

(** [x || 0]: zero and [NaN] are falsy. *)
Definition orZero (x : Number) : Number :=
  match x with
  | NaN | Finite 0 => Finite 0
  | _ => x
  end.

(** [undefined] where a number is expected is [NaN]. *)
Definition toNumber (v : option Number) : Number :=
  match v with
  | Some x => x
  | None => NaN
  end.

(** A quantity that is not negative (and a number). *)
Definition nonNegative (x : Number) : Prop :=
  match x with
  | Finite n => 0 <= n
  | Infinity negative => negative = false
  | NaN => False
  end.

Definition isDigit (c : N) : bool := ((48 <=? c) && (c <=? 57))%N.

(** [parseInt(s, 10)]: leading white space and one sign are skipped, the
    digits that follow are read up to the first other character; without a
    digit the result is [NaN].  The result is the double of the integer
    the digits denote. *)
Fixpoint digitsValue (acc : Z) (s : jsstring) : Z :=
  match s with
  | c :: r =>
      if isDigit c then digitsValue (10 * acc + (Z.of_N c - 48)) r else acc
  | [] => acc
  end.

Definition parseInt (s : jsstring) : Number :=
  let s := U.trimStart s in
  let signed :=
    match s with
    | c :: r => if (c =? 45)%N then (true, r)
                else if (c =? 43)%N then (false, r) else (false, s)
    | [] => (false, [])
    end in
  match snd signed with
  | c :: _ =>
      if isDigit c
      then toDouble (if fst signed then - digitsValue 0 (snd signed)
                     else digitsValue 0 (snd signed))
      else NaN
  | [] => NaN
  end.

(** [Math.max(0, parseInt(val || "0", 10) || 0)] *)
Definition quantityOf (val : jsstring) : Number :=
  Number_max (Finite 0)
    (orZero (parseInt (if isEmpty val then str "0" else val))).

(** [String(v)]: an integer below [10^21] is printed with all its digits;
    from there on JavaScript prints a mantissa and an exponent, the text
    [exponential v] of the engine. *)
Definition String_of_number (exponential : Z -> jsstring) (v : Number)
  : jsstring :=
  match v with
  | Finite n =>
      if Z.abs n <? 10 ^ 21 then str (NilZero.string_of_int (Z.to_int n))
      else exponential n
  | Infinity negative => if negative then str "-Infinity" else str "Infinity"
  | NaN => str "NaN"
  end.

(** A string is clean when it holds none of the characters [normLs] removes. *)
Definition clean (s : jsstring) : Prop :=
  Forall (fun c => isAngle c = false /\ isSeparator c = false) s.

(** What the proofs use of [String.prototype.toUpperCase]. *)
Record UpperCaseLaws (toUpperCase : jsstring -> jsstring) : Prop := {
  upper_idempotent : forall s, toUpperCase (toUpperCase s) = toUpperCase s;
  upper_clean : forall s, clean s -> clean (toUpperCase s)
}.

(** ** The records of the object stores *)

(** [status]: the two values the source ever writes. *)
Inductive Status := ohne_zeichnung | mit_zeichnung.

Definition status_eqb (a b : Status) : bool :=
  match a, b with
  | ohne_zeichnung, ohne_zeichnung | mit_zeichnung, mit_zeichnung => true
  | _, _ => false
  end.

(** A record of [inbound_docs] (key path [id]). *)
Record InboundDoc := {
  doc_id : jsstring;
  ls_nr : jsstring;
  ls_nr_normalized : jsstring;
  supplier : jsstring;
  date_doc : jsstring;
  status : Status;
  created_at : jsstring;
  created_by : jsstring;
  updated_at : option jsstring;
  updated_by : option jsstring
}.

(** A record of [inbound_images] (key path [id]).  The constant
    [mime_type], the [storage_uri] and the blob itself play no part below;
    the blob is present through its size and digest. *)
Record Image := {
  img_id : jsstring;
  inbound_id : jsstring;
  page_no : Z;
  width_px : Z;
  height_px : Z;
  size_bytes : Z;
  sha256 : jsstring;
  img_created_at : jsstring;
  img_created_by : jsstring;
  synced : bool
}.

(** A record of [dnd_items] (key path [id]). *)
Record Item := {
  item_id : jsstring;
  name : jsstring;
  zone : jsstring;
  qty : Number;
  note : jsstring
}.

Inductive Action :=
  create_doc | add_image | delete_image | reorder_images | status_change.

(** A record of [logs], without the key and time stamp [DB.addLog] adds. *)
Record LogEntry := {
  action : Action;
  log_inbound_id : jsstring;
  log_image_id : option jsstring;
  log_user : jsstring
}.

(** The database: one list per object store, in cursor order. *)
Record Store := {
  inbound_docs : list InboundDoc;
  inbound_images : list Image;
  dnd_items : list Item;
  logs : list LogEntry
}.

Definition emptyStore : Store :=
  {| inbound_docs := []; inbound_images := []; dnd_items := []; logs := [] |}.

Definition with_docs (st : Store) (l : list InboundDoc) : Store :=
  {| inbound_docs := l; inbound_images := inbound_images st;
     dnd_items := dnd_items st; logs := logs st |}.

Definition with_images (st : Store) (l : list Image) : Store :=
  {| inbound_docs := inbound_docs st; inbound_images := l;
     dnd_items := dnd_items st; logs := logs st |}.

Definition with_items (st : Store) (l : list Item) : Store :=
  {| inbound_docs := inbound_docs st; inbound_images := inbound_images st;
     dnd_items := l; logs := logs st |}.

Definition with_logs (st : Store) (l : list LogEntry) : Store :=
  {| inbound_docs := inbound_docs st; inbound_images := inbound_images st;
     dnd_items := dnd_items st; logs := l |}.

(** ** Awaited database calls: a state monad over the store *)

Definition DBM (A : Type) : Type := Store -> A * Store.

Definition ret {A} (a : A) : DBM A := fun st => (a, st).

Definition bind {A B} (m : DBM A) (k : A -> DBM B) : DBM B :=
  fun st => k (fst (m st)) (snd (m st)).

Definition exec {A} (m : DBM A) (st : Store) : Store := snd (m st).
Definition eval {A} (m : DBM A) (st : Store) : A := fst (m st).

Notation "'let*' x ':=' m 'in' k" := (bind m (fun x => k))
  (at level 10, x name, m at level 100, k at level 200).
Notation "m ';;' k" := (bind m (fun _ => k))
  (at level 100, k at level 200, right associativity).

(** ** Requests and exceptions

    [objectStore.get(key)] returns an [IDBRequest].  [DB.getInboundById]
    and [DB.getItem] end with [return t.objectStore(...).get(id)]: the
    promise of the [async] function resolves to the request object itself
    (a request has no [then]), and that object is what [await] gives the
    caller.  It is an object, so it is truthy; it has none of the
    properties of a record; and it is a platform object that the
    structured clone of [put] refuses. *)
Inductive IDBRequest :=
| requestOf (key : jsstring).

Inductive Exception :=
| DataError        (* a key that is no valid key, such as [undefined] *)
| DataCloneError   (* a value that cannot be cloned *)
| TypeError.       (* a call of what is no function *)

(** How a listener ends: it returns, or an exception leaves it at an
    [await] and the rest of it does not run. *)
Inductive Completion (A : Type) :=
| Returns (a : A)
| Throws (e : Exception).
Arguments Returns {A} _.
Arguments Throws {A} _.

(** [r.id], [r.qty], [r.name], [r.value], ... of a request [r]:
    [undefined]. *)
Definition property {A} (r : IDBRequest) : option A := None.

(** The structured clone [put(value)] begins with, on a request. *)
Definition structuredClone {A} (r : IDBRequest) : Completion A :=
  Throws DataCloneError.

(** A key handed to [IDBKeyRange.only] or to [delete]. *)
Definition validKey (k : option jsstring) : Completion jsstring :=
  match k with
  | Some k => Returns k
  | None => Throws DataError
  end.

(** The rest of a listener after a step that may throw. *)
Definition attempt {A B} (c : Completion A) (k : A -> DBM (Completion B))
  : DBM (Completion B) :=
  match c with
  | Returns a => k a
  | Throws e => ret (Throws e)
  end.

Notation "'let?' x ':=' c 'in' k" := (attempt c (fun x => k))
  (at level 10, x name, c at level 100, k at level 200).

(** [for (const x of l) { await body(x) }] *)
Fixpoint forEach {A} (l : list A) (body : A -> DBM unit) : DBM unit :=
  match l with
  | [] => ret tt
  | x :: r => body x ;; forEach r body
  end.

(** [Array.prototype.sort(cmp)]: stable; an element goes before the first
    one it does not compare greater than. *)
Fixpoint insertSorted {A} (cmp : A -> A -> Z) (x : A) (l : list A) : list A :=
  match l with
  | [] => [x]
  | y :: r => if cmp x y <=? 0 then x :: l else y :: insertSorted cmp x r
  end.

Definition sort {A} (cmp : A -> A -> Z) (l : list A) : list A :=
  fold_right (insertSorted cmp) [] l.

(** [(a, b) => a.page_no - b.page_no] *)
Definition byPageNo (a b : Image) : Z := page_no a - page_no b.

(** [put] on an object store without a violated index: the record with
    the same key is replaced where it stands, a new key is added. *)
Fixpoint upsert {A} (key : A -> jsstring) (x : A) (l : list A) : list A :=
  match l with
  | [] => [x]
  | y :: r => if str_eqb (key y) (key x) then x :: r else y :: upsert key x r
  end.

Definition hasKey {A} (key : A -> jsstring) (k : jsstring) (l : list A)
  : bool :=
  existsb (fun y => str_eqb (key y) k) l.

(** The order of strings by their code units: the order of string keys
    in IndexedDB, and of [Array.prototype.sort()] without a comparator.
    The runs below also take it for [localeCompare]. *)
Fixpoint codeUnitCompare (a b : jsstring) : Z :=
  match a, b with
  | [], [] => 0
  | [], _ :: _ => -1
  | _ :: _, [] => 1
  | x :: a', y :: b' =>
      if (x <? y)%N then -1
      else if (y <? x)%N then 1 else codeUnitCompare a' b'
  end.

(** A cursor on an index yields the records of one index key in the order
    of their primary keys, and [getAll] yields a store in that order. *)
Definition inKeyOrder {A} (key : A -> jsstring) (l : list A) : list A :=
  sort (fun a b => codeUnitCompare (key a) (key b)) l.

(** ** The IndexedDB wrapper *)

Module DB.

(** The unique index [by_inbound_page] on [["inbound_id", "page_no"]]: a
    record other than [img] already holds the pair of [img]. *)
Definition pageTaken (img : Image) (l : list Image) : bool :=
  existsb (fun i => negb (str_eqb (img_id i) (img_id img))
                    && str_eqb (inbound_id i) (inbound_id img)
                    && (page_no i =? page_no img)) l.

Definition addInboundDoc (doc : InboundDoc) : DBM unit := fun st =>
  if hasKey doc_id (doc_id doc) (inbound_docs st) then (tt, st)
  else (tt, with_docs st (inbound_docs st ++ [doc])).

Definition putInboundDoc (doc : InboundDoc) : DBM unit := fun st =>
  (tt, with_docs st (upsert doc_id doc (inbound_docs st))).

(** [async function getInboundById(id)]:
    [return t.objectStore("inbound_docs").get(id)], the request. *)
Definition getInboundById (id : jsstring) : DBM IDBRequest :=
  ret (requestOf id).

Definition findInboundByLs (lsnorm : jsstring) : DBM (list InboundDoc) :=
  fun st =>
    (inKeyOrder doc_id
       (filter (fun d => str_eqb (ls_nr_normalized d) lsnorm)
          (inbound_docs st)),
     st).

(** [out.sort((a, b) => (a.created_at || "").localeCompare(b.created_at || ""))] *)
Definition listInboundByStatus (localeCompare : jsstring -> jsstring -> Z)
  (s : Status) : DBM (list InboundDoc) := fun st =>
  (sort (fun a b => localeCompare (created_at a) (created_at b))
     (inKeyOrder doc_id
        (filter (fun d => status_eqb (status d) s) (inbound_docs st))),
   st).

Definition addImage (img : Image) : DBM unit := fun st =>
  if hasKey img_id (img_id img) (inbound_images st)
     || pageTaken img (inbound_images st)
  then (tt, st)
  else (tt, with_images st (inbound_images st ++ [img])).

Definition putImage (img : Image) : DBM unit := fun st =>
  if pageTaken img (inbound_images st) then (tt, st)
  else (tt, with_images st (upsert img_id img (inbound_images st))).

(** The unique index [by_inbound_page] leaves no two pages of a document
    with one page number: the order the cursor yields them in does not show
    after the sort. *)
Definition listImages (inbound : jsstring) : DBM (list Image) := fun st =>
  (sort byPageNo
     (filter (fun i => str_eqb (inbound_id i) inbound) (inbound_images st)),
   st).

Definition countImages (inbound : jsstring) : DBM Z := fun st =>
  (Z.of_nat (List.length
     (filter (fun i => str_eqb (inbound_id i) inbound) (inbound_images st))),
   st).

Definition deleteImage (id : jsstring) : DBM unit := fun st =>
  (tt, with_images st
         (filter (fun i => negb (str_eqb (img_id i) id)) (inbound_images st))).

Definition listItemsByZone (z : jsstring) : DBM (list Item) := fun st =>
  (inKeyOrder item_id (filter (fun i => str_eqb (zone i) z) (dnd_items st)),
   st).

Definition putItem (it : Item) : DBM unit := fun st =>
  (tt, with_items st (upsert item_id it (dnd_items st))).

(** [async function getItem(id)]:
    [return t.objectStore("dnd_items").get(id)], the request. *)
Definition getItem (id : jsstring) : DBM IDBRequest :=
  ret (requestOf id).

Definition deleteItem (id : jsstring) : DBM unit := fun st =>
  (tt, with_items st
         (filter (fun i => negb (str_eqb (item_id i) id)) (dnd_items st))).

Definition addLog (l : LogEntry) : DBM unit := fun st =>
  (tt, with_logs st (logs st ++ [l])).

End DB.

(** ** Camera: saving the captured pages *)

(** An entry of [state.captures]: [{blob, w, h, sha256}]. *)
Record Capture := {
  cap_w : Z;
  cap_h : Z;
  cap_size : Z;
  cap_sha256 : jsstring
}.

(** [Math.max(...l)] of a list that is not empty. *)
Definition maxOf (x : Z) (l : list Z) : Z := fold_left Z.max l x.

(** ** Numbers

    The sizes of the canvas are computed with IEEE doubles.  A finite
    double is the rational it denotes; [fl] is the rounding of the exact
    result of an operation to the double the machine stores. *)

(** [Math.round]: the nearest integer, a tie going up. *)
Definition Math_round (x : Q) : Z := Qfloor (x + (1 # 2))%Q.

(** The unit round-off of binary64, [2^-53]. *)
Definition unitRoundoff : Q := 1 # 9007199254740992.

(** The numbers the sizes are computed from lie between [2^-32] and
    [2^53]: the doubles in between are normal and far from overflow. *)
Definition smallest : Q := 1 # 4294967296.
Definition largest : Q := 9007199254740992.

(** What the proofs use of the rounding, all of it in that range: it is
    monotone, it leaves the integers up to [2^53] alone, and its relative
    error is at most the unit round-off. *)
Record RoundingLaws (fl : Q -> Q) : Prop := {
  fl_monotone : forall x y,
      (0 <= x)%Q -> (x <= y)%Q -> (y <= largest)%Q -> (fl x <= fl y)%Q;
  fl_integer : forall n : Z,
      Z.abs n <= 9007199254740992 -> (fl (inject_Z n) == inject_Z n)%Q;
  fl_error : forall x, (smallest <= x)%Q -> (x <= largest)%Q ->
      (x * (1 - unitRoundoff) <= fl x /\ fl x <= x * (1 + unitRoundoff))%Q
}.

(** The rounding that does not round. *)
Definition exact (x : Q) : Q := x.

(** A decoded image, upright: its size.  The pixels are the browser's:
    they come in with the canvas data below. *)
Record Bitmap := {
  width : Z;
  height : Z
}.

(** The sharpness score is computed with IEEE doubles and single-precision
    arrays: it is modelled with the binary64 numbers of the kernel. *)

(** A JavaScript number that is an integer. *)
Definition of_Z (n : Z) : float :=
  if n <? 0 then (- of_uint63 (Uint63.of_Z (- n)))%float
  else of_uint63 (Uint63.of_Z n).

(** A store into a [Float32Array]: the nearest binary32 number, ties to
    even. *)
Definition fround (x : float) : float :=
  match Prim2SF x with
  | S754_finite s m e => SF2Prim (binary_round 24 128 s m e)
  | _ => x
  end.

(** [x | 0]: [ToInt32], truncation and wrap-around. *)
Definition toInt32 (x : float) : Z :=
  match Prim2SF x with
  | S754_finite s m e =>
      let a := if 0 <=? e then Z.shiftl (Zpos m) e
               else Z.shiftr (Zpos m) (- e) in
      let v := if s then - a else a in
      (v + 2147483648) mod 4294967296 - 2147483648
  | _ => 0
  end.

(** [Math.min] *)
Definition Math_min (a b : float) : float :=
  if is_nan a || is_nan b then nan
  else if (b <? a)%float then b else a.

(** [a[i]] of a typed array of doubles: [undefined], [NaN] in arithmetic,
    outside the array. *)
Definition floatAt (a : list float) (i : Z) : float :=
  if i <? 0 then nan else nth (Z.to_nat i) a nan.

(** [img[i]] of the bytes of an [ImageData]. *)
Definition byteAt (img : list Z) (i : Z) : float :=
  if i <? 0 then nan
  else match nth_error img (Z.to_nat i) with
       | Some b => of_Z b
       | None => nan
       end.

(** The values of [for (let k = a; k < b; k++)]. *)
Definition range (a b : Z) : list Z :=
  map (fun k => a + Z.of_nat k) (seq 0 (Z.to_nat (b - a))).

(** [imgs.splice(i, 1)] *)
Fixpoint removeAt {A} (i : nat) (l : list A) : list A :=
  match i, l with
  | _, [] => []
  | O, _ :: r => r
  | S j, x :: r => x :: removeAt j r
  end.

(** [l[i] = x] for an index of the array. *)
Fixpoint setAt {A} (i : nat) (x : A) (l : list A) : list A :=
  match i, l with
  | _, [] => []
  | O, _ :: r => x :: r
  | S j, y :: r => y :: setAt j x r
  end.

Module Camera.

(** The size of the canvas of [captureVideoToBlob] and [drawBitmapToBlob]:
    [scale = Math.min(1, max / Math.max(cw, ch));
     w = Math.round(cw * scale); h = Math.round(ch * scale)]. *)
Definition scaledSize (fl : Q -> Q) (max cw ch : Z) : Z * Z :=
  let scale :=
    if Z.max cw ch =? 0 then 1%Q   (* [max / 0] is [Infinity] *)
    else Qmin 1 (fl (inject_Z max / inject_Z (Z.max cw ch))%Q) in
  (Math_round (fl (inject_Z cw * scale)%Q),
   Math_round (fl (inject_Z ch * scale)%Q)).

(** [async function drawBitmapToBlob(bmp)] and
    [async function captureVideoToBlob(video)]: the bitmap the JPEG blob
    decodes to. *)
Definition drawBitmapToBlob (fl : Q -> Q) (bmp : Bitmap) : Bitmap :=
  let (w, h) := scaledSize fl 2500 (width bmp) (height bmp) in
  {| width := w; height := h |}.

Definition captureVideoToBlob (fl : Q -> Q) (video : Bitmap) : Bitmap :=
  let (w, h) := scaledSize fl 2500 (width video) (height video) in
  {| width := w; height := h |}.

(** The grey values: [gray = new Float32Array(w * h)] after
    [for (let i = 0, p = 0; i < img.length; i += 4, p++)
       gray[p] = 0.299 * img[i] + 0.587 * img[i + 1] + 0.114 * img[i + 2]]. *)
Definition grayscale (w h : Z) (img : list Z) : list float :=
  map (fun p =>
         if 4 * p <? Z.of_nat (List.length img)
         then fround (0.299 * byteAt img (4 * p)
                      + 0.587 * byteAt img (4 * p + 1)
                      + 0.114 * byteAt img (4 * p + 2))%float
         else 0%float)
    (range 0 (w * h)).

(** The kernel [k = [0, 1, 0, 1, -4, 1, 0, 1, 0]] at the pixel [i]. *)
Definition response (gray : list float) (w i : Z) : float :=
  (0 * floatAt gray (i - w - 1) + 1 * floatAt gray (i - w)
   + 0 * floatAt gray (i - w + 1)
   + 1 * floatAt gray (i - 1) + -4 * floatAt gray i
   + 1 * floatAt gray (i + 1)
   + 0 * floatAt gray (i + w - 1) + 1 * floatAt gray (i + w)
   + 0 * floatAt gray (i + w + 1))%float.

(** [out = new Float32Array(w * h)] after the loops over the interior:
    [out[y * w + x] = v]. *)
Definition laplacian (gray : list float) (w h : Z) : list float :=
  fold_left (fun out y =>
    fold_left (fun out x =>
      let i := y * w + x in
      setAt (Z.to_nat i) (fround (response gray w i)) out)
      (range 1 (w - 1)) out)
    (range 1 (h - 1)) (repeat 0%float (Z.to_nat (w * h))).

(** [sum += v; sum2 += v * v] over the interior. *)
Definition sums (out : list float) (w h : Z) : float * float :=
  fold_left (fun acc y =>
    fold_left (fun acc x =>
      let v := floatAt out (y * w + x) in
      (fst acc + v, snd acc + v * v)%float)
      (range 1 (w - 1)) acc)
    (range 1 (h - 1)) (0%float, 0%float).

(** [laplacianVariance] from the image data of its canvas on: the grey
    values, the kernel, the variance. *)
Definition varianceOfLaplacian (w h : Z) (img : list Z) : float :=
  let gray := grayscale w h img in
  let out := laplacian gray w h in
  let sum := fst (sums out w h) in
  let sum2 := snd (sums out w h) in
  let n := of_Z ((w - 2) * (h - 2)) in
  let mean := (sum / n)%float in
  let varr := ((sum2 / n) - (mean * mean))%float in
  (varr / 100)%float.

(** [async function laplacianVariance(bmp)].  [getImageData w h] is the
    data of the [w] x [h] canvas after [ctx.drawImage(bmp, 0, 0, w, h)]:
    four bytes a pixel, row by row. *)
Definition laplacianVariance (getImageData : Z -> Z -> list Z)
  (bmp : Bitmap) : float :=
  let targetMax := 800 in
  let s := Math_min 1 (of_Z targetMax
                       / of_Z (Z.max (width bmp) (height bmp)))%float in
  let w := Z.max 1 (toInt32 (of_Z (width bmp) * s)%float) in
  let h := Z.max 1 (toInt32 (of_Z (height bmp) * s)%float) in
  varianceOfLaplacian w h (getImageData w h).

(** [async function validateBlob(blob)]; [score] is [laplacianVariance]
    on the pixels the blob decodes to. *)
Definition validateBlob (score : Bitmap -> float) (blob : Bitmap) : bool :=
  if Z.max (width blob) (height blob) <? 1500 then false
  else (60 <=? score blob)%float.

(** The outcome of a capture: the page is pushed on [state.captures] with
    the size it is recorded with, or a message is shown with [UI.message]
    and nothing is pushed. *)
Inductive CaptureResult :=
| Pushed (w h : Z)
| Retake (message : jsstring).

(** The one message of the camera: the photo is blurred or too dark, take
    it again? *)
Definition blurredOrDark : jsstring :=
  str "Foto unscharf/zu dunkel. Erneut aufnehmen?".

(** [async function take()] with a camera stream, on the video frame. *)
Definition take (fl : Q -> Q) (score : Bitmap -> float) (v : Bitmap)
  : CaptureResult :=
  let maxEdge := Z.max (width v) (height v) in
  if maxEdge <? 1500 then Retake blurredOrDark
  else
    let blob := captureVideoToBlob fl v in
    if validateBlob score blob then Pushed (width v) (height v)
    else Retake blurredOrDark.

(** [async function onFilePicked(file)], on the decoded file. *)
Definition onFilePicked (fl : Q -> Q) (score : Bitmap -> float)
  (bmp : Bitmap) : CaptureResult :=
  let blob := drawBitmapToBlob fl bmp in
  if validateBlob score blob then Pushed (width bmp) (height bmp)
  else Retake blurredOrDark.

(** [existing.length ? Math.max(...existing.map(i => i.page_no)) : 0] *)
Definition lastPage (existing : list Image) : Z :=
  match map page_no existing with
  | [] => 0
  | p :: ps => maxOf p ps
  end.

(** The loop of [saveAll]; each capture comes with the [U.uuid()] drawn
    for it. *)
Fixpoint savePages (inboundId user now : jsstring) (page : Z)
  (captures : list (jsstring * Capture)) : DBM unit :=
  match captures with
  | [] => ret tt
  | (id, cap) :: rest =>
      let page := page + 1 in
      DB.addImage {| img_id := id; inbound_id := inboundId; page_no := page;
                     width_px := cap_w cap; height_px := cap_h cap;
                     size_bytes := cap_size cap; sha256 := cap_sha256 cap;
                     img_created_at := now; img_created_by := user;
                     synced := false |} ;;
      DB.addLog {| action := add_image; log_inbound_id := inboundId;
                   log_image_id := Some id; log_user := user |} ;;
      savePages inboundId user now page rest
  end.

(** [async function saveAll()], on [state.inboundId] and [state.captures]. *)
Definition saveAll (inboundId user now : jsstring)
  (captures : list (jsstring * Capture)) : DBM unit :=
  let* existing := DB.listImages inboundId in
  savePages inboundId user now (lastPage existing) captures.

End Camera.

(** The reasons the specification gives for a rejection. *)
Inductive spec_Reason := TooSmall | Blurry.

(** ** UI: documents, the page manager, the sync badge, the board *)

Inductive SubmitResult :=
| Ignored                      (* a field is empty: the handler returns *)
| DuplicateWarning             (* [dupWarning] is shown, nothing is stored *)
| Created (doc : InboundDoc).

(** The variables of the closure of [manageImages]: the array [imgs] read
    when the panel was opened, and the selected index. *)
Record Panel := {
  imgs : list Image;
  sel : Z
}.

Definition setPageNo (im : Image) (p : Z) : Image :=
  {| img_id := img_id im; inbound_id := inbound_id im; page_no := p;
     width_px := width_px im; height_px := height_px im;
     size_bytes := size_bytes im; sha256 := sha256 im;
     img_created_at := img_created_at im;
     img_created_by := img_created_by im; synced := synced im |}.

Definition setSynced (im : Image) : Image :=
  {| img_id := img_id im; inbound_id := inbound_id im; page_no := page_no im;
     width_px := width_px im; height_px := height_px im;
     size_bytes := size_bytes im; sha256 := sha256 im;
     img_created_at := img_created_at im;
     img_created_by := img_created_by im; synced := true |}.

(** [let p = 1; for (const im of imgs) { im.page_no = p++; ... }]: the
    array after the loop. *)
Fixpoint renumber (p : Z) (l : list Image) : list Image :=
  match l with
  | [] => []
  | im :: r => setPageNo im p :: renumber (p + 1) r
  end.

(** The answer of [UI.prompt]: the dialog was dismissed, or closed with
    [ok] and the text of its input. *)
Inductive Answer :=
| Dismissed
| Okay (text : jsstring).

Module UI.

(** [async function checkDuplicate(lsNr, supplier, date)] *)
Definition checkDuplicate (toUpperCase : jsstring -> jsstring)
  (lsNr supplier' date : jsstring) : DBM bool :=
  let norm := U.normLs toUpperCase lsNr in
  let* list := DB.findInboundByLs norm in
  ret (existsb (fun d => str_eqb (supplier d) supplier'
                         && str_eqb (date_doc d) date) list).

(** [async function handleSubmit(e, andShoot)], on the values of the form
    fields [lsnr], [supplier], [dateDoc] and of the check box [chkForce]. *)
Definition handleSubmit (toUpperCase : jsstring -> jsstring)
  (lsnr supplierField dateDoc : jsstring) (chkForce : bool)
  (uuid now user : jsstring) : DBM SubmitResult :=
  let ls_nr' := U.trim (U.sanitize lsnr) in
  let supplier' := U.trim (U.sanitize supplierField) in
  let date_doc' := dateDoc in
  if isEmpty ls_nr' || isEmpty supplier' || isEmpty date_doc' then ret Ignored
  else
    let* duplicate := checkDuplicate toUpperCase ls_nr' supplier' date_doc' in
    if duplicate && negb chkForce then ret DuplicateWarning
    else
      let doc := {| doc_id := uuid; ls_nr := ls_nr';
                    ls_nr_normalized := U.normLs toUpperCase ls_nr';
                    supplier := supplier'; date_doc := date_doc';
                    status := ohne_zeichnung;
                    created_at := now; created_by := user;
                    updated_at := None; updated_by := None |} in
      DB.addInboundDoc doc ;;
      DB.addLog {| action := create_doc; log_inbound_id := doc_id doc;
                   log_image_id := None; log_user := user |} ;;
      ret (Created doc).

(** The [open] button of a tile of the list without drawing
    ([listClickHandler(el.listOhne, true)]); [yes] is the answer of the
    confirm dialog.  [doc] is the request object: the three assignments
    [doc.status = ...], [doc.updated_at = ...], [doc.updated_by = ...] give
    it new properties, and [DB.putInboundDoc(doc)] is a [put] of the
    request.  The result tells whether the status was changed. *)
Definition confirmDrawing (id : jsstring) (yes : bool) (now user : jsstring)
  : DBM (Completion bool) :=
  let* doc := DB.getInboundById id in
  let* imgs := DB.listImages id in
  match imgs with
  | [] => ret (Returns false)   (* no photo yet: message, camera *)
  | _ :: _ =>
      if yes then
        let? d := structuredClone doc in
        DB.putInboundDoc
          {| doc_id := doc_id d; ls_nr := ls_nr d;
             ls_nr_normalized := ls_nr_normalized d;
             supplier := supplier d; date_doc := date_doc d;
             status := mit_zeichnung;
             created_at := created_at d; created_by := created_by d;
             updated_at := Some now; updated_by := Some user |} ;;
        DB.addLog {| action := status_change; log_inbound_id := id;
                     log_image_id := None; log_user := user |} ;;
        ret (Returns true)
      else ret (Returns false)
  end.

(** [render()]: [imgs.sort((a, b) => a.page_no - b.page_no)] *)
Definition render (p : Panel) : Panel :=
  {| imgs := sort byPageNo (imgs p); sel := sel p |}.

(** [async function manageImages(doc)] up to the first [render()], for a
    document record [doc] with the key [docId]. *)
Definition manageImages (docId : jsstring) : DBM Panel :=
  let* imgs := DB.listImages docId in
  ret (render {| imgs := imgs; sel := -1 |}).

(** The [manage] button of a tile ([listClickHandler]):
    [await manageImages(doc)] with the awaited [doc], the request object.
    [manageImages] begins with [DB.listImages(doc.id)], and
    [IDBKeyRange.only(undefined)] throws. *)
Definition clickManage (id : jsstring) : DBM (Completion Panel) :=
  let* doc := DB.getInboundById id in
  let* _ := DB.listImages id in
  let? docId := validKey (property doc) in
  let* p := manageImages docId in
  ret (Returns p).

(** A click on the thumbnail with index [i]: [sel = i; render()]. *)
Definition selectThumb (i : Z) (p : Panel) : Panel :=
  render {| imgs := imgs p; sel := i |}.

(** The [onclick] of [#btnDelete]. *)
Definition btnDelete (docId user : jsstring) (p : Panel) : DBM Panel :=
  if sel p <? 0 then ret p
  else
    match nth_error (imgs p) (Z.to_nat (sel p)) with
    | None => ret p               (* [imgs[sel]] is undefined: TypeError *)
    | Some im =>
        let id := img_id im in
        DB.deleteImage id ;;
        DB.addLog {| action := delete_image; log_inbound_id := docId;
                     log_image_id := Some id; log_user := user |} ;;
        let imgs' := renumber 1 (removeAt (Z.to_nat (sel p)) (imgs p)) in
        forEach imgs' DB.putImage ;;
        ret (render {| imgs := imgs'; sel := -1 |})
    end.

(** The [onclick] of [#btnReorderUp]. *)
Definition btnReorderUp (docId user : jsstring) (p : Panel) : DBM Panel :=
  if sel p <=? 0 then ret p
  else
    let i := Z.to_nat (sel p) in
    match nth_error (imgs p) (i - 1), nth_error (imgs p) i with
    | Some a, Some b =>
        let a' := setPageNo a (page_no b) in
        let b' := setPageNo b (page_no a) in
        DB.putImage a' ;; DB.putImage b' ;;
        DB.addLog {| action := reorder_images; log_inbound_id := docId;
                     log_image_id := None; log_user := user |} ;;
        ret (render {| imgs := setAt i b' (setAt (i - 1) a' (imgs p));
                       sel := sel p - 1 |})
    | _, _ => ret p
    end.

(** The [onclick] of [#btnReorderDown]. *)
Definition btnReorderDown (docId user : jsstring) (p : Panel) : DBM Panel :=
  if (sel p <? 0) || (Z.of_nat (List.length (imgs p)) - 1 <=? sel p)
  then ret p
  else
    let i := Z.to_nat (sel p) in
    match nth_error (imgs p) (i + 1), nth_error (imgs p) i with
    | Some a, Some b =>
        let a' := setPageNo a (page_no b) in
        let b' := setPageNo b (page_no a) in
        DB.putImage a' ;; DB.putImage b' ;;
        DB.addLog {| action := reorder_images; log_inbound_id := docId;
                     log_image_id := None; log_user := user |} ;;
        ret (render {| imgs := setAt i b' (setAt (i + 1) a' (imgs p));
                       sel := sel p + 1 |})
    | _, _ => ret p
    end.

(** [pending += imgs.filter(i => !i.synced).length] over the documents. *)
Fixpoint countPending (docs : list InboundDoc) : DBM Z :=
  match docs with
  | [] => ret 0
  | d :: r =>
      let* imgs := DB.listImages (doc_id d) in
      let* rest := countPending r in
      ret (Z.of_nat (List.length (filter (fun i => negb (synced i)) imgs))
           + rest)
  end.

(** [if (!im.synced) { im.synced = true; await DB.putImage(im); }] *)
Definition syncImage (im : Image) : DBM unit :=
  if negb (synced im) then DB.putImage (setSynced im) else ret tt.

(** [for (const d of all) { const imgs = await DB.listImages(d.id);
    for (const im of imgs) ... }] *)
Definition markSynced (docs : list InboundDoc) : DBM unit :=
  forEach docs (fun d =>
    let* imgs := DB.listImages (doc_id d) in
    forEach imgs syncImage).

(** [async function bumpSyncBadge(auto = false)]; [online] is
    [navigator.onLine].  The result is the number the badge ends up
    showing. *)
Definition bumpSyncBadge (localeCompare : jsstring -> jsstring -> Z)
  (auto online : bool) : DBM Z :=
  let* ohne := DB.listInboundByStatus localeCompare ohne_zeichnung in
  let* mit := DB.listInboundByStatus localeCompare mit_zeichnung in
  let all := ohne ++ mit in
  let* pending := countPending all in
  if auto && online && negb (pending =? 0) then
    markSynced all ;;
    ret 0
  else ret pending.

(** [async function addOrMergeItem({ name, zone, qty, note })] *)
Definition addOrMergeItem (name' zone' : jsstring) (qty' : Number)
  (note' : jsstring) (uuid : jsstring) : DBM unit :=
  let* allInZone := DB.listItemsByZone zone' in
  match find (fun i => str_eqb (name i) name' && str_eqb (note i) note')
          allInZone with
  | Some same =>
      DB.putItem {| item_id := item_id same; name := name same;
                    zone := zone same; qty := Number_add (qty same) qty';
                    note := note same |}
  | None =>
      DB.putItem {| item_id := uuid; name := name'; zone := zone';
                    qty := qty'; note := note' |}
  end.

(** The [drop] listener of a drop zone, for the dragged item [id].
    [prompt] is [None] when the handler does not ask for a quantity, and the
    answer of the prompt when it does.

    [item] is the request object, so [if (!item) return] does not return,
    and [item.qty] is [undefined].  Both branches begin with a [put] of the
    request: [item.qty -= qty; await DB.putItem(item)] and
    [item.zone = targetZone; await DB.putItem(item)]. *)
Definition drop (id targetZone : jsstring) (prompt : option Answer)
  (uuid : jsstring) : DBM (Completion unit) :=
  let* item := DB.getItem id in
  let itemQty : Number := toNumber (property item) in
  let move (qty' : Number) : DBM (Completion unit) :=
    if Number_lt qty' itemQty then
      (* partial move: reduce source, create/merge target *)
      let? it := structuredClone item in
      DB.putItem it ;;
      addOrMergeItem (name it) targetZone qty' (note it) uuid ;;
      ret (Returns tt)
    else
      (* full move *)
      let? it := structuredClone item in
      DB.putItem it ;;
      ret (Returns tt) in
  match prompt with
  | None => move itemQty
  | Some Dismissed => ret (Returns tt)
  | Some (Okay value) =>
      let n := Number_max (Finite 0)
                 (Number_min itemQty
                    (orZero (parseInt (if isEmpty value then str "0"
                                       else value)))) in
      if Number_le n (Finite 0) then ret (Returns tt) else move n
  end.

End UI.

(** The form values of a create attempt: the number and the supplier as
    they are stored (sanitised and trimmed), and whether the handler goes
    past its guard against empty fields. *)
Definition formComplete (lsnr supplierField dateDoc : jsstring) : bool :=
  negb (isEmpty (U.trim (U.sanitize lsnr))
        || isEmpty (U.trim (U.sanitize supplierField))
        || isEmpty dateDoc).

(** A stored document blocks the attempt: same normalised number, same
    supplier, same date. *)
Definition matches (toUpperCase : jsstring -> jsstring)
  (lsnr supplierField dateDoc : jsstring) (d : InboundDoc) : Prop :=
  ls_nr_normalized d = U.normLs toUpperCase lsnr
  /\ supplier d = U.trim (U.sanitize supplierField)
  /\ date_doc d = dateDoc.

(** ** The application as a state machine

    The database together with the closure of the page manager that is on
    screen, if there is one, and the events that act on them. *)

Record App := {
  db : Store;
  panel : option (jsstring * Panel)   (* [doc.id] and the closure *)
}.

Definition initApp : App := {| db := emptyStore; panel := None |}.

Inductive Event :=
| EvSubmit (lsnr supplierField dateDoc : jsstring) (chkForce : bool)
    (uuid now user : jsstring)
| EvConfirmDrawing (id : jsstring) (yes : bool) (now user : jsstring)
| EvSaveAll (inboundId user now : jsstring)
    (captures : list (jsstring * Capture))
| EvManageImages (docId : jsstring)
| EvSelectThumb (i : Z)
| EvDelete (user : jsstring)
| EvReorderUp (user : jsstring)
| EvReorderDown (user : jsstring)
| EvSync (auto online : bool).

(** What the environment guarantees when an event happens: [U.uuid()] is
    fresh, the camera is opened on a stored document and the button
    [manage] is the button of the tile of one, a thumbnail that is clicked
    exists. *)
Definition enabled (e : Event) (a : App) : Prop :=
  match e with
  | EvSubmit _ _ _ _ uuid _ _ =>
      ~ In uuid (map doc_id (inbound_docs (db a)))
  | EvSaveAll inboundId _ _ captures =>
      In inboundId (map doc_id (inbound_docs (db a)))
      /\ NoDup (map fst captures)
      /\ (forall id, In id (map fst captures) ->
                     ~ In id (map img_id (inbound_images (db a))))
  | EvManageImages docId => In docId (map doc_id (inbound_docs (db a)))
  | EvSelectThumb i =>
      match panel a with
      | Some (_, p) => 0 <= i < Z.of_nat (List.length (imgs p))
      | None => False
      end
  | _ => True
  end.

Definition onPanel (a : App) (f : jsstring -> Panel -> DBM Panel) : App :=
  match panel a with
  | None => a
  | Some (docId, p) =>
      {| db := exec (f docId p) (db a);
         panel := Some (docId, eval (f docId p) (db a)) |}
  end.

Definition handle (toUpperCase : jsstring -> jsstring)
  (localeCompare : jsstring -> jsstring -> Z) (e : Event) (a : App) : App :=
  match e with
  | EvSubmit lsnr supplierField dateDoc chkForce uuid now user =>
      {| db := exec (UI.handleSubmit toUpperCase lsnr supplierField dateDoc
                       chkForce uuid now user) (db a);
         panel := panel a |}
  | EvConfirmDrawing id yes now user =>
      {| db := exec (UI.confirmDrawing id yes now user) (db a);
         panel := panel a |}
  | EvSaveAll inboundId user now captures =>
      {| db := exec (Camera.saveAll inboundId user now captures) (db a);
         panel := panel a |}
  | EvManageImages docId =>
      {| db := exec (UI.clickManage docId) (db a);
         panel := match eval (UI.clickManage docId) (db a) with
                  | Returns p => Some (docId, p)
                  | Throws _ => panel a   (* [el.results] is not touched *)
                  end |}
  | EvSelectThumb i =>
      {| db := db a;
         panel := match panel a with
                  | Some (docId, p) => Some (docId, UI.selectThumb i p)
                  | None => None
                  end |}
  | EvDelete user => onPanel a (fun docId => UI.btnDelete docId user)
  | EvReorderUp user => onPanel a (fun docId => UI.btnReorderUp docId user)
  | EvReorderDown user =>
      onPanel a (fun docId => UI.btnReorderDown docId user)
  | EvSync auto online =>
      {| db := exec (UI.bumpSyncBadge localeCompare auto online) (db a);
         panel := panel a |}
  end.

(** The states the application gets into. *)
Inductive reachable (toUpperCase : jsstring -> jsstring)
  (localeCompare : jsstring -> jsstring -> Z) : App -> Prop :=
| reach_init : reachable toUpperCase localeCompare initApp
| reach_step (a : App) (e : Event) :
    reachable toUpperCase localeCompare a ->
    enabled e a ->
    reachable toUpperCase localeCompare
      (handle toUpperCase localeCompare e a).

(** [run es a]: the events [es] one after the other, from [a]. *)
Definition run (toUpperCase : jsstring -> jsstring)
  (localeCompare : jsstring -> jsstring -> Z) (es : list Event) (a : App)
  : App :=
  fold_left (fun a e => handle toUpperCase localeCompare e a) es a.

(** The page numbers of a document, in order. *)
Definition pagesOf (inbound : jsstring) (st : Store) : list Z :=
  map page_no (eval (DB.listImages inbound) st).

(** The page numbers [1..n]. *)
Definition dense (pages : list Z) : Prop :=
  pages = map Z.of_nat (seq 1 (List.length pages)).

(** The number of stored pages that are not synced. *)
Definition unsynced (st : Store) : Z :=
  Z.of_nat (List.length (filter (fun i => negb (synced i))
                           (inbound_images st))).

(** The part of the invariant that speaks of the images, against the keys
    of the documents. *)
Record ImagesInv (docIds : list jsstring) (l : list Image) : Prop := {
  ii_keys : NoDup (map img_id l);
  ii_pages : forall i j, In i l -> In j l ->
      inbound_id i = inbound_id j -> page_no i = page_no j ->
      img_id i = img_id j;
  ii_owner : forall i, In i l -> In (inbound_id i) docIds
}.

(** What holds of the store in every reachable state. *)
Record StoreInv (toUpperCase : jsstring -> jsstring) (st : Store) : Prop := {
  inv_doc_keys : NoDup (map doc_id (inbound_docs st));
  inv_images : ImagesInv (map doc_id (inbound_docs st)) (inbound_images st);
  inv_normalized : forall d, In d (inbound_docs st) ->
      ls_nr_normalized d = spec_normalize toUpperCase (ls_nr d)
}.

Definition PanelInv (a : App) : Prop :=
  match panel a with
  | None => True
  | Some (docId, p) =>
      In docId (map doc_id (inbound_docs (db a)))
      /\ forall i, In i (imgs p) -> inbound_id i = docId
  end.

(** The part of the store the image operations work on. *)
Definition imagesOk (docs : list InboundDoc) (st : Store) : Prop :=
  inbound_docs st = docs
  /\ ImagesInv (map doc_id docs) (inbound_images st).

(** The attachment of one page as the specification words it: the page
    number is one plus the largest page number the document has in the
    store, 0 standing for "none". *)
Definition spec_attachPage (inboundId user now : jsstring)
  (c : jsstring * Capture) : DBM unit :=
  let* existing := DB.listImages inboundId in
  DB.addImage {| img_id := fst c; inbound_id := inboundId;
                 page_no := Camera.lastPage existing + 1;
                 width_px := cap_w (snd c); height_px := cap_h (snd c);
                 size_bytes := cap_size (snd c);
                 sha256 := cap_sha256 (snd c);
                 img_created_at := now; img_created_by := user;
                 synced := false |} ;;
  DB.addLog {| action := add_image; log_inbound_id := inboundId;
               log_image_id := Some (fst c); log_user := user |}.

(** The sum of [f] over a list. *)
Definition sumOver {A} (f : A -> Z) (l : list A) : Z :=
  fold_right (fun x acc => f x + acc) 0 l.


(** ** The board: what a move conserves *)




(** ** Sample runs *)

Definition samplePhoto (digest : string) : Capture :=
  {| cap_w := 2500; cap_h := 1875; cap_size := 480000;
     cap_sha256 := str digest |}.

(** A document is created and two pages are attached. *)
Definition twoPages : list Event :=
  [ EvSubmit (str "A-100") (str "X") (str "2024-01-01") false
      (str "doc-1") (str "2024-01-01T08:00") (str "user-1");
    EvSaveAll (str "doc-1") (str "user-1") (str "2024-01-01T08:01")
      [(str "img-a", samplePhoto "ha"); (str "img-b", samplePhoto "hb")] ].

(** Three pages are attached in one go; then the button [manage] of the
    tile is clicked. *)
Definition threePagesManaged : list Event :=
  [ EvSubmit (str "A-100") (str "X") (str "2024-01-01") false
      (str "doc-1") (str "2024-01-01T08:00") (str "user-1");
    EvSaveAll (str "doc-1") (str "user-1") (str "2024-01-01T08:01")
      [(str "img-a", samplePhoto "ha"); (str "img-b", samplePhoto "hb");
       (str "img-c", samplePhoto "hc")];
    EvManageImages (str "doc-1") ].

(** [enabled], decided. *)
Fixpoint distinct (l : list jsstring) : bool :=
  match l with
  | [] => true
  | x :: r => negb (existsb (str_eqb x) r) && distinct r
  end.

Definition enabledb (e : Event) (a : App) : bool :=
  match e with
  | EvSubmit _ _ _ _ uuid _ _ =>
      negb (hasKey doc_id uuid (inbound_docs (db a)))
  | EvSaveAll inboundId _ _ captures =>
      hasKey doc_id inboundId (inbound_docs (db a))
      && distinct (map fst captures)
      && forallb (fun id => negb (hasKey img_id id (inbound_images (db a))))
           (map fst captures)
  | EvManageImages docId => hasKey doc_id docId (inbound_docs (db a))
  | EvSelectThumb i =>
      match panel a with
      | Some (_, p) => (0 <=? i) && (i <? Z.of_nat (List.length (imgs p)))
      | None => false
      end
  | _ => true
  end.

(** Every event of the run is enabled where it happens. *)
Fixpoint enabledAlong (toUpperCase : jsstring -> jsstring)
  (localeCompare : jsstring -> jsstring -> Z) (es : list Event) (a : App)
  : bool :=
  match es with
  | [] => true
  | e :: r =>
      enabledb e a
      && enabledAlong toUpperCase localeCompare r
           (handle toUpperCase localeCompare e a)
  end.

(** What [drawImage] leaves on a canvas of a uniform image of the colour
    [(r, g, b)]: the same opaque pixel everywhere. *)
Definition flatCanvas (r g b : Z) (w h : Z) : list Z :=
  List.concat (repeat [r; g; b; 255] (Z.to_nat (w * h))).

(** ** The rest of [U]: CSV cells, date strings, hexadecimal digests, the
    fallback of [U.uuid] *)

(** [Array.prototype.join(sep)] on strings. *)
Definition join (sep : jsstring) (l : list jsstring) : jsstring :=
  match l with
  | [] => []
  | x :: r => x ++ flat_map (fun y => sep ++ y) r
  end.

(** [String.prototype.padStart(n, c)] with a one-character filler. *)
Definition padStart (n : nat) (c : N) (s : jsstring) : jsstring :=
  repeat c (n - List.length s) ++ s.

(** The digit of [v.toString(16)] for [0 <= d < 16]. *)
Definition hexChar (d : Z) : N :=
  Z.to_N (if d <? 10 then 48 + d else 87 + d).

Fixpoint toHex (fuel : nat) (v : Z) (acc : jsstring) : jsstring :=
  match fuel with
  | O => acc
  | S f =>
      let acc' := hexChar (v mod 16) :: acc in
      if v / 16 =? 0 then acc' else toHex f (v / 16) acc'
  end.

(** [v.toString(16)] of an integer [v >= 0]. *)
Definition toString16 (v : Z) : jsstring :=
  toHex (S (Z.to_nat (Z.log2 v))) v [].

(** The character class of the test of [U.csvEscape]: the double quote,
    the comma, the semicolon and the line feed. *)
Definition isCsvSpecial (c : N) : bool :=
  ((c =? 34) || (c =? 44) || (c =? 59) || (c =? 10))%N.

Module Text.

(** [function csvEscape(v)], on the string of [v]: a cell with one of the
    four characters is put between double quotes, every double quote in it
    doubled; any other cell is returned as it is. *)
Definition csvEscape (s : jsstring) : jsstring :=
  if existsb isCsvSpecial s
  then (34 :: flat_map (fun c => if c =? 34 then [34; 34] else [c]) s
        ++ [34])%N
  else s.

(** [const isDateStr = (s) => /^\d{4}-\d{2}-\d{2}$/.test(s)] *)
Definition isDateStr (s : jsstring) : bool :=
  match s with
  | [y1; y2; y3; y4; h1; m1; m2; h2; d1; d2] =>
      (isDigit y1 && isDigit y2 && isDigit y3 && isDigit y4 && (h1 =? 45)
       && isDigit m1 && isDigit m2 && (h2 =? 45)
       && isDigit d1 && isDigit d2)%N
  | _ => false
  end.

(** [async function sha256(buf)] from its second line on, on the bytes
    [ab]: the bytes of the digest, each as two hexadecimal digits.
    [digest] is [crypto.subtle.digest("SHA-256", _)]. *)
Definition sha256 (digest : list Z -> list Z) (buf : list Z) : jsstring :=
  flat_map (fun b => padStart 2 48 (toString16 b)) (digest buf).

(** What [sha256] is called with: the [Blob] of a capture, or the
    [Uint8Array] that [TextEncoder.encode] returns. *)
Inductive Buffer :=
| blob (bytes : list Z)
| uint8Array (bytes : list Z).

(** [async function sha256(buf)] with its first line,
    [const ab = buf instanceof ArrayBuffer ? buf : await buf.arrayBuffer()]:
    a [Blob] has the method [arrayBuffer]; a [Uint8Array] is no
    [ArrayBuffer] and has no such method, the call throws. *)
Definition sha256Of (digest : list Z -> list Z) (buf : Buffer)
  : Completion jsstring :=
  match buf with
  | blob bytes => Returns (sha256 digest bytes)
  | uint8Array _ => Throws TypeError
  end.

(** ['xxxxxxxx-xxxx-4xxx-yxxx-xxxxxxxxxxxx'.replace(/[xy]/g, c => ...)]:
    the callback runs once for every [x] and [y], from left to right;
    [rnd k] is the byte its [k]-th call of [crypto.getRandomValues]
    yields. *)
Fixpoint replaceXY (template : jsstring) (k : nat) (rnd : nat -> Z)
  : jsstring :=
  match template with
  | [] => []
  | c :: t =>
      if ((c =? 120) || (c =? 121))%N then
        let r := Z.land (rnd k) 15 in
        let v := if (c =? 120)%N then r else Z.lor (Z.land r 3) 8 in
        toString16 v ++ replaceXY t (S k) rnd
      else c :: replaceXY t k rnd
  end.

(** [const uuid = () => crypto.randomUUID ? crypto.randomUUID() : ...];
    [randomUUID] is the result of [crypto.randomUUID()] where the browser
    has it. *)
Definition uuid (randomUUID : option jsstring) (rnd : nat -> Z) : jsstring :=
  match randomUUID with
  | Some u => u
  | None => replaceXY (str "xxxxxxxx-xxxx-4xxx-yxxx-xxxxxxxxxxxx") 0 rnd
  end.

End Text.

(** A row of cells as [exportCSV] writes it:
    [r.map(U.csvEscape).join(";")]. *)
Definition csvLine (r : list jsstring) : jsstring :=
  join [59%N] (map Text.csvEscape r).

(** The digits of a version 4 UUID: 36 characters, hyphens at the four
    places, the version digit [4], the variant digit one of [8 9 a b], and
    lower-case hexadecimal digits elsewhere. *)
Definition isHexLower (c : N) : bool :=
  (isDigit c || (97 <=? c) && (c <=? 102))%N.

Definition isUuidV4 (s : jsstring) : bool :=
  (List.length s =? 36)%nat
  && forallb (fun p =>
       let i := fst p in
       let c := snd p in
       if ((i =? 8) || (i =? 13) || (i =? 18) || (i =? 23))%nat
       then (c =? 45)%N
       else if (i =? 14)%nat then (c =? 52)%N
       else if (i =? 19)%nat
            then ((c =? 56) || (c =? 57) || (c =? 97) || (c =? 98))%N
       else isHexLower c)
     (combine (seq 0 (List.length s)) s).

(** The value of a hexadecimal digit. *)
Definition hexValue (c : N) : Z :=
  if isDigit c then Z.of_N c - 48 else Z.of_N c - 87.

(** The bytes a string of hexadecimal digits denotes, two digits a byte. *)
Fixpoint unhex (s : jsstring) : list Z :=
  match s with
  | a :: b :: r => (16 * hexValue a + hexValue b) :: unhex r
  | _ => []
  end.

(** A reader of semicolon-separated values: a cell that begins with a
    quote runs to the closing quote, a doubled quote inside it standing for
    one; any other cell runs to the next semicolon or line feed. *)
Inductive CsvMode := Plain | Quoted | QuoteSeen.

Fixpoint readCsv (m : CsvMode) (cell : jsstring) (row : list jsstring)
  (rows : list (list jsstring)) (s : jsstring) : list (list jsstring) :=
  match s with
  | [] => rev (rev (rev cell :: row) :: rows)
  | c :: r =>
      match m with
      | Quoted =>
          if (c =? 34)%N then readCsv QuoteSeen cell row rows r
          else readCsv Quoted (c :: cell) row rows r
      | QuoteSeen =>
          if (c =? 34)%N then readCsv Quoted (c :: cell) row rows r
          else if (c =? 59)%N then readCsv Plain [] (rev cell :: row) rows r
          else if (c =? 10)%N
               then readCsv Plain [] [] (rev (rev cell :: row) :: rows) r
          else readCsv Plain (c :: cell) row rows r
      | Plain =>
          if (c =? 34)%N && isEmpty cell then readCsv Quoted cell row rows r
          else if (c =? 59)%N then readCsv Plain [] (rev cell :: row) rows r
          else if (c =? 10)%N
               then readCsv Plain [] [] (rev (rev cell :: row) :: rows) r
          else readCsv Plain (c :: cell) row rows r
      end
  end.

(** A file with a byte order mark in front. *)
Definition readCsvFile (s : jsstring) : list (list jsstring) :=
  match s with
  | c :: r => if (c =? 65279)%N then readCsv Plain [] [] [] r
              else readCsv Plain [] [] [] s
  | [] => readCsv Plain [] [] [] []
  end.

(** ** The cart and the settings: two more object stores

    Each is a store of its own, and no call of the source touches it
    together with another store: it is modelled as the list of its
    records, passed on from call to call. *)

(** A record of [cart] (key path [id]). *)
Record CartItem := {
  cart_id : jsstring;
  cart_name : jsstring;
  cart_qty : Number;
  cart_note : jsstring
}.

(** A record of [settings] (key path [key]). *)
Record Setting (V : Type) := {
  setting_key : jsstring;
  setting_value : V
}.
Arguments setting_key {V} _.
Arguments setting_value {V} _.

Module CartStore.

Definition getCartAll (cart : list CartItem) : list CartItem :=
  inKeyOrder cart_id cart.

Definition putCart (item : CartItem) (cart : list CartItem)
  : list CartItem :=
  upsert cart_id item cart.

Definition delCart (id : jsstring) (cart : list CartItem) : list CartItem :=
  filter (fun i => negb (str_eqb (cart_id i) id)) cart.

Definition clearCart (cart : list CartItem) : list CartItem := [].

End CartStore.

Module Settings.

(** [async function setSetting(key, value)] *)
Definition setSetting {V} (k : jsstring) (v : V) (l : list (Setting V))
  : list (Setting V) :=
  upsert setting_key {| setting_key := k; setting_value := v |} l.

(** [async function getSetting(key, defVal = null)]:
    [const v = await t.objectStore("settings").get(key);
     return v ? v.value : defVal].  [v] is the request object: it is
    truthy, and a request has no property [value].  The result is
    [undefined], whatever the store holds. *)
Definition getSetting {V} (k : jsstring) (defVal : V) (l : list (Setting V))
  : option V :=
  let v := requestOf k in
  property v.

End Settings.

(** The cells of a row of the cart table. *)
Inductive Field := field_qty | field_name | field_note.

Module Cart.

(** [async function add(name, qty, note)] *)
Definition add (name' : jsstring) (qty' : Number) (note' : jsstring)
  (uuid : jsstring) (cart : list CartItem) : list CartItem :=
  let items := CartStore.getCartAll cart in
  match find (fun i => str_eqb (cart_name i) name'
                       && str_eqb (cart_note i) note') items with
  | Some same =>
      CartStore.putCart {| cart_id := cart_id same;
                           cart_name := cart_name same;
                           cart_qty := Number_add (cart_qty same) qty';
                           cart_note := cart_note same |} cart
  | None =>
      CartStore.putCart {| cart_id := uuid; cart_name := name';
                           cart_qty := qty'; cart_note := note' |} cart
  end.

(** [async function onTableClick(e)] on the delete button of the row
    [id]. *)
Definition onTableClick (id : jsstring) (cart : list CartItem)
  : list CartItem :=
  CartStore.delCart id cart.

(** [async function onTableInput(e)] on the cell [field] of the row [id];
    [textContent] is the text of the cell. *)
Definition onTableInput (id : jsstring) (field : Field)
  (textContent : jsstring) (cart : list CartItem) : list CartItem :=
  let items := CartStore.getCartAll cart in
  match find (fun x => str_eqb (cart_id x) id) items with
  | None => cart
  | Some it =>
      let val := U.trim textContent in
      let it' :=
        match field with
        | field_qty =>
            {| cart_id := cart_id it; cart_name := cart_name it;
               cart_qty := quantityOf val; cart_note := cart_note it |}
        | field_name =>
            {| cart_id := cart_id it; cart_name := U.sanitize val;
               cart_qty := cart_qty it; cart_note := cart_note it |}
        | field_note =>
            {| cart_id := cart_id it; cart_name := cart_name it;
               cart_qty := cart_qty it; cart_note := U.sanitize val |}
        end in
      CartStore.putCart it' cart
  end.

(** The rows of [exportCSV]: the header, then [[i.qty, i.name, i.note]] for
    every item, each cell as the string [csvEscape] makes of it. *)
Definition rows (exponential : Z -> jsstring) (items : list CartItem)
  : list (list jsstring) :=
  [str "Menge"; str "Bezeichnung"; str "Notiz"]
  :: map (fun i => [String_of_number exponential (cart_qty i);
                    cart_name i; cart_note i])
       items.

(** [async function exportCSV()]: the text handed to [U.download], a byte
    order mark, then the rows, the cells of a row joined by semicolons and
    the rows by line feeds. *)
Definition exportCSV (exponential : Z -> jsstring) (cart : list CartItem)
  : jsstring :=
  let items := CartStore.getCartAll cart in
  (65279%N :: join [10%N]
                (map (fun r => join [59%N] (map Text.csvEscape r))
                   (rows exponential items))).

End Cart.

(** The quantity and the number of the items of a kind in the cart. *)
Definition cartKind (name' note' : jsstring) (i : CartItem) : bool :=
  str_eqb (cart_name i) name' && str_eqb (cart_note i) note'.

(** The quantity of a kind, the quantities being integers. *)
Definition integerOf (x : Number) : Z :=
  match x with
  | Finite n => n
  | _ => 0
  end.

Definition cartQty (name' note' : jsstring) (cart : list CartItem) : Z :=
  sumOver (fun i => if cartKind name' note' i then integerOf (cart_qty i)
                    else 0) cart.

(** The quantity is an integer from 0 to [2^53], where doubles count
    exactly. *)
Definition countable (x : Number) : Prop :=
  exists n, x = Finite n /\ 0 <= n <= 2 ^ 53.

Definition cartCount (name' note' : jsstring) (cart : list CartItem) : Z :=
  sumOver (fun i => if cartKind name' note' i then 1 else 0) cart.


(** ** Admin: the PIN and the two switches *)

Module Admin.

(** The flag [admin] of [App], the entry [admin_pin_hash] of
    [localStorage], the object store [settings], and the two check boxes. *)
Record State := {
  admin : bool;
  admin_pin_hash : option jsstring;
  settings : list (Setting bool);
  toggleHome : bool;
  toggleOverride : bool
}.

(** [!!v] of what [DB.getSetting] returns. *)
Definition truthy (v : option bool) : bool :=
  match v with
  | Some b => b
  | None => false
  end.

(** [async function loadToggles()] *)
Definition loadToggles (s : State) : State :=
  {| admin := admin s; admin_pin_hash := admin_pin_hash s;
     settings := settings s;
     toggleHome :=
       truthy (Settings.getSetting (str "home_lock") false (settings s));
     toggleOverride :=
       truthy (Settings.getSetting (str "override") false (settings s)) |}.

(** The [change] listener of [toggleHome]. *)
Definition onChangeHome (s : State) : State :=
  if negb (admin s) then
    {| admin := admin s; admin_pin_hash := admin_pin_hash s;
       settings := settings s;
       toggleHome := negb (toggleHome s);
       toggleOverride := toggleOverride s |}
  else
    {| admin := admin s; admin_pin_hash := admin_pin_hash s;
       settings :=
         Settings.setSetting (str "home_lock") (toggleHome s) (settings s);
       toggleHome := toggleHome s;
       toggleOverride := toggleOverride s |}.

(** The [change] listener of [toggleOverride]. *)
Definition onChangeOverride (s : State) : State :=
  if negb (admin s) then
    {| admin := admin s; admin_pin_hash := admin_pin_hash s;
       settings := settings s;
       toggleHome := toggleHome s;
       toggleOverride := negb (toggleOverride s) |}
  else
    {| admin := admin s; admin_pin_hash := admin_pin_hash s;
       settings :=
         Settings.setSetting (str "override") (toggleOverride s)
           (settings s);
       toggleHome := toggleHome s;
       toggleOverride := toggleOverride s |}.

(** A click on a check box: the browser flips it, then the listener
    runs. *)
Definition clickHome (s : State) : State :=
  onChangeHome {| admin := admin s; admin_pin_hash := admin_pin_hash s;
                  settings := settings s;
                  toggleHome := negb (toggleHome s);
                  toggleOverride := toggleOverride s |}.

Definition clickOverride (s : State) : State :=
  onChangeOverride {| admin := admin s;
                      admin_pin_hash := admin_pin_hash s;
                      settings := settings s;
                      toggleHome := toggleHome s;
                      toggleOverride := negb (toggleOverride s) |}.

(** The digest of a PIN: [await U.sha256(new TextEncoder().encode(pin))];
    [encode] is the UTF-8 encoding of the browser, whose result is a
    [Uint8Array]. *)
Definition pinHash (encode : jsstring -> list Z)
  (digest : list Z -> list Z) (pin : jsstring) : Completion jsstring :=
  Text.sha256Of digest (Text.uint8Array (encode pin)).

(** The [click] listener of [btnSetPin]; [p2] is the answer of the second
    prompt, which is asked only after the first.  The result is the state
    the listener leaves, also where an exception ends it. *)
Definition setPin (encode : jsstring -> list Z)
  (digest : list Z -> list Z) (p1 p2 : Answer) (s : State) : State :=
  match p1 with
  | Dismissed => s
  | Okay v1 =>
      if isEmpty (U.trim v1) then s
      else match p2 with
           | Dismissed => s
           | Okay v2 =>
               if negb (str_eqb v1 v2) then s   (* the PINs differ *)
               else match pinHash encode digest v1 with
                    | Throws _ => s
                    | Returns hash =>
                        {| admin := admin s;
                           admin_pin_hash := Some hash;
                           settings := settings s;
                           toggleHome := toggleHome s;
                           toggleOverride := toggleOverride s |}
                    end
           end
  end.

(** The [click] listener of [btnLogin]. *)
Definition login (encode : jsstring -> list Z)
  (digest : list Z -> list Z) (pin : Answer) (s : State) : State :=
  match pin with
  | Dismissed => s
  | Okay v =>
      match pinHash encode digest v with
      | Throws _ => s
      | Returns hash =>
          match admin_pin_hash s with
          | Some stored =>
              if negb (isEmpty stored) && str_eqb stored hash then
                {| admin := true; admin_pin_hash := admin_pin_hash s;
                   settings := settings s;
                   toggleHome := toggleHome s;
                   toggleOverride := toggleOverride s |}
              else s                         (* wrong PIN *)
          | None => s                        (* wrong PIN *)
          end
      end
  end.

(** What happens in the admin panel. *)
Inductive Event :=
| load
| changeHome
| changeOverride
| clickSetPin (p1 p2 : Answer)
| clickLogin (pin : Answer).

Definition isLoad (e : Event) : bool :=
  match e with
  | load => true
  | _ => false
  end.

Definition step (encode : jsstring -> list Z) (digest : list Z -> list Z)
  (e : Event) (s : State) : State :=
  match e with
  | load => loadToggles s
  | changeHome => clickHome s
  | changeOverride => clickOverride s
  | clickSetPin p1 p2 => setPin encode digest p1 p2 s
  | clickLogin pin => login encode digest pin s
  end.

End Admin.

(** ** The gallery of [showDetail] *)

Module Gallery.

(** The variables [idx] and [zoom] of the closure.  The zoom moves in
    steps of a quarter between a half and three: numbers a double holds
    exactly, so that the rational is the double. *)
Record State := {
  idx : Z;
  zoom : Q
}.

(** [let idx = 0, zoom = 1] *)
Definition init : State := {| idx := 0; zoom := 1 |}.

(** [setImg(i)] on a gallery of [n] pages.  [None]: the gallery is empty,
    the index is [NaN] and [imgs[idx].blob] throws. *)
Definition setImg (n : Z) (i : Z) (g : State) : option State :=
  if n =? 0 then None
  else Some {| idx := Z.rem (i + n) n; zoom := zoom g |}.

Inductive Button := prev | next | zoomIn | zoomOut.

(** The [onclick] of the four buttons. *)
Definition press (n : Z) (b : Button) (g : State) : option State :=
  match b with
  | prev => setImg n (idx g - 1) g
  | next => setImg n (idx g + 1) g
  | zoomIn =>
      setImg n (idx g) {| idx := idx g; zoom := Qmin 3 (zoom g + (1 # 4)) |}
  | zoomOut =>
      setImg n (idx g)
        {| idx := idx g; zoom := Qmax (1 # 2) (zoom g - (1 # 4)) |}
  end.

(** A sequence of clicks, as long as none throws. *)
Fixpoint presses (n : Z) (bs : list Button) (g : State) : option State :=
  match bs with
  | [] => Some g
  | b :: r =>
      match press n b g with
      | Some g' => presses n r g'
      | None => None
      end
  end.

End Gallery.

(** What holds of the gallery of [n] pages after every click. *)
Definition GalleryInv (n : Z) (g : Gallery.State) : Prop :=
  0 <= Gallery.idx g < n
  /\ exists k, 2 <= k <= 12 /\ (Gallery.zoom g == k # 4)%Q.

(** ** The lists of documents and the search *)

(** [[...new Set(l)]]: the first occurrence of every value, in order. *)
Fixpoint uniq (seen l : list jsstring) : list jsstring :=
  match l with
  | [] => []
  | x :: r =>
      if existsb (str_eqb x) seen then uniq seen r
      else x :: uniq (x :: seen) r
  end.

(** What the search ends up showing. *)
Inductive SearchResult :=
| NoQuery                                  (* the field is blank *)
| NoHits                                   (* [Keine Treffer.] *)
| DateHits (tiles : list (InboundDoc * Z)) (* the hits of a day *)
| Detail (d : InboundDoc) (pages : list Image).

Module Lists.

(** [async function listInboundByDate(dateStr)] of [DB] *)
Definition listInboundByDate (localeCompare : jsstring -> jsstring -> Z)
  (dateStr : jsstring) : DBM (list InboundDoc) := fun st =>
  (sort (fun a b => localeCompare (ls_nr a) (ls_nr b))
     (inKeyOrder doc_id
        (filter (fun d => str_eqb (date_doc d) dateStr) (inbound_docs st))),
   st).

(** [for (const d of l) { const pages = await DB.countImages(d.id);
    ... tile(d, pages) ... }]: the tiles, each a document with the number
    of its pages. *)
Fixpoint tiles (l : list InboundDoc) : DBM (list (InboundDoc * Z)) :=
  match l with
  | [] => ret []
  | d :: r =>
      let* pages := DB.countImages (doc_id d) in
      let* rest := tiles r in
      ret ((d, pages) :: rest)
  end.

(** [async function refreshLists()]: the options of the supplier list,
    the tiles of the list without drawing and of the list with drawing.
    [Array.prototype.sort()] without a comparator orders strings by their
    code units. *)
Definition refreshLists (localeCompare : jsstring -> jsstring -> Z)
  : DBM (list jsstring * list (InboundDoc * Z) * list (InboundDoc * Z)) :=
  let* mit := DB.listInboundByStatus localeCompare mit_zeichnung in
  let* ohne := DB.listInboundByStatus localeCompare ohne_zeichnung in
  let all := mit ++ ohne in
  let uniqSupp := sort codeUnitCompare (uniq [] (map supplier all)) in
  let* listOhne := tiles ohne in
  let* listMit := tiles mit in
  ret (uniqSupp, listOhne, listMit).

(** [async function showDetail(doc)]: the document and its pages. *)
Definition showDetail (d : InboundDoc) : DBM SearchResult :=
  let* imgs := DB.listImages (doc_id d) in
  ret (Detail d imgs).

(** [async function search()], on the text of the search field. *)
Definition search (toUpperCase : jsstring -> jsstring)
  (localeCompare : jsstring -> jsstring -> Z) (quickSearch : jsstring)
  : DBM SearchResult :=
  let q := U.trim quickSearch in
  if isEmpty q then ret NoQuery
  else if Text.isDateStr q then
    let* list := listInboundByDate localeCompare q in
    match list with
    | [] => ret NoHits
    | _ :: _ =>
        let* ts := tiles list in
        ret (DateHits ts)
    end
  else
    let norm := U.normLs toUpperCase q in
    let* hits := DB.findInboundByLs norm in
    match hits with
    | [] => ret NoHits
    | d :: _ => showDetail d
    end.

End Lists.

(** The number of the stored pages of a document. *)
Definition pageCount (st : Store) (id : jsstring) : Z :=
  Z.of_nat (List.length
    (filter (fun i => str_eqb (inbound_id i) id) (inbound_images st))).

(** What holds of the number of every stored document: it is not blank,
    and the normalised number is [normLs] of it. *)
Definition NumberInv (toUpperCase : jsstring -> jsstring) (st : Store)
  : Prop :=
  forall d, In d (inbound_docs st) ->
    isEmpty (U.trim (ls_nr d)) = false
    /\ ls_nr_normalized d = U.normLs toUpperCase (ls_nr d).

(** The log of [st'] is the log of [st] with entries added at its end. *)
Definition extendsLog (st st' : Store) : Prop :=
  exists l, logs st' = logs st ++ l.

(** ** The board: editing, deleting, new bins, the first start *)

(** The zones of the board with a letter outside ASCII, and the seeded
    names, as code units. *)
Definition zoneBestaende : jsstring := str "Best" ++ [228%N] ++ str "nde".

Definition nameRueckenteil : jsstring :=
  str "61-91-112 R" ++ [252%N] ++ str "ckenteil".

Module Board.

(** The [click] listener of [boardClicks] on the button [del] of the item
    [id]: [item] is the request object, [item.id] is [undefined], and
    [DB.deleteItem(undefined)] is a [delete] without a valid key. *)
Definition clickDel (id : jsstring) : DBM (Completion unit) :=
  let* item := DB.getItem id in
  let? key := validKey (property item) in
  DB.deleteItem key ;;
  ret (Returns tt).

(** The [click] listener of [boardClicks] on the button [edit] of the
    item [id]; [p1], [p2], [p3] are the answers of the three prompts, each
    asked only after the one before was confirmed.  The three assignments
    give the request object new properties; [DB.putItem(item)] is a [put]
    of the request. *)
Definition clickEdit (id : jsstring) (p1 p2 p3 : Answer)
  : DBM (Completion unit) :=
  let* item := DB.getItem id in
  match p1, p2, p3 with
  | Okay v1, Okay v2, Okay v3 =>
      let? it := structuredClone item in
      DB.putItem {| item_id := item_id it; name := U.sanitize v1;
                    zone := zone it; qty := quantityOf v2;
                    note := U.sanitize v3 |} ;;
      ret (Returns tt)
  | _, _, _ => ret (Returns tt)
  end.

(** [async function addBin()] *)
Definition addBin (v : Answer) (uuid : jsstring) : DBM unit :=
  match v with
  | Dismissed => ret tt
  | Okay text =>
      if isEmpty (U.trim text) then ret tt
      else
        let code := U.trim text in
        DB.putItem {| item_id := uuid; name := code;
                      zone := str "Lagerplatz"; qty := Finite 0;
                      note := str "Platz" |}
  end.

(** The end of [App.boot]: [Seed sample board items if empty]; the three
    identifiers are the results of [U.uuid()]. *)
Definition seed (u1 u2 u3 : jsstring) : DBM unit :=
  let* a := DB.listItemsByZone (str "Wareneingang") in
  let* b := DB.listItemsByZone zoneBestaende in
  let* c := DB.listItemsByZone (str "Lagerplatz") in
  let any := (List.length a + List.length b + List.length c)%nat in
  if (any =? 0)%nat then
    DB.putItem {| item_id := u1; name := str "57-90-12 Untergestell";
                  zone := str "Wareneingang"; qty := Finite 20;
                  note := str "" |} ;;
    DB.putItem {| item_id := u2; name := nameRueckenteil;
                  zone := zoneBestaende; qty := Finite 50; note := str "" |} ;;
    DB.putItem {| item_id := u3; name := str "P-R2 1-1";
                  zone := str "Lagerplatz"; qty := Finite 0;
                  note := str "Platz" |}
  else ret tt.

(** What happens on the board. *)
Inductive Event :=
| boot (u1 u2 u3 : jsstring)
| drop (id targetZone : jsstring) (prompt : option Answer)
    (uuid : jsstring)
| del (id : jsstring)
| edit (id : jsstring) (p1 p2 p3 : Answer)
| bin (v : Answer) (uuid : jsstring).

Definition step (e : Event) : DBM unit :=
  match e with
  | boot u1 u2 u3 => seed u1 u2 u3
  | drop id targetZone prompt uuid =>
      UI.drop id targetZone prompt uuid ;; ret tt
  | del id => clickDel id ;; ret tt
  | edit id p1 p2 p3 => clickEdit id p1 p2 p3 ;; ret tt
  | bin v uuid => addBin v uuid
  end.

End Board.


(** What holds of the items of the board at all times. *)
Definition BoardInv (st : Store) : Prop :=
  NoDup (map item_id (dnd_items st))
  /\ Forall (fun i => nonNegative (qty i)) (dnd_items st).

(** ** What happens to the cart *)

Module Basket.

(** The [onclick] of [#btnToCart] in [showDetail]: one of the document
    goes to the cart, under the supplier and the number with a dash
    between them, with the date as note. *)
Definition btnToCart (doc : InboundDoc) (uuid : jsstring)
  (cart : list CartItem) : list CartItem :=
  let name' := supplier doc ++ [32; 8211; 32]%N ++ ls_nr doc in
  Cart.add name' (Finite 1) (str "Datum " ++ date_doc doc) uuid cart.

Inductive Event :=
| toCart (doc : InboundDoc) (uuid : jsstring)
| input (id : jsstring) (field : Field) (textContent : jsstring)
| delRow (id : jsstring)
| clearAll.

Definition step (e : Event) (cart : list CartItem) : list CartItem :=
  match e with
  | toCart doc uuid => btnToCart doc uuid cart
  | input id field textContent =>
      Cart.onTableInput id field textContent cart
  | delRow id => Cart.onTableClick id cart
  | clearAll => CartStore.clearCart cart
  end.

End Basket.

(** ** The capture list of the camera dialog *)

Module Session.

(** [state.captures.push({ blob, w, h, sha256 })] after a capture that
    passed the checks; [size] and [sha] are the size and the digest of the
    JPEG blob. *)
Definition push (r : Camera.CaptureResult) (size : Z) (sha : jsstring)
  (captures : list Capture) : list Capture :=
  match r with
  | Camera.Pushed w h =>
      captures ++ [ {| cap_w := w; cap_h := h; cap_size := size;
                       cap_sha256 := sha |} ]
  | Camera.Retake _ => captures
  end.

(** [function rotateLast()]: the last capture is replaced by the rotated
    blob, its two edges exchanged; [size] and [sha] are those of the
    rotated blob. *)
Definition rotateLast (size : Z) (sha : jsstring) (captures : list Capture)
  : list Capture :=
  match rev captures with
  | [] => captures
  | last :: front =>
      rev front ++ [ {| cap_w := cap_h last; cap_h := cap_w last;
                        cap_size := size; cap_sha256 := sha |} ]
  end.

(** [function deleteLast()]: [state.captures.pop()] *)
Definition deleteLast (captures : list Capture) : list Capture :=
  removelast captures.

(** What happens in the dialog between [open], which empties the list,
    and [Done]. *)
Inductive Event :=
| takeFrame (v : Bitmap) (size : Z) (sha : jsstring)
| pickFile (bmp : Bitmap) (size : Z) (sha : jsstring)
| rotate (size : Z) (sha : jsstring)
| retake.

Definition step (fl : Q -> Q) (score : Bitmap -> float) (e : Event)
  (captures : list Capture) : list Capture :=
  match e with
  | takeFrame v size sha => push (Camera.take fl score v) size sha captures
  | pickFile bmp size sha =>
      push (Camera.onFilePicked fl score bmp) size sha captures
  | rotate size sha => rotateLast size sha captures
  | retake => deleteLast captures
  end.

(** The bitmaps the browser decodes have at least one pixel a side. *)
Definition decoded (e : Event) : Prop :=
  match e with
  | pickFile bmp _ _ => 1 <= width bmp /\ 1 <= height bmp
  | _ => True
  end.

End Session.

(* ------------------------------------------------------------------ *)
(** * Properties *)

Lemma str_eqb_spec (a b : jsstring) : reflect (a = b) (str_eqb a b).
Proof.
  revert b; induction a as [|x a IH]; intros [|y b]; simpl;
    try (constructor; congruence).
  destruct (N.eqb_spec x y) as [->|Hxy]; simpl.
  - destruct (IH b) as [->|Hab]; constructor; congruence.
  - constructor; congruence.
Qed.

Lemma str_eqb_refl (a : jsstring) : str_eqb a a = true.
Proof. destruct (str_eqb_spec a a); congruence. Qed.

Lemma str_eqb_eq (a b : jsstring) : str_eqb a b = true <-> a = b.
Proof. destruct (str_eqb_spec a b); split; congruence. Qed.

Lemma str_eqb_neq (a b : jsstring) : str_eqb a b = false <-> a <> b.
Proof. destruct (str_eqb_spec a b); split; congruence. Qed.

Lemma str_eqb_sym (a b : jsstring) : str_eqb a b = str_eqb b a.
Proof.
  destruct (str_eqb_spec a b), (str_eqb_spec b a); congruence.
Qed.

Lemma filter_id_Forall {A} (p : A -> bool) (l : list A) :
  Forall (fun x => p x = true) l -> filter p l = l.
Proof.
  induction 1 as [|x l Hx _ IH]; simpl; [reflexivity|].
  now rewrite Hx, IH.
Qed.

Lemma sanitize_no_angle s : Forall (fun c => isAngle c = false) (U.sanitize s).
Proof.
  apply Forall_forall; intros c Hc.
  apply filter_In in Hc as [_ Hc]. now apply negb_true_iff in Hc.
Qed.

Lemma sanitize_fixed s :
  Forall (fun c => isAngle c = false) s -> U.sanitize s = s.
Proof.
  intros H. apply filter_id_Forall.
  eapply Forall_impl; [|exact H]. simpl; intros c ->; reflexivity.
Qed.

Lemma sanitize_idempotent s : U.sanitize (U.sanitize s) = U.sanitize s.
Proof. apply sanitize_fixed, sanitize_no_angle. Qed.

Lemma strip_clean s :
  Forall (fun c => isAngle c = false) s -> clean (U.stripSeparators s).
Proof.
  intros H. apply Forall_forall; intros c Hc.
  apply filter_In in Hc as [Hin Hc].
  rewrite Forall_forall in H. split; [now apply H|].
  now apply negb_true_iff in Hc.
Qed.

Lemma clean_fixed s :
  clean s -> U.stripSeparators (U.sanitize s) = s.
Proof.
  intros H. rewrite sanitize_fixed.
  - apply filter_id_Forall. eapply Forall_impl; [|exact H].
    simpl; intros c [_ ->]; reflexivity.
  - eapply Forall_impl; [|exact H]. now intros c [? _].
Qed.

Lemma trimStart_suffix s : exists p, s = p ++ U.trimStart s.
Proof.
  induction s as [|c s [p Hp]]; simpl.
  - now exists [].
  - destruct (isWhiteSpace c).
    + exists (c :: p). simpl. now f_equal.
    + now exists [].
Qed.

Lemma trimStart_incl s c : In c (U.trimStart s) -> In c s.
Proof.
  destruct (trimStart_suffix s) as [p Hp]. intros H.
  rewrite Hp. apply in_or_app. now right.
Qed.

Lemma trim_incl s c : In c (U.trim s) -> In c s.
Proof.
  unfold U.trim, U.trimEnd. intros H.
  apply in_rev in H. apply trimStart_incl in H. apply in_rev in H.
  now apply trimStart_incl.
Qed.

Lemma trim_sanitize_no_angle s :
  Forall (fun c => isAngle c = false) (U.trim (U.sanitize s)).
Proof.
  apply Forall_forall; intros c Hc. apply trim_incl in Hc.
  pose proof (sanitize_no_angle s) as H. rewrite Forall_forall in H.
  now apply H.
Qed.

Lemma asciiUpper_laws : UpperCaseLaws U.asciiUpper.
Proof.
  split.
  - intros s. unfold U.asciiUpper. rewrite map_map. apply map_ext.
    intros c.
    destruct ((97 <=? c) && (c <=? 122))%N eqn:E; [|now rewrite E].
    apply andb_true_iff in E as [E1 E2].
    apply N.leb_le in E1, E2.
    replace ((97 <=? c - 32) && (c - 32 <=? 122))%N with false; [reflexivity|].
    symmetry. apply andb_false_iff. left. apply N.leb_gt. lia.
  - intros s H. unfold U.asciiUpper, clean in *.
    apply Forall_forall. intros c Hc. apply in_map_iff in Hc as [d [<- Hd]].
    rewrite Forall_forall in H. specialize (H d Hd).
    destruct ((97 <=? d) && (d <=? 122))%N eqn:E; [|exact H].
    apply andb_true_iff in E as [E1 E2].
    apply N.leb_le in E1, E2.
    unfold isAngle, isSeparator, isWhiteSpace.
    split.
    + apply orb_false_iff; split; apply N.eqb_neq; lia.
    + repeat (apply orb_false_iff; split);
        try (apply N.eqb_neq; lia);
        try (apply andb_false_iff; left; apply N.leb_gt; lia);
        try (apply andb_false_iff; right; apply N.leb_gt; lia).
Qed.

(** C5. The normalisation of document numbers is idempotent:
    [normLs (normLs n) = normLs n] for every string [n], whatever the
    case mapping does outside ASCII, as long as it is idempotent itself and
    never produces one of the removed characters. *)
Theorem normLs_idempotent (toUpperCase : jsstring -> jsstring)
  (Hup : UpperCaseLaws toUpperCase) (n : jsstring) :
  U.normLs toUpperCase (U.normLs toUpperCase n) = U.normLs toUpperCase n.
Proof.
  unfold U.normLs.
  rewrite clean_fixed.
  - apply (upper_idempotent _ Hup).
  - apply (upper_clean _ Hup), strip_clean, sanitize_no_angle.
Qed.

Lemma normLs_idempotent_witness :
  UpperCaseLaws U.asciiUpper /\
  U.normLs U.asciiUpper (U.normLs U.asciiUpper (str "a-1 0<0>.b_c"))
  = U.normLs U.asciiUpper (str "a-1 0<0>.b_c").
Proof.
  split; [exact asciiUpper_laws|].
  exact (normLs_idempotent U.asciiUpper asciiUpper_laws (str "a-1 0<0>.b_c")).
Defined.

(** ** Documents: duplicate check and normalised number *)

Lemma strip_trimStart s :
  U.stripSeparators (U.trimStart s) = U.stripSeparators s.
Proof.
  induction s as [|c s IH]; simpl; [reflexivity|].
  destruct (isWhiteSpace c) eqn:E; [|reflexivity].
  rewrite IH. unfold U.stripSeparators at 2. simpl.
  unfold isSeparator. now rewrite E.
Qed.

Lemma strip_rev s : U.stripSeparators (rev s) = rev (U.stripSeparators s).
Proof.
  unfold U.stripSeparators. induction s as [|c s IH]; simpl; [reflexivity|].
  rewrite filter_app, IH. simpl.
  destruct (negb (isSeparator c)); simpl; [reflexivity|apply app_nil_r].
Qed.

Lemma strip_trim s : U.stripSeparators (U.trim s) = U.stripSeparators s.
Proof.
  unfold U.trim, U.trimEnd.
  rewrite strip_rev, strip_trimStart, strip_rev, rev_involutive.
  apply strip_trimStart.
Qed.

(** The number of the form normalises like the stored number. *)
Lemma normLs_form_field toUpperCase s :
  U.normLs toUpperCase (U.trim (U.sanitize s)) = U.normLs toUpperCase s.
Proof.
  unfold U.normLs.
  rewrite (sanitize_fixed _ (trim_sanitize_no_angle s)).
  now rewrite strip_trim.
Qed.

(** The characters the expression [[\s._-]] of the code matches are the
    characters the specification names. *)
Lemma spec_stripped_separator c : spec_stripped c = isSeparator c.
Proof.
  unfold spec_stripped, spec_whitespace, isSeparator, isWhiteSpace.
  cbn [existsb app].
  repeat match goal with
         | |- context [(c =? ?k)%N] =>
             destruct (N.eqb_spec c k) as [->|?]; [reflexivity|]
         end.
  cbn [orb]. symmetry.
  repeat rewrite orb_false_r.
  apply orb_false_iff. split; apply andb_false_iff.
  - destruct (N.leb_spec 9 c); [right|now left]. apply N.leb_gt. lia.
  - destruct (N.leb_spec 8192 c); [right|now left]. apply N.leb_gt. lia.
Qed.

Lemma spec_strip_code s : spec_strip s = U.stripSeparators s.
Proof.
  unfold U.stripSeparators. induction s as [|c s IH]; [reflexivity|].
  cbn [spec_strip filter]. rewrite spec_stripped_separator, IH.
  now destruct (isSeparator c).
Qed.

(** On a stored number the normalisation of the code is the function of
    the specification: there is no [<] or [>] left for it to remove. *)
Lemma normLs_stored toUpperCase s :
  U.normLs toUpperCase (U.trim (U.sanitize s))
  = spec_normalize toUpperCase (U.trim (U.sanitize s)).
Proof.
  unfold U.normLs, spec_normalize. rewrite spec_strip_code.
  now rewrite (sanitize_fixed _ (trim_sanitize_no_angle s)).
Qed.

Lemma insertSorted_perm {A} (cmp : A -> A -> Z) x l :
  Permutation (insertSorted cmp x l) (x :: l).
Proof.
  induction l as [|y l IH]; simpl; [reflexivity|].
  destruct (cmp x y <=? 0); [reflexivity|].
  rewrite IH. apply perm_swap.
Qed.

Lemma sort_perm {A} (cmp : A -> A -> Z) l : Permutation (sort cmp l) l.
Proof.
  induction l as [|x l IH]; simpl; [reflexivity|].
  rewrite insertSorted_perm. now constructor.
Qed.

Lemma sort_In {A} (cmp : A -> A -> Z) l x : In x (sort cmp l) <-> In x l.
Proof.
  split; apply Permutation_in; [|symmetry]; apply sort_perm.
Qed.

Lemma existsb_perm {A} (p : A -> bool) l l' :
  Permutation l l' -> existsb p l = existsb p l'.
Proof.
  induction 1 as [|x l l' _ IH|x y l|l l' l'' _ IH1 _ IH2]; simpl.
  - reflexivity.
  - now rewrite IH.
  - destruct (p x), (p y); reflexivity.
  - congruence.
Qed.

Lemma inKeyOrder_perm {A} (key : A -> jsstring) l :
  Permutation (inKeyOrder key l) l.
Proof. apply sort_perm. Qed.

Lemma inKeyOrder_In {A} (key : A -> jsstring) l x :
  In x (inKeyOrder key l) <-> In x l.
Proof. apply sort_In. Qed.

Lemma existsb_filter {A} (p q : A -> bool) (l : list A) :
  existsb p (filter q l) = existsb (fun x => q x && p x) l.
Proof.
  induction l as [|x l IH]; simpl; [reflexivity|].
  destruct (q x); simpl; now rewrite IH.
Qed.

Lemma checkDuplicate_spec toUpperCase lsNr supp date st :
  eval (UI.checkDuplicate toUpperCase lsNr supp date) st = true <->
  exists d, In d (inbound_docs st)
            /\ ls_nr_normalized d = U.normLs toUpperCase lsNr
            /\ supplier d = supp /\ date_doc d = date.
Proof.
  unfold UI.checkDuplicate, eval, bind, ret, DB.findInboundByLs. simpl.
  rewrite (existsb_perm _ _ _ (inKeyOrder_perm _ _)).
  rewrite existsb_filter, existsb_exists. split.
  - intros [d [Hin Hd]]. exists d.
    apply andb_true_iff in Hd as [H1 H2].
    apply andb_true_iff in H2 as [H2 H3].
    apply str_eqb_eq in H1, H2, H3. auto.
  - intros [d [Hin [H1 [H2 H3]]]]. exists d. split; [assumption|].
    rewrite H1, H2, H3. now rewrite !str_eqb_refl.
Qed.

Lemma hasKey_false_iff {A} (key : A -> jsstring) k (l : list A) :
  hasKey key k l = false <-> ~ In k (map key l).
Proof.
  unfold hasKey. induction l as [|x l IH]; simpl.
  - tauto.
  - rewrite orb_false_iff, IH, str_eqb_neq. tauto.
Qed.

(** C1, as amended.  For a create attempt whose number, supplier and date
    are not empty (number and supplier after sanitising and trimming):
    if a stored document has the normalised number, the supplier and the
    date of the attempt and the override box is not checked, the result is
    the duplicate warning and the store is left as it was; if the box is
    checked, the document is created and stored (under a fresh key)
    whatever the store holds.  A create attempt whose number or supplier
    is empty after sanitising and trimming, or whose date is empty, is
    ignored: the store is left as it was and there is no warning, whatever
    the store holds and whether the override box is checked or not. *)
Theorem handleSubmit_duplicate_policy
  (toUpperCase : jsstring -> jsstring)
  (lsnr supplierField dateDoc uuid now user : jsstring) (st : Store) :
  (formComplete lsnr supplierField dateDoc = true ->
   ((exists d, In d (inbound_docs st)
               /\ matches toUpperCase lsnr supplierField dateDoc d) ->
    UI.handleSubmit toUpperCase lsnr supplierField dateDoc false
      uuid now user st
    = (DuplicateWarning, st))
   /\
   (~ In uuid (map doc_id (inbound_docs st)) ->
    exists doc,
      eval (UI.handleSubmit toUpperCase lsnr supplierField dateDoc true
              uuid now user) st = Created doc
      /\ inbound_docs
           (exec (UI.handleSubmit toUpperCase lsnr supplierField dateDoc true
                    uuid now user) st)
         = inbound_docs st ++ [doc]
      /\ doc_id doc = uuid
      /\ ls_nr doc = U.trim (U.sanitize lsnr)
      /\ supplier doc = U.trim (U.sanitize supplierField)
      /\ date_doc doc = dateDoc
      /\ status doc = ohne_zeichnung))
  /\
  (U.trim (U.sanitize lsnr) = []
   \/ U.trim (U.sanitize supplierField) = []
   \/ dateDoc = [] ->
   forall chkForce,
     UI.handleSubmit toUpperCase lsnr supplierField dateDoc chkForce
       uuid now user st
     = (Ignored, st)).
Proof.
  split.
  - intros Hform. unfold formComplete in Hform.
    apply negb_true_iff in Hform. split.
    + intros [d [Hin [H1 [H2 H3]]]].
      unfold UI.handleSubmit. rewrite Hform.
      assert (Hdup : eval (UI.checkDuplicate toUpperCase
                             (U.trim (U.sanitize lsnr))
                             (U.trim (U.sanitize supplierField)) dateDoc) st
                     = true).
      { apply checkDuplicate_spec. exists d. rewrite normLs_form_field.
        auto. }
      unfold bind at 1. unfold eval in Hdup. rewrite Hdup. reflexivity.
    + intros Hfresh. unfold UI.handleSubmit. rewrite Hform.
      apply hasKey_false_iff in Hfresh.
      unfold eval, exec, bind, ret, DB.addInboundDoc, DB.addLog. simpl.
      rewrite andb_false_r. simpl. rewrite Hfresh. simpl.
      eexists. repeat split.
  - intros Hempty chkForce. unfold UI.handleSubmit.
    replace (isEmpty (U.trim (U.sanitize lsnr))
             || isEmpty (U.trim (U.sanitize supplierField))
             || isEmpty dateDoc) with true; [reflexivity|].
    symmetry. destruct Hempty as [E | [E | E]]; rewrite E; cbn [isEmpty];
      rewrite ?orb_true_r; reflexivity.
Qed.

Lemma handleSubmit_duplicate_policy_witness :
  UI.handleSubmit U.asciiUpper (str "a 100") (str "X") (str "2024-01-01")
    false (str "id2") (str "t2") (str "u")
    (exec (UI.handleSubmit U.asciiUpper (str "A-100") (str "X")
             (str "2024-01-01") false (str "id1") (str "t1") (str "u"))
       emptyStore)
  = (DuplicateWarning,
     exec (UI.handleSubmit U.asciiUpper (str "A-100") (str "X")
             (str "2024-01-01") false (str "id1") (str "t1") (str "u"))
       emptyStore)
  /\ UI.handleSubmit U.asciiUpper (str "A-100") (str " <> ")
       (str "2024-01-01") true (str "id1") (str "t1") (str "u") emptyStore
     = (Ignored, emptyStore).
Proof.
  split.
  - apply (handleSubmit_duplicate_policy U.asciiUpper (str "a 100") (str "X")
             (str "2024-01-01") (str "id2") (str "t2") (str "u")).
    + reflexivity.
    + eexists. split; [left; reflexivity|]. repeat split.
  - apply (handleSubmit_duplicate_policy U.asciiUpper (str "A-100")
             (str " <> ") (str "2024-01-01") (str "id1") (str "t1")
             (str "u") emptyStore).
    right. left. reflexivity.
Defined.

(** C1 as stated fails where the guard against empty fields returns first:
    with the override box checked and no supplier nothing is created, and an
    attempt with an empty number that a stored document matches (the number
    [-] normalises to the empty string) gets no duplicate warning. *)
Lemma handleSubmit_empty_field_counterexample :
  UI.handleSubmit U.asciiUpper (str "A-100") (str "") (str "2024-01-01")
    true (str "id1") (str "t1") (str "u") emptyStore
  = (Ignored, emptyStore)
  /\
  let st := exec (UI.handleSubmit U.asciiUpper (str "-") (str "X")
                    (str "2024-01-01") false (str "id1") (str "t1") (str "u"))
              emptyStore in
  (exists d, In d (inbound_docs st)
             /\ ls_nr_normalized d = U.normLs U.asciiUpper (str "")
             /\ supplier d = str "X" /\ date_doc d = str "2024-01-01")
  /\ eval (UI.handleSubmit U.asciiUpper (str "") (str "X") (str "2024-01-01")
             false (str "id2") (str "t2") (str "u")) st
     <> DuplicateWarning.
Proof.
  split; [reflexivity|]. split.
  - eexists. split; [left; reflexivity|]. repeat split.
  - vm_compute. discriminate.
Qed.

(** ** Lists: sorting, keyed update *)

Lemma filter_length_perm {A} (p : A -> bool) l l' :
  Permutation l l' ->
  List.length (filter p l) = List.length (filter p l').
Proof.
  induction 1; simpl; try congruence.
  - destruct (p x); simpl; congruence.
  - destruct (p x), (p y); simpl; congruence.
Qed.

Lemma upsert_In {A} (key : A -> jsstring) x l y :
  In y (upsert key x l) -> y = x \/ In y l.
Proof.
  induction l as [|z l IH]; simpl.
  - intros [<-|[]]. now left.
  - destruct (str_eqb (key z) (key x)); simpl.
    + intros [<-|H]; auto.
    + intros [<-|H]; auto. destruct (IH H); auto.
Qed.

Lemma upsert_keys {A} (key : A -> jsstring) x l :
  map key (upsert key x l)
  = if hasKey key (key x) l then map key l else map key l ++ [key x].
Proof.
  unfold hasKey. induction l as [|z l IH]; simpl; [reflexivity|].
  destruct (str_eqb_spec (key z) (key x)) as [E|E]; simpl.
  - now rewrite E.
  - rewrite IH. now destruct (existsb _ l).
Qed.

Lemma hasKey_true_iff {A} (key : A -> jsstring) k (l : list A) :
  hasKey key k l = true <-> In k (map key l).
Proof.
  unfold hasKey. induction l as [|x l IH]; simpl.
  - split; [discriminate|tauto].
  - rewrite orb_true_iff, IH, str_eqb_eq. tauto.
Qed.

Lemma upsert_keys_NoDup {A} (key : A -> jsstring) x l :
  NoDup (map key l) -> NoDup (map key (upsert key x l)).
Proof.
  intros H. rewrite upsert_keys.
  destruct (hasKey key (key x) l) eqn:E; [assumption|].
  apply hasKey_false_iff in E.
  apply NoDup_app; [assumption|repeat constructor; simpl; tauto|].
  intros k Hk [<-|[]]. contradiction.
Qed.

(** With distinct keys, [upsert] replaces the record of the key and leaves
    the others. *)
Lemma upsert_present {A} (key : A -> jsstring) x l :
  NoDup (map key l) -> In (key x) (map key l) ->
  upsert key x l = map (fun y => if str_eqb (key y) (key x) then x else y) l.
Proof.
  induction l as [|z l IH]; simpl; [tauto|].
  intros Hnd Hin. inversion Hnd as [|? ? Hz Hnd']; subst.
  destruct (str_eqb_spec (key z) (key x)) as [E|E].
  - f_equal. rewrite E in Hz.
    clear -Hz. induction l as [|w l IH]; simpl in *; [reflexivity|].
    destruct (str_eqb_spec (key w) (key x)) as [E'|E'].
    + exfalso. apply Hz. now left.
    + f_equal. apply IH. tauto.
  - f_equal. apply IH; [assumption|]. destruct Hin; [contradiction|assumption].
Qed.

(** ** The image store keeps its invariants *)

Lemma pageTaken_false img l :
  DB.pageTaken img l = false <->
  forall y, In y l -> inbound_id y = inbound_id img ->
            page_no y = page_no img -> img_id y = img_id img.
Proof.
  unfold DB.pageTaken. split.
  - intros H y Hy Hi Hp.
    destruct (str_eqb_spec (img_id y) (img_id img)) as [E|E]; [assumption|].
    exfalso.
    assert (existsb (fun i => negb (str_eqb (img_id i) (img_id img))
                      && str_eqb (inbound_id i) (inbound_id img)
                      && (page_no i =? page_no img)) l = true) as C.
    { apply existsb_exists. exists y. split; [assumption|].
      apply str_eqb_neq in E. rewrite E, Hi, Hp, str_eqb_refl, Z.eqb_refl.
      reflexivity. }
    congruence.
  - intros H. destruct (existsb _ l) eqn:E; [|reflexivity].
    apply existsb_exists in E as [y [Hy Hc]].
    apply andb_true_iff in Hc as [Hc Hp].
    apply andb_true_iff in Hc as [Hid Hi].
    apply negb_true_iff, str_eqb_neq in Hid.
    apply str_eqb_eq in Hi. apply Z.eqb_eq in Hp.
    exfalso. apply Hid. now apply H.
Qed.

Lemma putImage_docs img st :
  inbound_docs (exec (DB.putImage img) st) = inbound_docs st.
Proof.
  unfold exec, DB.putImage. now destruct (DB.pageTaken _ _).
Qed.

Lemma putImage_inv docIds img st :
  ImagesInv docIds (inbound_images st) ->
  In (inbound_id img) docIds ->
  ImagesInv docIds (inbound_images (exec (DB.putImage img) st)).
Proof.
  intros [Hk Hp Ho] Hown. unfold exec, DB.putImage.
  destruct (DB.pageTaken img (inbound_images st)) eqn:E; simpl.
  { now split. }
  rewrite pageTaken_false in E. split.
  - now apply upsert_keys_NoDup.
  - intros i j Hi Hj Hin Hpg.
    apply upsert_In in Hi, Hj.
    destruct Hi as [->|Hi], Hj as [->|Hj]; auto.
    symmetry. apply E; auto.
  - intros i Hi. apply upsert_In in Hi as [->|Hi]; auto.
Qed.

Lemma addImage_docs img st :
  inbound_docs (exec (DB.addImage img) st) = inbound_docs st.
Proof.
  unfold exec, DB.addImage. now destruct (_ || _).
Qed.

Lemma addImage_inv docIds img st :
  ImagesInv docIds (inbound_images st) ->
  In (inbound_id img) docIds ->
  ImagesInv docIds (inbound_images (exec (DB.addImage img) st)).
Proof.
  intros [Hk Hp Ho] Hown. unfold exec, DB.addImage.
  destruct (hasKey img_id (img_id img) (inbound_images st)) eqn:E1; simpl.
  { now split. }
  destruct (DB.pageTaken img (inbound_images st)) eqn:E2; simpl.
  { now split. }
  rewrite pageTaken_false in E2. apply hasKey_false_iff in E1. split.
  - rewrite map_app. apply NoDup_app; [assumption| |].
    + repeat constructor. simpl. tauto.
    + intros k Hk' [<-|[]]. contradiction.
  - intros i j Hi Hj Hin Hpg.
    apply in_app_or in Hi, Hj. simpl in Hi, Hj.
    destruct Hi as [Hi|[<-|[]]], Hj as [Hj|[<-|[]]]; auto.
    symmetry. apply E2; auto.
  - intros i Hi. apply in_app_or in Hi. simpl in Hi.
    destruct Hi as [Hi|[<-|[]]]; auto.
Qed.

Lemma deleteImage_inv docIds id st :
  ImagesInv docIds (inbound_images st) ->
  ImagesInv docIds (inbound_images (exec (DB.deleteImage id) st)).
Proof.
  intros [Hk Hp Ho]. unfold exec, DB.deleteImage. simpl. split.
  - clear -Hk. induction (inbound_images st) as [|x l IH]; simpl;
      [constructor|].
    inversion Hk as [|? ? Hx Hl]; subst.
    destruct (negb (str_eqb (img_id x) id)); simpl; auto.
    constructor; auto. intros C. apply Hx.
    apply in_map_iff in C as [y [Ey Hy]]. apply filter_In in Hy as [Hy _].
    apply in_map_iff. eauto.
  - intros i j Hi Hj. apply filter_In in Hi as [Hi _], Hj as [Hj _]. auto.
  - intros i Hi. apply filter_In in Hi as [Hi _]. auto.
Qed.

Lemma addLog_images l st :
  inbound_images (exec (DB.addLog l) st) = inbound_images st.
Proof. reflexivity. Qed.

Lemma addLog_docs l st :
  inbound_docs (exec (DB.addLog l) st) = inbound_docs st.
Proof. reflexivity. Qed.

Lemma exec_bind {A B} (m : DBM A) (k : A -> DBM B) st :
  exec (bind m k) st = exec (k (eval m st)) (exec m st).
Proof. reflexivity. Qed.

Lemma eval_bind {A B} (m : DBM A) (k : A -> DBM B) st :
  eval (bind m k) st = eval (k (eval m st)) (exec m st).
Proof. reflexivity. Qed.

Lemma forEach_putImage_docs l st :
  inbound_docs (exec (forEach l DB.putImage) st) = inbound_docs st.
Proof.
  revert st. induction l as [|x l IH]; intros st; [reflexivity|].
  simpl. rewrite exec_bind, IH. apply putImage_docs.
Qed.

Lemma forEach_putImage_inv docIds l st :
  ImagesInv docIds (inbound_images st) ->
  (forall i, In i l -> In (inbound_id i) docIds) ->
  ImagesInv docIds (inbound_images (exec (forEach l DB.putImage) st)).
Proof.
  revert st. induction l as [|x l IH]; intros st Hinv Hl; [assumption|].
  simpl. rewrite exec_bind. apply IH.
  - apply putImage_inv; [assumption|]. apply Hl. now left.
  - intros i Hi. apply Hl. now right.
Qed.

Lemma forEach_preserves {A} (P : Store -> Prop) (l : list A)
  (body : A -> DBM unit) :
  (forall x, In x l -> forall st, P st -> P (exec (body x) st)) ->
  forall st, P st -> P (exec (forEach l body) st).
Proof.
  induction l as [|x l IH]; intros Hb st HP; [assumption|].
  simpl. rewrite exec_bind. apply IH.
  - intros y Hy. apply Hb. now right.
  - apply Hb; [now left|assumption].
Qed.

Lemma ImagesInv_more_docs ids ids' l :
  incl ids ids' -> ImagesInv ids l -> ImagesInv ids' l.
Proof.
  intros Hincl [Hk Hp Ho]. split; auto.
Qed.

Lemma putImage_ok docs img st :
  In (inbound_id img) (map doc_id docs) ->
  imagesOk docs st -> imagesOk docs (exec (DB.putImage img) st).
Proof.
  intros Ho [Hd Hi]. split.
  - now rewrite putImage_docs.
  - now apply putImage_inv.
Qed.

Lemma addImage_ok docs img st :
  In (inbound_id img) (map doc_id docs) ->
  imagesOk docs st -> imagesOk docs (exec (DB.addImage img) st).
Proof.
  intros Ho [Hd Hi]. split.
  - now rewrite addImage_docs.
  - now apply addImage_inv.
Qed.

Lemma deleteImage_ok docs id st :
  imagesOk docs st -> imagesOk docs (exec (DB.deleteImage id) st).
Proof.
  intros [Hd Hi]. split; [assumption|]. now apply deleteImage_inv.
Qed.

Lemma addLog_ok docs l st :
  imagesOk docs st -> imagesOk docs (exec (DB.addLog l) st).
Proof. intros [Hd Hi]. now split. Qed.

Lemma listImages_exec inbound st : exec (DB.listImages inbound) st = st.
Proof. reflexivity. Qed.

Lemma listImages_In inbound st i :
  In i (eval (DB.listImages inbound) st) <->
  In i (inbound_images st) /\ inbound_id i = inbound.
Proof.
  unfold eval, DB.listImages. simpl.
  rewrite sort_In, filter_In, str_eqb_eq. tauto.
Qed.

Lemma savePages_ok docs inboundId user now page captures st :
  In inboundId (map doc_id docs) ->
  imagesOk docs st ->
  imagesOk docs (exec (Camera.savePages inboundId user now page captures) st).
Proof.
  intros Ho. revert page st.
  induction captures as [|[id cap] rest IH]; intros page st H; [assumption|].
  simpl. rewrite !exec_bind. apply IH. apply addLog_ok.
  now apply addImage_ok.
Qed.

Lemma saveAll_ok docs inboundId user now captures st :
  In inboundId (map doc_id docs) ->
  imagesOk docs st ->
  imagesOk docs (exec (Camera.saveAll inboundId user now captures) st).
Proof.
  intros Ho H. unfold Camera.saveAll. rewrite exec_bind.
  now apply savePages_ok.
Qed.

Lemma renumber_In p l i :
  In i (renumber p l) ->
  exists j q, In j l /\ i = setPageNo j q.
Proof.
  revert p. induction l as [|x l IH]; intros p; simpl; [tauto|].
  intros [<-|H].
  - exists x, p. auto.
  - destruct (IH _ H) as [j [q [Hj E]]]. exists j, q. auto.
Qed.

Lemma removeAt_In {A} n (l : list A) x : In x (removeAt n l) -> In x l.
Proof.
  revert n. induction l as [|y l IH]; intros [|n]; simpl; auto.
  intros [<-|H]; eauto.
Qed.

Lemma setAt_In {A} n (x : A) l y : In y (setAt n x l) -> y = x \/ In y l.
Proof.
  revert n. induction l as [|z l IH]; intros [|n]; simpl; auto.
  - intros [<-|H]; auto.
  - intros [<-|H]; auto. destruct (IH _ H); auto.
Qed.

Lemma btnDelete_ok docs docId user p st :
  In docId (map doc_id docs) ->
  (forall i, In i (imgs p) -> inbound_id i = docId) ->
  imagesOk docs st ->
  imagesOk docs (exec (UI.btnDelete docId user p) st)
  /\ forall i, In i (imgs (eval (UI.btnDelete docId user p) st)) ->
               inbound_id i = docId.
Proof.
  intros Hd Hp H. unfold UI.btnDelete.
  destruct (sel p <? 0); [now split|].
  destruct (nth_error (imgs p) (Z.to_nat (sel p))) as [im|]; [|now split].
  assert (Hre : forall i,
             In i (renumber 1 (removeAt (Z.to_nat (sel p)) (imgs p))) ->
             inbound_id i = docId).
  { intros i Hi. apply renumber_In in Hi as [j [q [Hj ->]]].
    apply removeAt_In in Hj. simpl. now apply Hp. }
  split.
  - rewrite !exec_bind.
    apply (forEach_preserves (imagesOk docs)).
    + intros x Hx st' H'. apply putImage_ok; [|assumption].
      now rewrite (Hre x Hx).
    + now apply addLog_ok, deleteImage_ok.
  - rewrite !eval_bind. simpl. intros i Hi. apply sort_In in Hi. auto.
Qed.

Lemma reorder_ok docs docId user p st a b n m s :
  In docId (map doc_id docs) ->
  (forall i, In i (imgs p) -> inbound_id i = docId) ->
  In a (imgs p) -> In b (imgs p) ->
  imagesOk docs st ->
  let a' := setPageNo a (page_no b) in
  let b' := setPageNo b (page_no a) in
  let k := (DB.putImage a';; DB.putImage b';;
            DB.addLog {| action := reorder_images; log_inbound_id := docId;
                         log_image_id := None; log_user := user |};;
            ret (UI.render {| imgs := setAt n b' (setAt m a' (imgs p));
                              sel := s |})) in
  imagesOk docs (exec k st)
  /\ forall i, In i (imgs (eval k st)) -> inbound_id i = docId.
Proof.
  intros Hd Hp Ha Hb H a' b' k. split.
  - unfold k. rewrite !exec_bind. apply addLog_ok.
    apply putImage_ok; [simpl; now rewrite (Hp b Hb)|].
    apply putImage_ok; [simpl; now rewrite (Hp a Ha)|assumption].
  - unfold k. rewrite !eval_bind. simpl. intros i Hi.
    apply sort_In in Hi. apply setAt_In in Hi as [->|Hi];
      [simpl; auto|].
    apply setAt_In in Hi as [->|Hi]; [simpl; auto|auto].
Qed.

Lemma btnReorderUp_ok docs docId user p st :
  In docId (map doc_id docs) ->
  (forall i, In i (imgs p) -> inbound_id i = docId) ->
  imagesOk docs st ->
  imagesOk docs (exec (UI.btnReorderUp docId user p) st)
  /\ forall i, In i (imgs (eval (UI.btnReorderUp docId user p) st)) ->
               inbound_id i = docId.
Proof.
  intros Hd Hp H. unfold UI.btnReorderUp.
  destruct (sel p <=? 0); [now split|].
  destruct (nth_error (imgs p) (Z.to_nat (sel p) - 1)) as [a|] eqn:Ea;
    [|now split].
  destruct (nth_error (imgs p) (Z.to_nat (sel p))) as [b|] eqn:Eb;
    [|now split].
  apply nth_error_In in Ea, Eb. now apply reorder_ok.
Qed.

Lemma btnReorderDown_ok docs docId user p st :
  In docId (map doc_id docs) ->
  (forall i, In i (imgs p) -> inbound_id i = docId) ->
  imagesOk docs st ->
  imagesOk docs (exec (UI.btnReorderDown docId user p) st)
  /\ forall i, In i (imgs (eval (UI.btnReorderDown docId user p) st)) ->
               inbound_id i = docId.
Proof.
  intros Hd Hp H. unfold UI.btnReorderDown.
  destruct (_ || _); [now split|].
  destruct (nth_error (imgs p) (Z.to_nat (sel p) + 1)) as [a|] eqn:Ea;
    [|now split].
  destruct (nth_error (imgs p) (Z.to_nat (sel p))) as [b|] eqn:Eb;
    [|now split].
  apply nth_error_In in Ea, Eb. now apply reorder_ok.
Qed.

Lemma markSynced_ok docs ds st :
  imagesOk docs st -> imagesOk docs (exec (UI.markSynced ds) st).
Proof.
  unfold UI.markSynced. apply forEach_preserves.
  intros d _ st' H'. rewrite exec_bind, listImages_exec.
  apply forEach_preserves; [|assumption].
  intros im Him st'' H''. unfold UI.syncImage.
  destruct (negb (synced im)); [|assumption].
  apply putImage_ok; [|assumption]. simpl.
  apply listImages_In in Him as [Him _].
  destruct H' as [Hd' Hi']. now apply (ii_owner _ _ Hi').
Qed.

Lemma countPending_exec ds st : exec (UI.countPending ds) st = st.
Proof.
  induction ds as [|d ds IH]; [reflexivity|].
  simpl. rewrite !exec_bind, listImages_exec, IH. reflexivity.
Qed.

Lemma bumpSyncBadge_ok localeCompare docs auto online st :
  imagesOk docs st ->
  imagesOk docs (exec (UI.bumpSyncBadge localeCompare auto online) st).
Proof.
  intros H. unfold UI.bumpSyncBadge.
  rewrite !exec_bind. cbn [exec DB.listInboundByStatus snd fst eval].
  rewrite countPending_exec.
  destruct (_ && _); [|assumption].
  rewrite exec_bind. now apply markSynced_ok.
Qed.

(** ** Every reachable state satisfies the invariants *)

Lemma handleSubmit_images toUpperCase lsnr supp date force uuid now user st :
  inbound_images (exec (UI.handleSubmit toUpperCase lsnr supp date force
                          uuid now user) st)
  = inbound_images st.
Proof.
  unfold UI.handleSubmit.
  destruct (_ || _); [reflexivity|].
  rewrite exec_bind. destruct (_ && _); [reflexivity|].
  rewrite !exec_bind. unfold UI.checkDuplicate, DB.addInboundDoc, exec.
  cbn. now destruct (hasKey _ _ _).
Qed.

(** What [handleSubmit] does to the documents when the key is fresh:
    nothing, or one document more. *)
Lemma handleSubmit_docs toUpperCase lsnr supp date force uuid now user st :
  ~ In uuid (map doc_id (inbound_docs st)) ->
  let st' := exec (UI.handleSubmit toUpperCase lsnr supp date force
                     uuid now user) st in
  inbound_docs st' = inbound_docs st
  \/ exists doc,
       inbound_docs st' = inbound_docs st ++ [doc]
       /\ doc_id doc = uuid
       /\ ls_nr doc = U.trim (U.sanitize lsnr)
       /\ ls_nr_normalized doc = U.normLs toUpperCase (ls_nr doc).
Proof.
  intros Hfresh. apply hasKey_false_iff in Hfresh.
  unfold UI.handleSubmit.
  destruct (_ || _); [now left|].
  rewrite exec_bind. destruct (_ && _); [now left|].
  right. rewrite !exec_bind. unfold UI.checkDuplicate, DB.addInboundDoc, exec.
  cbn. rewrite Hfresh. cbn. eexists. repeat split.
Qed.

(** The status change of [listClickHandler] never reaches the store: the
    listener ends at its [put]. *)
Lemma confirmDrawing_exec id yes now user st :
  exec (UI.confirmDrawing id yes now user) st = st.
Proof.
  unfold UI.confirmDrawing. rewrite !exec_bind.
  change (exec (DB.getInboundById id) st) with st.
  rewrite listImages_exec.
  destruct (eval (DB.listImages id) st); [reflexivity|].
  destruct yes; reflexivity.
Qed.

Lemma confirmDrawing_eval id yes now user st :
  eval (UI.confirmDrawing id yes now user) st
  = match eval (DB.listImages id) st with
    | [] => Returns false
    | _ :: _ => if yes then Throws DataCloneError else Returns false
    end.
Proof.
  unfold UI.confirmDrawing. rewrite !eval_bind.
  change (exec (DB.getInboundById id) st) with st.
  rewrite listImages_exec.
  destruct (eval (DB.listImages id) st); [reflexivity|].
  destruct yes; reflexivity.
Qed.

(** The page manager never opens from a tile: the listener ends at
    [DB.listImages(doc.id)]. *)
Lemma clickManage_exec id st : exec (UI.clickManage id) st = st.
Proof. reflexivity. Qed.

Lemma clickManage_eval id st :
  eval (UI.clickManage id) st = Throws DataError.
Proof. reflexivity. Qed.

Lemma handle_inv toUpperCase localeCompare e a :
  enabled e a ->
  StoreInv toUpperCase (db a) /\ PanelInv a ->
  StoreInv toUpperCase (db (handle toUpperCase localeCompare e a))
  /\ PanelInv (handle toUpperCase localeCompare e a).
Proof.
  destruct a as [st pn]. unfold PanelInv. simpl.
  intros Hen [[Hdk Him Hnorm] Hpan].
  assert (Hok : imagesOk (inbound_docs st) st) by now split.
  assert (Himg : forall st', imagesOk (inbound_docs st) st' ->
            StoreInv toUpperCase st').
  { intros st' [Hd' Hi']. split; rewrite Hd'; assumption. }
  destruct e as [lsnr supp date force uuid now user
                | id yes now user
                | inboundId user now captures
                | docId | i | user | user | user | auto online];
    unfold onPanel; simpl in Hen |- *.
  - (* submit *)
    pose proof (handleSubmit_images toUpperCase lsnr supp date force
                  uuid now user st) as Hi.
    destruct (handleSubmit_docs toUpperCase lsnr supp date force
                uuid now user st Hen) as [Hd|[doc [Hd [Hid [Hls Hn]]]]].
    + split.
      * split; rewrite ?Hd, ?Hi; assumption.
      * destruct pn as [[docId p]|]; [|exact I]. now rewrite Hd.
    + split.
      * split; rewrite ?Hd, ?Hi.
        -- rewrite map_app. simpl. apply NoDup_app; [assumption| |].
           ++ repeat constructor. simpl. tauto.
           ++ intros k Hk [<-|[]]. congruence.
        -- eapply ImagesInv_more_docs; [|exact Him].
           rewrite map_app. now apply incl_appl, incl_refl.
        -- intros d Hin. apply in_app_or in Hin as [Hin|[<-|[]]]; auto.
           rewrite Hn, Hls. apply normLs_stored.
      * destruct pn as [[docId p]|]; [|exact I].
        rewrite Hd, map_app. destruct Hpan as [H1 H2].
        split; [apply in_or_app; now left|assumption].
  - (* confirmDrawing *)
    rewrite confirmDrawing_exec. split; [now split|exact Hpan].
  - (* saveAll *)
    destruct Hen as [Hd _].
    pose proof (saveAll_ok _ inboundId user now captures _ Hd Hok) as H.
    split; [now apply Himg|].
    destruct pn as [[docId p]|]; [|exact I].
    destruct H as [-> _]. assumption.
  - (* the manage button *)
    split; [now split|exact Hpan].
  - (* selectThumb *)
    split; [now split|].
    destruct pn as [[docId p]|]; [|exact I].
    destruct Hpan as [H1 H2]. split; [assumption|].
    intros j Hj. simpl in Hj. apply sort_In in Hj. auto.
  - (* delete *)
    destruct pn as [[docId p]|]; simpl; [|split; [now split|exact I]].
    destruct Hpan as [H1 H2].
    destruct (btnDelete_ok _ docId user p _ H1 H2 Hok) as [H3 H4].
    split; [now apply Himg|]. destruct H3 as [-> _]. now split.
  - (* reorder up *)
    destruct pn as [[docId p]|]; simpl; [|split; [now split|exact I]].
    destruct Hpan as [H1 H2].
    destruct (btnReorderUp_ok _ docId user p _ H1 H2 Hok) as [H3 H4].
    split; [now apply Himg|]. destruct H3 as [-> _]. now split.
  - (* reorder down *)
    destruct pn as [[docId p]|]; simpl; [|split; [now split|exact I]].
    destruct Hpan as [H1 H2].
    destruct (btnReorderDown_ok _ docId user p _ H1 H2 Hok) as [H3 H4].
    split; [now apply Himg|]. destruct H3 as [-> _]. now split.
  - (* sync *)
    pose proof (bumpSyncBadge_ok localeCompare _ auto online _ Hok) as H.
    split; [now apply Himg|].
    destruct pn as [[docId p]|]; [|exact I].
    destruct H as [-> _]. assumption.
Qed.

Lemma reachable_inv toUpperCase localeCompare a :
  reachable toUpperCase localeCompare a ->
  StoreInv toUpperCase (db a) /\ PanelInv a.
Proof.
  induction 1 as [|a e _ IH Hen].
  - split; [|exact I]. split; simpl.
    + constructor.
    + split; simpl; [constructor|tauto|tauto].
    + tauto.
  - now apply handle_inv.
Qed.

(** C4. In every state the application reaches, the normalised number of
    every stored document is the function of the specification (upper
    case, without [-], [_], [.] and white space, nothing else removed)
    applied to the stored number.  Documents are created by
    [handleSubmit] from any string of the form field; no listener changes
    a stored document afterwards. *)
Theorem stored_number_normalized
  (toUpperCase : jsstring -> jsstring)
  (localeCompare : jsstring -> jsstring -> Z) (a : App) (d : InboundDoc) :
  reachable toUpperCase localeCompare a ->
  In d (inbound_docs (db a)) ->
  ls_nr_normalized d = spec_normalize toUpperCase (ls_nr d).
Proof.
  intros Hr Hd. apply reachable_inv in Hr as [Hinv _].
  now apply (inv_normalized _ _ Hinv).
Qed.

(** ** Attaching pages *)

Lemma maxOf_app x l y : maxOf x (l ++ [y]) = Z.max (maxOf x l) y.
Proof. unfold maxOf. now rewrite fold_left_app. Qed.

Lemma maxOf_ge x l : x <= maxOf x l /\ forall y, In y l -> y <= maxOf x l.
Proof.
  unfold maxOf. revert x. induction l as [|z l IH]; intros x; simpl.
  - split; [lia|tauto].
  - destruct (IH (Z.max x z)) as [H1 H2]. split; [lia|].
    intros y [<-|Hy]; [lia|auto].
Qed.

Lemma lastPage_ge l i : In i l -> page_no i <= Camera.lastPage l.
Proof.
  unfold Camera.lastPage. destruct l as [|x l]; simpl; [tauto|].
  destruct (maxOf_ge (page_no x) (map page_no l)) as [H1 H2].
  intros [<-|Hi]; [assumption|]. apply H2. now apply in_map.
Qed.

Lemma lastPage_snoc l x :
  Camera.lastPage l + 1 = page_no x ->
  Camera.lastPage (l ++ [x]) = page_no x.
Proof.
  unfold Camera.lastPage. rewrite map_app. simpl.
  destruct (map page_no l) as [|p ps]; simpl; [reflexivity|].
  rewrite maxOf_app. lia.
Qed.

Lemma insertSorted_last x r y :
  page_no x <= page_no y ->
  insertSorted byPageNo x (r ++ [y]) = insertSorted byPageNo x r ++ [y].
Proof.
  intros H. induction r as [|z r IH]; simpl.
  - unfold byPageNo. replace (page_no x - page_no y <=? 0) with true;
      [reflexivity|]. symmetry. apply Z.leb_le. lia.
  - destruct (byPageNo x z <=? 0); [reflexivity|]. now rewrite IH.
Qed.

Lemma sort_last l y :
  (forall x, In x l -> page_no x <= page_no y) ->
  sort byPageNo (l ++ [y]) = sort byPageNo l ++ [y].
Proof.
  induction l as [|x l IH]; intros H; simpl; [reflexivity|].
  rewrite IH by (intros z Hz; apply H; now right).
  apply insertSorted_last. apply H. now left.
Qed.

(** Adding a page above the last page of its document, under a fresh key. *)
Lemma addImage_next img st :
  ~ In (img_id img) (map img_id (inbound_images st)) ->
  page_no img
  = Camera.lastPage (eval (DB.listImages (inbound_id img)) st) + 1 ->
  exec (DB.addImage img) st
  = with_images st (inbound_images st ++ [img])
  /\ eval (DB.listImages (inbound_id img)) (exec (DB.addImage img) st)
     = eval (DB.listImages (inbound_id img)) st ++ [img].
Proof.
  intros Hfresh Hpage.
  assert (Hle : forall y, In y (inbound_images st) ->
             inbound_id y = inbound_id img -> page_no y < page_no img).
  { intros y Hy Hi. rewrite Hpage.
    assert (In y (eval (DB.listImages (inbound_id img)) st))
      by now apply listImages_In.
    apply lastPage_ge in H. lia. }
  assert (E : exec (DB.addImage img) st
              = with_images st (inbound_images st ++ [img])).
  { unfold exec, DB.addImage.
    apply hasKey_false_iff in Hfresh. rewrite Hfresh. simpl.
    replace (DB.pageTaken img (inbound_images st)) with false; [reflexivity|].
    symmetry. apply pageTaken_false. intros y Hy Hi Hp.
    specialize (Hle y Hy Hi). lia. }
  split; [assumption|]. rewrite E.
  unfold eval, DB.listImages. simpl.
  rewrite filter_app. simpl. rewrite str_eqb_refl.
  apply sort_last. intros x Hx. apply filter_In in Hx as [Hx Hi].
  apply str_eqb_eq in Hi. specialize (Hle x Hx Hi). lia.
Qed.

Lemma savePages_spec inboundId user now c rest st :
  ~ In (fst c) (map img_id (inbound_images st)) ->
  let st1 := exec (spec_attachPage inboundId user now c) st in
  exec (Camera.savePages inboundId user now
          (Camera.lastPage (eval (DB.listImages inboundId) st)) (c :: rest))
       st
  = exec (Camera.savePages inboundId user now
            (Camera.lastPage (eval (DB.listImages inboundId) st1)) rest) st1
  /\ pagesOf inboundId st1
     = pagesOf inboundId st
       ++ [Camera.lastPage (eval (DB.listImages inboundId) st) + 1]
  /\ inbound_images st1
     = inbound_images st
       ++ [{| img_id := fst c; inbound_id := inboundId;
              page_no := Camera.lastPage
                           (eval (DB.listImages inboundId) st) + 1;
              width_px := cap_w (snd c); height_px := cap_h (snd c);
              size_bytes := cap_size (snd c);
              sha256 := cap_sha256 (snd c);
              img_created_at := now; img_created_by := user;
              synced := false |}].
Proof.
  intros Hfresh st1. destruct c as [id cap]. simpl in Hfresh.
  set (img := {| img_id := id; inbound_id := inboundId;
                 page_no := Camera.lastPage
                              (eval (DB.listImages inboundId) st) + 1;
                 width_px := cap_w cap; height_px := cap_h cap;
                 size_bytes := cap_size cap; sha256 := cap_sha256 cap;
                 img_created_at := now; img_created_by := user;
                 synced := false |}).
  destruct (addImage_next img st Hfresh eq_refl) as [E1 E2].
  assert (Est1 : st1 = exec (DB.addLog
                   {| action := add_image; log_inbound_id := inboundId;
                      log_image_id := Some id; log_user := user |})
                   (exec (DB.addImage img) st)) by reflexivity.
  assert (El : eval (DB.listImages inboundId) st1
               = eval (DB.listImages inboundId) st ++ [img]).
  { rewrite Est1. exact E2. }
  split; [|split].
  - rewrite El, (lastPage_snoc _ img eq_refl). reflexivity.
  - unfold pagesOf. rewrite El, map_app. reflexivity.
  - rewrite Est1, addLog_images, E1. reflexivity.
Qed.

Lemma saveAll_cons inboundId user now c rest st :
  ~ In (fst c) (map img_id (inbound_images st)) ->
  exec (Camera.saveAll inboundId user now (c :: rest)) st
  = exec (Camera.saveAll inboundId user now rest)
      (exec (spec_attachPage inboundId user now c) st).
Proof.
  intros H. unfold Camera.saveAll. rewrite !exec_bind, !listImages_exec.
  now apply savePages_spec.
Qed.

(** What [saveAll] does, capture by capture. *)
Lemma saveAll_attaches (inboundId user now : jsstring)
  (captures : list (jsstring * Capture)) (st : Store) :
  NoDup (map fst captures) ->
  (forall id, In id (map fst captures) ->
              ~ In id (map img_id (inbound_images st))) ->
  exec (Camera.saveAll inboundId user now captures) st
  = exec (forEach captures (spec_attachPage inboundId user now)) st
  /\ pagesOf inboundId (exec (Camera.saveAll inboundId user now captures) st)
     = pagesOf inboundId st
       ++ map (fun k => Camera.lastPage (eval (DB.listImages inboundId) st)
                        + Z.of_nat k)
            (seq 1 (List.length captures)).
Proof.
  revert st. induction captures as [|c rest IH]; intros st Hnd Hfresh.
  - split; [reflexivity|]. simpl. now rewrite app_nil_r.
  - assert (Hc : ~ In (fst c) (map img_id (inbound_images st))).
    { apply Hfresh. now left. }
    destruct (savePages_spec inboundId user now c rest st Hc)
      as [_ [Hpages Himgs]].
    set (st1 := exec (spec_attachPage inboundId user now c) st) in *.
    inversion Hnd as [|? ? Hnotin Hnd']; subst.
    assert (Hfresh1 : forall id, In id (map fst rest) ->
               ~ In id (map img_id (inbound_images st1))).
    { intros id Hid. rewrite Himgs, map_app. simpl. intros C.
      apply in_app_or in C as [C|[C|[]]].
      - apply (Hfresh id); [now right|assumption].
      - subst. contradiction. }
    destruct (IH st1 Hnd' Hfresh1) as [IH1 IH2].
    rewrite saveAll_cons by assumption. fold st1. split.
    + rewrite IH1. reflexivity.
    + rewrite IH2, Hpages, <- app_assoc. f_equal. simpl. f_equal.
      assert (El : Camera.lastPage (eval (DB.listImages inboundId) st1)
                   = Camera.lastPage (eval (DB.listImages inboundId) st) + 1).
      { unfold pagesOf in Hpages. unfold Camera.lastPage at 1.
        rewrite Hpages. unfold Camera.lastPage.
        destruct (map page_no (eval (DB.listImages inboundId) st))
          as [|p ps]; simpl; [reflexivity|].
        rewrite maxOf_app. pose proof (maxOf_ge p ps). lia. }
      rewrite El, <- (seq_shift _ 1), map_map.
      apply map_ext. intros k. lia.
Qed.

(** C2. [saveAll] attaches its captures one after the other, each with the
    page number one plus the largest page number its document has in the
    store at that moment (0 when it has none): the run is the run of the
    attachments worded that way, and the page numbers of the document
    afterwards are the old ones followed by [m + 1, ..., m + n], where [m]
    is the last page before.  Keys come from [U.uuid()]: they are fresh. *)
Theorem saveAll_page_numbers (inboundId user now : jsstring)
  (captures : list (jsstring * Capture)) (st : Store) :
  NoDup (map fst captures) ->
  (forall id, In id (map fst captures) ->
              ~ In id (map img_id (inbound_images st))) ->
  exec (Camera.saveAll inboundId user now captures) st
  = exec (forEach captures (spec_attachPage inboundId user now)) st
  /\ pagesOf inboundId (exec (Camera.saveAll inboundId user now captures) st)
     = pagesOf inboundId st
       ++ map (fun k => Camera.lastPage (eval (DB.listImages inboundId) st)
                        + Z.of_nat k)
            (seq 1 (List.length captures)).
Proof. apply saveAll_attaches. Qed.

Lemma saveAll_page_numbers_witness :
  pagesOf (str "d1")
    (exec (Camera.saveAll (str "d1") (str "u") (str "t")
             [(str "a", {| cap_w := 2000; cap_h := 1500; cap_size := 7;
                           cap_sha256 := str "h1" |});
              (str "b", {| cap_w := 2000; cap_h := 1500; cap_size := 8;
                           cap_sha256 := str "h2" |});
              (str "c", {| cap_w := 1500; cap_h := 2000; cap_size := 9;
                           cap_sha256 := str "h3" |})])
       emptyStore)
  = [] ++ [0 + 1; 0 + 2; 0 + 3].
Proof.
  apply (saveAll_page_numbers (str "d1") (str "u") (str "t")
           [(str "a", {| cap_w := 2000; cap_h := 1500; cap_size := 7;
                         cap_sha256 := str "h1" |});
            (str "b", {| cap_w := 2000; cap_h := 1500; cap_size := 8;
                         cap_sha256 := str "h2" |});
            (str "c", {| cap_w := 1500; cap_h := 2000; cap_size := 9;
                         cap_sha256 := str "h3" |})] emptyStore).
  - repeat constructor; simpl; intuition discriminate.
  - intros id _ [].
Defined.

(** ** The sync badge *)

Lemma sumOver_perm {A} (f : A -> Z) l l' :
  Permutation l l' -> sumOver f l = sumOver f l'.
Proof. induction 1; simpl; lia. Qed.

Lemma sumOver_app {A} (f : A -> Z) l l' :
  sumOver f (l ++ l') = sumOver f l + sumOver f l'.
Proof. induction l; simpl; lia. Qed.

Lemma sumOver_ext {A} (f g : A -> Z) l :
  (forall x, In x l -> f x = g x) -> sumOver f l = sumOver g l.
Proof.
  induction l as [|x l IH]; intros H; simpl; [reflexivity|].
  rewrite H by now left. rewrite IH; [reflexivity|].
  intros y Hy. apply H. now right.
Qed.

Lemma sumOver_plus {A} (f g : A -> Z) l :
  sumOver (fun x => f x + g x) l = sumOver f l + sumOver g l.
Proof. induction l; simpl; lia. Qed.

Lemma sumOver_zero {A} (l : list A) : sumOver (fun _ => 0) l = 0.
Proof. induction l; simpl; lia. Qed.

(** One key among distinct keys is counted once. *)
Lemma sumOver_key {A} (key : A -> jsstring) k l :
  NoDup (map key l) -> In k (map key l) ->
  sumOver (fun x => if str_eqb k (key x) then 1 else 0) l = 1.
Proof.
  induction l as [|x l IH]; simpl; [tauto|].
  intros Hnd Hin. inversion Hnd as [|? ? Hx Hl]; subst.
  destruct (str_eqb_spec k (key x)) as [->|E].
  - rewrite (sumOver_ext _ (fun _ => 0)); [rewrite sumOver_zero; lia|].
    intros y Hy. destruct (str_eqb_spec (key x) (key y)) as [E|E];
      [|reflexivity].
    exfalso. apply Hx. rewrite E. now apply in_map.
  - rewrite IH; [lia|assumption|]. destruct Hin; [congruence|assumption].
Qed.

Lemma filter_partition_perm {A} (p : A -> bool) l :
  Permutation (filter p l ++ filter (fun x => negb (p x)) l) l.
Proof.
  induction l as [|x l IH]; simpl; [constructor|].
  destruct (p x); simpl.
  - now constructor.
  - symmetry. apply Permutation_cons_app. now symmetry.
Qed.

Lemma status_split (localeCompare : jsstring -> jsstring -> Z) st :
  Permutation
    (eval (DB.listInboundByStatus localeCompare ohne_zeichnung) st
     ++ eval (DB.listInboundByStatus localeCompare mit_zeichnung) st)
    (inbound_docs st).
Proof.
  unfold eval, DB.listInboundByStatus. cbn [fst].
  rewrite !sort_perm, !inKeyOrder_perm.
  rewrite (filter_ext (fun d => status_eqb (status d) mit_zeichnung)
             (fun d => negb (status_eqb (status d) ohne_zeichnung))).
  - apply filter_partition_perm.
  - intros d. now destruct (status d).
Qed.

Lemma countPending_eval ds st :
  eval (UI.countPending ds) st
  = sumOver (fun d => Z.of_nat (List.length
               (filter (fun i => str_eqb (inbound_id i) (doc_id d)
                                 && negb (synced i))
                  (inbound_images st)))) ds.
Proof.
  induction ds as [|d ds IH]; [reflexivity|].
  cbn [UI.countPending sumOver fold_right].
  rewrite eval_bind, listImages_exec, eval_bind, countPending_exec, IH.
  unfold ret, eval at 1. cbn [fst]. f_equal. f_equal.
  unfold eval, DB.listImages. cbn [fst].
  rewrite (filter_length_perm _ _ _ (sort_perm _ _)).
  f_equal. clear. induction (inbound_images st) as [|i l IH];
    simpl; [reflexivity|].
  destruct (str_eqb (inbound_id i) (doc_id d)); simpl; now rewrite IH.
Qed.

(** Distinct document keys and an owner for every page: the pages counted
    document by document are the pages of the store. *)
Lemma pending_by_document docs l :
  NoDup (map doc_id docs) ->
  (forall i, In i l -> In (inbound_id i) (map doc_id docs)) ->
  sumOver (fun d => Z.of_nat (List.length
             (filter (fun i => str_eqb (inbound_id i) (doc_id d)
                               && negb (synced i)) l))) docs
  = Z.of_nat (List.length (filter (fun i => negb (synced i)) l)).
Proof.
  intros Hnd. induction l as [|i l IH]; intros Hown.
  - simpl. apply sumOver_zero.
  - rewrite (sumOver_ext _
      (fun d => (if str_eqb (inbound_id i) (doc_id d)
                 then (if synced i then 0 else 1) else 0)
                + Z.of_nat (List.length
                    (filter (fun i => str_eqb (inbound_id i) (doc_id d)
                                      && negb (synced i)) l)))).
    + rewrite sumOver_plus, IH by (intros j Hj; apply Hown; now right).
      simpl. destruct (synced i); simpl.
      * rewrite (sumOver_ext _ (fun _ => 0)); [rewrite sumOver_zero; lia|].
        intros d _. now destruct (str_eqb _ _).
      * rewrite (sumOver_key doc_id); [lia|assumption|].
        apply Hown. now left.
    + intros d _. simpl.
      destruct (str_eqb (inbound_id i) (doc_id d)), (synced i);
        cbn [andb negb List.length]; lia.
Qed.

Lemma setSynced_idem i : setSynced (setSynced i) = setSynced i.
Proof. reflexivity. Qed.

Lemma setSynced_synced i : synced i = true -> setSynced i = i.
Proof. destruct i; simpl; now intros ->. Qed.

Lemma NoDup_key_eq {A} (key : A -> jsstring) l x y :
  NoDup (map key l) -> In x l -> In y l -> key x = key y -> x = y.
Proof.
  induction l as [|z l IH]; simpl; [tauto|].
  intros Hnd Hx Hy E. inversion Hnd as [|? ? Hz Hl]; subst.
  destruct Hx as [->|Hx], Hy as [->|Hy]; auto.
  - exfalso. apply Hz. rewrite E. now apply in_map.
  - exfalso. apply Hz. rewrite <- E. now apply in_map.
Qed.

Lemma with_images_same st : with_images st (inbound_images st) = st.
Proof. now destruct st. Qed.

(** A page of the store is marked where it stands. *)
Lemma syncImage_images docIds im st :
  ImagesInv docIds (inbound_images st) ->
  In im (inbound_images st) ->
  inbound_images (exec (UI.syncImage im) st)
  = map (fun i => if str_eqb (img_id i) (img_id im) then setSynced i else i)
      (inbound_images st).
Proof.
  intros [Hk Hp Ho] Hin. unfold UI.syncImage.
  destruct (synced im) eqn:Es; simpl.
  - symmetry. etransitivity; [|apply map_id].
    apply map_ext_in. intros i Hi.
    destruct (str_eqb_spec (img_id i) (img_id im)) as [E|E]; [|reflexivity].
    rewrite (NoDup_key_eq img_id _ i im Hk Hi Hin E).
    now apply setSynced_synced.
  - unfold exec, DB.putImage.
    replace (DB.pageTaken (setSynced im) (inbound_images st)) with false.
    + simpl. rewrite upsert_present; simpl.
      * apply map_ext_in. intros i Hi.
        destruct (str_eqb_spec (img_id i) (img_id im)) as [E|E];
          [|reflexivity].
        now rewrite (NoDup_key_eq img_id _ i im Hk Hi Hin E).
      * assumption.
      * now apply in_map.
    + symmetry. apply pageTaken_false. simpl. intros y Hy E1 E2.
      now apply Hp.
Qed.

Lemma forEach_syncImage docs l st :
  imagesOk docs st ->
  NoDup (map img_id l) ->
  (forall im, In im l -> In im (inbound_images st)) ->
  imagesOk docs (exec (forEach l UI.syncImage) st)
  /\ inbound_images (exec (forEach l UI.syncImage) st)
     = map (fun i => if hasKey img_id (img_id i) l then setSynced i else i)
         (inbound_images st).
Proof.
  revert st. induction l as [|im l IH]; intros st Hok Hnd Hl.
  - simpl. split; [assumption|]. now rewrite map_id.
  - cbn [forEach]. rewrite exec_bind.
    inversion Hnd as [|? ? Hnotin Hnd']; subst.
    assert (Him : In im (inbound_images st)) by (apply Hl; now left).
    assert (E1 := syncImage_images _ im st (proj2 Hok) Him).
    assert (Hok1 : imagesOk docs (exec (UI.syncImage im) st)).
    { unfold UI.syncImage. destruct (negb (synced im)); [|assumption].
      apply putImage_ok; [|assumption]. simpl.
      now apply (ii_owner _ _ (proj2 Hok)). }
    destruct (IH (exec (UI.syncImage im) st) Hok1 Hnd') as [IH1 IH2].
    + intros im' Him'. rewrite E1. apply in_map_iff.
      exists im'. split; [|apply Hl; now right].
      destruct (str_eqb_spec (img_id im') (img_id im)) as [E|E];
        [|reflexivity].
      exfalso. apply Hnotin. rewrite <- E. now apply in_map.
    + split; [assumption|].
      rewrite IH2, E1, map_map. apply map_ext_in. intros i Hi.
      unfold hasKey. cbn [existsb].
      rewrite (str_eqb_sym (img_id im) (img_id i)).
      destruct (str_eqb (img_id i) (img_id im)); cbn [orb];
        [|reflexivity].
      now destruct (existsb _ l).
Qed.

Lemma NoDup_map_filter {A B} (f : A -> B) (p : A -> bool) l :
  NoDup (map f l) -> NoDup (map f (filter p l)).
Proof.
  induction l as [|x l IH]; simpl; [constructor|].
  intros H. inversion H as [|? ? Hx Hl]; subst.
  destruct (p x); simpl; auto. constructor; auto.
  intros C. apply Hx. apply in_map_iff in C as [y [E Hy]].
  apply filter_In in Hy as [Hy _]. apply in_map_iff. eauto.
Qed.

Lemma listImages_keys inbound st :
  NoDup (map img_id (inbound_images st)) ->
  NoDup (map img_id (eval (DB.listImages inbound) st)).
Proof.
  intros H. unfold eval, DB.listImages. cbn [fst].
  eapply Permutation_NoDup.
  - apply Permutation_map. symmetry. apply sort_perm.
  - now apply NoDup_map_filter.
Qed.

Lemma markSynced_images docs ds st :
  imagesOk docs st ->
  imagesOk docs (exec (UI.markSynced ds) st)
  /\ inbound_images (exec (UI.markSynced ds) st)
     = map (fun i => if existsb (fun d => str_eqb (inbound_id i) (doc_id d)) ds
                     then setSynced i else i)
         (inbound_images st).
Proof.
  unfold UI.markSynced. revert st.
  induction ds as [|d ds IH]; intros st Hok.
  - simpl. split; [assumption|]. now rewrite map_id.
  - cbn [forEach]. rewrite exec_bind, exec_bind, listImages_exec.
    assert (Hnd := ii_keys _ _ (proj2 Hok)).
    destruct (forEach_syncImage docs (eval (DB.listImages (doc_id d)) st)
                st Hok (listImages_keys _ _ Hnd)) as [Hok1 E1].
    { intros im Him. now apply listImages_In in Him as [Him _]. }
    destruct (IH _ Hok1) as [Hok2 E2]. split; [assumption|].
    rewrite E2, E1, map_map. apply map_ext_in. intros i Hi.
    cbn [existsb].
    assert (Hk : hasKey img_id (img_id i) (eval (DB.listImages (doc_id d)) st)
                 = str_eqb (inbound_id i) (doc_id d)).
    { destruct (str_eqb_spec (inbound_id i) (doc_id d)) as [E|E].
      - apply hasKey_true_iff, in_map. now apply listImages_In.
      - apply hasKey_false_iff. intros C.
        apply in_map_iff in C as [j [Ej Hj]].
        apply listImages_In in Hj as [Hj Hjd].
        apply E. rewrite <- Hjd. f_equal.
        now apply (NoDup_key_eq img_id (inbound_images st)). }
    rewrite Hk. destruct (str_eqb (inbound_id i) (doc_id d)); cbn [orb].
    + now destruct (existsb _ ds).
    + reflexivity.
Qed.

Lemma unsynced_all_synced l :
  List.length (filter (fun i => negb (synced i)) (map setSynced l)) = 0%nat.
Proof. induction l as [|i l IH]; simpl; auto. Qed.

(** C9. In every reachable state the number on the sync badge is the number
    of stored pages with [synced = false]; the pass that runs when the
    application comes online ([auto] and [navigator.onLine]) sets [synced] on
    every page and changes nothing else: the documents are the same, the
    pages are the same records with [synced = true], and the count is 0
    afterwards. *)
Theorem sync_badge_counts_unsynced
  (toUpperCase : jsstring -> jsstring)
  (localeCompare : jsstring -> jsstring -> Z) (a : App)
  (auto online : bool) :
  reachable toUpperCase localeCompare a ->
  eval (UI.bumpSyncBadge localeCompare false online) (db a) = unsynced (db a)
  /\ eval (UI.bumpSyncBadge localeCompare auto online) (db a)
     = (if auto && online then 0 else unsynced (db a))
  /\ exec (UI.bumpSyncBadge localeCompare false online) (db a) = db a
  /\ let st' := exec (UI.bumpSyncBadge localeCompare true true) (db a) in
     inbound_docs st' = inbound_docs (db a)
     /\ inbound_images st' = map setSynced (inbound_images (db a))
     /\ unsynced st' = 0
     /\ eval (UI.bumpSyncBadge localeCompare false online) st' = 0.
Proof.
  intros Hr. apply reachable_inv in Hr as [[Hdk Him Hnorm] _].
  set (st := db a) in *.
  assert (Hok : imagesOk (inbound_docs st) st) by now split.
  set (all := eval (DB.listInboundByStatus localeCompare ohne_zeichnung) st
              ++ eval (DB.listInboundByStatus localeCompare mit_zeichnung) st).
  assert (Hall : Permutation all (inbound_docs st)) by apply status_split.
  assert (Hcount : forall st0,
            inbound_docs st0 = inbound_docs st ->
            ImagesInv (map doc_id (inbound_docs st)) (inbound_images st0) ->
            eval (UI.countPending
                    (eval (DB.listInboundByStatus localeCompare
                             ohne_zeichnung) st0
                     ++ eval (DB.listInboundByStatus localeCompare
                                mit_zeichnung) st0)) st0
            = unsynced st0).
  { intros st0 Hd0 Hi0. rewrite countPending_eval.
    rewrite (sumOver_perm _ _ (inbound_docs st0)) by apply status_split.
    rewrite Hd0. apply pending_by_document; [assumption|].
    apply (ii_owner _ _ Hi0). }
  assert (Hbadge : forall st0 au on,
            eval (UI.bumpSyncBadge localeCompare au on) st0
            = let pending := eval (UI.countPending
                    (eval (DB.listInboundByStatus localeCompare
                             ohne_zeichnung) st0
                     ++ eval (DB.listInboundByStatus localeCompare
                                mit_zeichnung) st0)) st0 in
              if au && on && negb (pending =? 0) then 0 else pending).
  { intros st0 au on. unfold UI.bumpSyncBadge.
    rewrite !eval_bind. cbn [exec DB.listInboundByStatus snd].
    rewrite countPending_exec.
    now destruct (_ && _). }
  assert (Hstore : forall au on,
            exec (UI.bumpSyncBadge localeCompare au on) st
            = if au && on && negb (unsynced st =? 0)
              then exec (UI.markSynced all) st else st).
  { intros au on. unfold UI.bumpSyncBadge.
    rewrite !exec_bind. cbn [exec DB.listInboundByStatus snd].
    rewrite countPending_exec.
    change (eval (UI.countPending _) st)
      with (eval (UI.countPending all) st).
    unfold all at 1. rewrite (Hcount st eq_refl Him).
    now destruct (_ && _). }
  destruct (markSynced_images _ all st Hok) as [[Hd1 Hi1] E1].
  assert (E2 : inbound_images (exec (UI.markSynced all) st)
               = map setSynced (inbound_images st)).
  { rewrite E1. apply map_ext_in. intros i Hi.
    replace (existsb _ all) with true; [reflexivity|]. symmetry.
    rewrite (existsb_perm _ _ _ Hall). apply existsb_exists.
    pose proof (ii_owner _ _ Him i Hi) as Ho.
    apply in_map_iff in Ho as [d [Ed Hd]]. exists d.
    split; [assumption|]. rewrite Ed. apply str_eqb_refl. }
  split; [|split; [|split]].
  - rewrite Hbadge. cbn zeta. cbn [andb]. now apply Hcount.
  - rewrite Hbadge. cbn zeta. rewrite (Hcount st eq_refl Him).
    destruct (auto && online); cbn [andb]; [|reflexivity].
    destruct (unsynced st =? 0) eqn:E; cbn [negb]; [|reflexivity].
    apply Z.eqb_eq in E. now rewrite E.
  - rewrite Hstore. reflexivity.
  - cbn zeta. rewrite Hstore. cbn [andb].
    destruct (unsynced st =? 0) eqn:E; cbn [negb].
    + apply Z.eqb_eq in E.
      assert (Eall : map setSynced (inbound_images st) = inbound_images st).
      { etransitivity; [|apply map_id]. apply map_ext_in. intros i Hi.
        apply setSynced_synced. unfold unsynced in E.
        destruct (synced i) eqn:Es; [reflexivity|]. exfalso.
        assert (In i (filter (fun i => negb (synced i)) (inbound_images st)))
          as C by (apply filter_In; now rewrite Es).
        destruct (filter _ _); [destruct C|simpl in E; lia]. }
      rewrite Eall. repeat split; try assumption.
      rewrite Hbadge. cbn zeta. cbn [andb]. rewrite (Hcount st eq_refl Him).
      assumption.
    + assert (Hu : unsynced (exec (UI.markSynced all) st) = 0).
      { unfold unsynced. rewrite E2, unsynced_all_synced. reflexivity. }
      repeat split; try assumption.
      rewrite Hbadge. cbn zeta. cbn [andb].
      rewrite (Hcount _ Hd1 Hi1). assumption.
Qed.

(** ** The board *)

Lemma sumOver_upsert_absent {A} (key : A -> jsstring) (f : A -> Z) x l :
  ~ In (key x) (map key l) ->
  sumOver f (upsert key x l) = sumOver f l + f x.
Proof.
  induction l as [|y l IH]; simpl; intros H; [lia|].
  destruct (str_eqb_spec (key y) (key x)) as [E|E]; [tauto|].
  simpl. rewrite IH by tauto. lia.
Qed.

Lemma sumOver_upsert_present {A} (key : A -> jsstring) (f : A -> Z)
  x old l :
  NoDup (map key l) -> In old l -> key old = key x ->
  sumOver f (upsert key x l) = sumOver f l - f old + f x.
Proof.
  induction l as [|y l IH]; simpl; [tauto|].
  intros Hnd Hin E. inversion Hnd as [|? ? Hy Hl]; subst.
  destruct (str_eqb_spec (key y) (key x)) as [E'|E'].
  - destruct Hin as [->|Hin]; [simpl; lia|].
    exfalso. apply Hy. rewrite E', <- E. now apply in_map.
  - destruct Hin as [->|Hin]; [congruence|].
    simpl. rewrite IH by assumption. lia.
Qed.

Lemma sumOver_nonneg_zero {A} (f : A -> Z) l :
  (forall x, In x l -> f x = 0) -> sumOver f l = 0.
Proof.
  intros H. rewrite (sumOver_ext f (fun _ => 0)) by assumption.
  apply sumOver_zero.
Qed.


Lemma drop_exec id targetZone prompt uuid st :
  exec (UI.drop id targetZone prompt uuid) st = st.
Proof. destruct prompt as [[|value]|]; reflexivity. Qed.



(** ** Sample runs are runs of the application *)

Lemma distinct_NoDup l : distinct l = true -> NoDup l.
Proof.
  induction l as [|x l IH]; simpl; [constructor|].
  intros H. apply andb_true_iff in H as [H1 H2].
  constructor; [|auto]. intros C.
  apply negb_true_iff in H1.
  assert (existsb (str_eqb x) l = true); [|congruence].
  apply existsb_exists. exists x. split; [assumption|apply str_eqb_refl].
Qed.

Lemma enabledb_sound e a : enabledb e a = true -> enabled e a.
Proof.
  destruct e; simpl; try (intros _; exact I).
  - intros H. apply negb_true_iff in H. now apply hasKey_false_iff.
  - intros H. apply andb_true_iff in H as [H H3].
    apply andb_true_iff in H as [H1 H2]. repeat split.
    + now apply hasKey_true_iff.
    + now apply distinct_NoDup.
    + intros id Hid. rewrite forallb_forall in H3.
      apply hasKey_false_iff, negb_true_iff. auto.
  - apply hasKey_true_iff.
  - destruct (panel a) as [[docId p]|]; [|discriminate].
    intros H. apply andb_true_iff in H as [H1 H2]. lia.
Qed.

Lemma run_reachable toUpperCase localeCompare es a :
  reachable toUpperCase localeCompare a ->
  enabledAlong toUpperCase localeCompare es a = true ->
  reachable toUpperCase localeCompare (run toUpperCase localeCompare es a).
Proof.
  revert a. induction es as [|e es IH]; intros a Hr Hen; [assumption|].
  simpl in Hen. apply andb_true_iff in Hen as [He Hes].
  simpl. apply IH; [|assumption].
  apply reach_step; [assumption|now apply enabledb_sound].
Qed.

Lemma twoPages_reachable :
  reachable U.asciiUpper codeUnitCompare
    (run U.asciiUpper codeUnitCompare twoPages initApp).
Proof. apply run_reachable; [apply reach_init|reflexivity]. Qed.

Lemma threePagesManaged_reachable :
  reachable U.asciiUpper codeUnitCompare
    (run U.asciiUpper codeUnitCompare threePagesManaged initApp).
Proof. apply run_reachable; [apply reach_init|reflexivity]. Qed.


Lemma stored_number_normalized_witness :
  reachable U.asciiUpper codeUnitCompare
    (run U.asciiUpper codeUnitCompare twoPages initApp)
  /\ forall d,
       In d (inbound_docs
               (db (run U.asciiUpper codeUnitCompare twoPages initApp))) ->
       ls_nr_normalized d = spec_normalize U.asciiUpper (ls_nr d).
Proof.
  split; [exact twoPages_reachable|].
  intros d.
  exact (stored_number_normalized U.asciiUpper codeUnitCompare
           (run U.asciiUpper codeUnitCompare twoPages initApp) d
           twoPages_reachable).
Defined.

Lemma sync_badge_counts_unsynced_witness :
  eval (UI.bumpSyncBadge codeUnitCompare false true)
    (db (run U.asciiUpper codeUnitCompare twoPages initApp))
  = unsynced (db (run U.asciiUpper codeUnitCompare twoPages initApp)).
Proof.
  exact (proj1 (sync_badge_counts_unsynced U.asciiUpper codeUnitCompare
                  (run U.asciiUpper codeUnitCompare twoPages initApp)
                  true true twoPages_reachable)).
Defined.

(** ** The size of the stored image *)

Section Sizes.

Local Open Scope Q_scope.

Lemma Math_round_bounds x :
  inject_Z (Math_round x) <= x + (1 # 2)
  /\ x + (1 # 2) < inject_Z (Math_round x) + 1.
Proof.
  unfold Math_round. split.
  - apply Qfloor_le.
  - pose proof (Qlt_floor (x + (1 # 2))) as H.
    rewrite inject_Z_plus in H. exact H.
Qed.

Lemma Math_round_mono x y : x <= y -> (Math_round x <= Math_round y)%Z.
Proof. intros H. unfold Math_round. apply Qfloor_resp_le. lra. Qed.

Lemma Zle_from_Q a b : inject_Z a < inject_Z b + 1 -> (a <= b)%Z.
Proof.
  intros H. apply Z.lt_succ_r. rewrite Zlt_Qlt. unfold Z.succ.
  rewrite inject_Z_plus. exact H.
Qed.

Lemma Math_round_near x n :
  inject_Z n - (1 # 2) <= x -> x < inject_Z n + (1 # 2) -> Math_round x = n.
Proof.
  intros H1 H2. destruct (Math_round_bounds x) as [B1 B2].
  apply Z.le_antisymm; apply Zle_from_Q; lra.
Qed.

Lemma Math_round_Z n : Math_round (inject_Z n) = n.
Proof. apply Math_round_near; lra. Qed.

Lemma Math_round_proper x y : x == y -> Math_round x = Math_round y.
Proof.
  intros H. apply Z.le_antisymm; apply Math_round_mono; lra.
Qed.

Variable fl : Q -> Q.
Hypothesis laws : RoundingLaws fl.

Lemma fl_proper x y : 0 <= x -> x <= largest -> x == y -> fl x == fl y.
Proof.
  intros H0 H1 H. apply Qle_antisym; apply (fl_monotone _ laws); lra.
Qed.

Lemma fl_one : fl 1 == 1.
Proof. apply (fl_integer _ laws 1%Z). simpl. lia. Qed.

(** An image that fits is drawn as it is. *)
Lemma scaledSize_fits cw ch :
  (1 <= cw)%Z -> (1 <= ch)%Z -> (Z.max cw ch <= 2500)%Z ->
  Camera.scaledSize fl 2500 cw ch = (cw, ch).
Proof.
  intros Hw Hh Hm. unfold Camera.scaledSize.
  replace (Z.max cw ch =? 0)%Z with false by (symmetry; apply Z.eqb_neq; lia).
  assert (HM : 1 <= inject_Z (Z.max cw ch) <= 2500).
  { split; [change 1 with (inject_Z 1)|change 2500 with (inject_Z 2500)];
      rewrite <- Zle_Qle; lia. }
  assert (Hq : 1 <= inject_Z 2500 / inject_Z (Z.max cw ch)).
  { apply Qle_shift_div_l; [lra|]. change (inject_Z 2500) with 2500. lra. }
  assert (Hq' : inject_Z 2500 / inject_Z (Z.max cw ch) <= 2500).
  { apply Qle_shift_div_r; [lra|]. change (inject_Z 2500) with 2500. nra. }
  assert (Hs : Qmin 1 (fl (inject_Z 2500 / inject_Z (Z.max cw ch))) == 1).
  { apply Q.min_l. rewrite <- fl_one at 1.
    apply (fl_monotone _ laws); unfold largest; lra. }
  assert (Hc : forall c, (1 <= c <= 2500)%Z ->
             Math_round (fl (inject_Z c
               * Qmin 1 (fl (inject_Z 2500 / inject_Z (Z.max cw ch))))) = c).
  { intros c Hc.
    assert (HC : 1 <= inject_Z c <= 2500).
    { split; [change 1 with (inject_Z 1)|change 2500 with (inject_Z 2500)];
        rewrite <- Zle_Qle; lia. }
    rewrite (Math_round_proper _ (inject_Z c)); [apply Math_round_Z|].
    eapply Qeq_trans; [|apply (fl_integer _ laws c); lia].
    apply fl_proper; rewrite ?Hs; unfold largest; lra. }
  f_equal; apply Hc; lia.
Qed.

(** A longer edge above 2500: the product the code rounds is within a
    quarter of a pixel of the exact scaled edge, and not above the edge. *)
Lemma scaled_edge c m :
  (1 <= c <= m)%Z -> (2500 < m <= 4294967295)%Z ->
  let p := fl (inject_Z c * Qmin 1 (fl (inject_Z 2500 / inject_Z m))) in
  let y := inject_Z c * (2500 / inject_Z m) in
  y - (1 # 4) <= p /\ p <= y + (1 # 4) /\ p <= inject_Z c
  /\ Qmin 1 (2500 / inject_Z m) == 2500 / inject_Z m.
Proof.
  intros Hc Hm p y.
  assert (HM : 2500 < inject_Z m <= 4294967295).
  { split; [change 2500 with (inject_Z 2500); rewrite <- Zlt_Qlt
           |change 4294967295 with (inject_Z 4294967295); rewrite <- Zle_Qle];
      lia. }
  assert (HC : 1 <= inject_Z c <= inject_Z m).
  { split; [change 1 with (inject_Z 1)|]; rewrite <- Zle_Qle; lia. }
  set (q := inject_Z 2500 / inject_Z m) in *.
  assert (Hq : q * inject_Z m == 2500).
  { unfold q. change (inject_Z 2500) with 2500. field. lra. }
  assert (Hq01 : smallest * 2 <= q /\ q <= 1).
  { unfold smallest. split.
    - apply Qle_shift_div_l; [lra|]. change (inject_Z 2500) with 2500. lra.
    - apply Qle_shift_div_r; [lra|]. change (inject_Z 2500) with 2500. lra. }
  unfold smallest, largest, unitRoundoff in *.
  destruct (fl_error _ laws q) as [E1 E2];
    [unfold smallest; lra|unfold largest; lra|].
  assert (Hs1 : fl q <= 1).
  { rewrite <- fl_one. apply (fl_monotone _ laws); unfold largest; lra. }
  assert (Hs : Qmin 1 (fl q) == fl q) by now apply Q.min_r.
  unfold unitRoundoff in *.
  assert (Hs0 : (1 # 4294967296) <= fl q) by nra.
  assert (Hx : (1 # 4294967296) <= inject_Z c * fl q <= 4294967295) by nra.
  destruct (fl_error _ laws (inject_Z c * fl q)) as [E3 E4];
    [unfold smallest; lra|unfold largest; lra|].
  unfold unitRoundoff in *.
  assert (Hp : p == fl (inject_Z c * fl q)).
  { unfold p. apply fl_proper; rewrite ?Hs; unfold largest; lra. }
  assert (Hy : y == inject_Z c * q).
  { unfold y, q. change (inject_Z 2500) with 2500. reflexivity. }
  assert (Hy2 : 0 <= inject_Z c * q <= 2500) by nra.
  repeat split.
  - rewrite Hp, Hy. nra.
  - rewrite Hp, Hy. nra.
  - rewrite Hp. eapply Qle_trans;
      [|apply Qle_lteq; right; apply (fl_integer _ laws c); lia].
    apply (fl_monotone _ laws); unfold largest; nra.
  - apply Q.min_r. apply Qle_shift_div_r; lra.
Qed.

(** The size of the canvas, for every rounding of the doubles that obeys
    the laws. *)
Lemma scaledSize_bounds (cw ch : Z) :
  (1 <= cw <= 4294967295)%Z -> (1 <= ch <= 4294967295)%Z ->
  let w := fst (Camera.scaledSize fl 2500 cw ch) in
  let h := snd (Camera.scaledSize fl 2500 cw ch) in
  let m := Z.max cw ch in
  let scale := Qmin 1 (2500 / inject_Z m) in
  (Z.max w h <= 2500)%Z
  /\ (w <= cw)%Z /\ (h <= ch)%Z
  /\ ((m <= 2500)%Z -> w = cw /\ h = ch)
  /\ ((2500 < m)%Z -> Z.max w h = 2500%Z)
  /\ Qabs (inject_Z w - inject_Z cw * scale) < 1
  /\ Qabs (inject_Z h - inject_Z ch * scale) < 1
  /\ Camera.scaledSize fl 2500 4000 3000 = (2500%Z, 1875%Z).
Proof.
  intros Hw Hh w h m scale.
  assert (Hex : Camera.scaledSize fl 2500 4000 3000 = (2500%Z, 1875%Z)).
  { unfold Camera.scaledSize. cbn [Z.max Z.compare Pos.compare
      Pos.compare_cont Z.eqb].
    destruct (scaled_edge 4000 4000 ltac:(lia) ltac:(lia))
      as [A1 [A2 _]].
    destruct (scaled_edge 3000 4000 ltac:(lia) ltac:(lia))
      as [B1 [B2 _]].
    cbv zeta in A1, A2, B1, B2.
    f_equal; apply Math_round_near.
    - eapply Qle_trans; [|exact A1]. vm_compute. discriminate.
    - eapply Qle_lt_trans; [exact A2|]. vm_compute. reflexivity.
    - eapply Qle_trans; [|exact B1]. vm_compute. discriminate.
    - eapply Qle_lt_trans; [exact B2|]. vm_compute. reflexivity. }
  destruct (Z_le_gt_dec m 2500) as [Hm|Hm].
  - (* the source fits *)
    assert (E : Camera.scaledSize fl 2500 cw ch = (cw, ch))
      by (apply scaledSize_fits; lia).
    unfold w, h. rewrite E. cbn [fst snd].
    assert (HM : 1 <= inject_Z m <= 2500).
    { split; [change 1 with (inject_Z 1)|change 2500 with (inject_Z 2500)];
        rewrite <- Zle_Qle; lia. }
    assert (Hsc : scale == 1).
    { unfold scale. apply Q.min_l. apply Qle_shift_div_l; lra. }
    repeat split; try lia.
    + rewrite Hsc. setoid_replace (inject_Z cw - inject_Z cw * 1) with 0
        by ring. reflexivity.
    + rewrite Hsc. setoid_replace (inject_Z ch - inject_Z ch * 1) with 0
        by ring. reflexivity.
    + exact Hex.
  - (* the source is scaled down *)
    assert (Hne : (m =? 0)%Z = false) by (apply Z.eqb_neq; lia).
    assert (Ew : w = Math_round (fl (inject_Z cw
                   * Qmin 1 (fl (inject_Z 2500 / inject_Z m))))).
    { unfold w, Camera.scaledSize. fold m. now rewrite Hne. }
    assert (Eh : h = Math_round (fl (inject_Z ch
                   * Qmin 1 (fl (inject_Z 2500 / inject_Z m))))).
    { unfold h, Camera.scaledSize. fold m. now rewrite Hne. }
    destruct (scaled_edge cw m ltac:(lia) ltac:(lia)) as [W1 [W2 [W3 Hsc]]].
    destruct (scaled_edge ch m ltac:(lia) ltac:(lia)) as [H1 [H2 [H3 _]]].
    destruct (scaled_edge m m ltac:(lia) ltac:(lia)) as [M1 [M2 [M3 _]]].
    cbv zeta in *.
    assert (HM : 2500 < inject_Z m <= 4294967295).
    { split; [change 2500 with (inject_Z 2500); rewrite <- Zlt_Qlt
             |change 4294967295 with (inject_Z 4294967295);
              rewrite <- Zle_Qle]; lia. }
    assert (Hmm : inject_Z m * (2500 / inject_Z m) == 2500)
      by (field; lra).
    assert (Em : Math_round (fl (inject_Z m
                   * Qmin 1 (fl (inject_Z 2500 / inject_Z m)))) = 2500%Z).
    { apply Math_round_near; change (inject_Z 2500) with 2500 in *; lra. }
    assert (Hmin : 0 <= Qmin 1 (fl (inject_Z 2500 / inject_Z m)) <= 1).
    { split; [|apply Q.le_min_l].
      apply Q.min_glb; [lra|].
      assert (smallest <= inject_Z 2500 / inject_Z m <= 1) as [L U].
      { unfold smallest. split.
        - apply Qle_shift_div_l; [lra|].
          change (inject_Z 2500) with 2500. lra.
        - apply Qle_shift_div_r; [lra|].
          change (inject_Z 2500) with 2500. lra. }
      destruct (fl_error _ laws _ L) as [E _]; [unfold largest; lra|].
      unfold unitRoundoff, smallest in *. nra. }
    assert (Hle : forall c, (0 <= c <= m)%Z ->
              (Math_round (fl (inject_Z c
                 * Qmin 1 (fl (inject_Z 2500 / inject_Z m)))) <= 2500)%Z).
    { intros c Hc.
      assert (HC : 0 <= inject_Z c <= inject_Z m).
      { split; [change 0 with (inject_Z 0)|]; rewrite <- Zle_Qle; lia. }
      apply Z.le_trans with
        (Math_round (fl (inject_Z m
           * Qmin 1 (fl (inject_Z 2500 / inject_Z m)))));
        [|rewrite Em; lia].
      apply Math_round_mono.
      apply (fl_monotone _ laws); unfold largest; nra. }
    assert (Hwc : (w <= cw)%Z).
    { rewrite Ew. apply Z.le_trans with (Math_round (inject_Z cw));
        [now apply Math_round_mono|rewrite Math_round_Z; lia]. }
    assert (Hhc : (h <= ch)%Z).
    { rewrite Eh. apply Z.le_trans with (Math_round (inject_Z ch));
        [now apply Math_round_mono|rewrite Math_round_Z; lia]. }
    assert (Hnear : forall c,
              let p := fl (inject_Z c
                         * Qmin 1 (fl (inject_Z 2500 / inject_Z m))) in
              inject_Z c * (2500 / inject_Z m) - (1 # 4) <= p ->
              p <= inject_Z c * (2500 / inject_Z m) + (1 # 4) ->
              Qabs (inject_Z (Math_round p) - inject_Z c * scale) < 1).
    { intros c p P1 P2. destruct (Math_round_bounds p) as [B1 B2].
      unfold scale. rewrite Hsc. apply Qabs_Qlt_condition. lra. }
    repeat split.
    + apply Z.max_lub; [rewrite Ew|rewrite Eh]; apply Hle; lia.
    + exact Hwc.
    + exact Hhc.
    + lia.
    + lia.
    + intros _. destruct (Z.max_spec cw ch) as [[_ E]|[_ E]]; fold m in E.
      * rewrite Z.max_r; [|].
        -- rewrite Eh, <- E. exact Em.
        -- rewrite Ew, Eh, <- E. rewrite Em. apply Hle. lia.
      * rewrite Z.max_l; [|].
        -- rewrite Ew, <- E. exact Em.
        -- rewrite Ew, Eh, <- E. rewrite Em. apply Hle. lia.
    + rewrite Ew. now apply Hnear.
    + rewrite Eh. now apply Hnear.
    + exact Hex.
Qed.

(** C8. The stored encoding of an image, the blob [drawBitmapToBlob]
    makes of an imported file and [captureVideoToBlob] of a video frame:
    its longer edge is at most 2500; no edge is longer than the edge of the
    source; a source that fits is not scaled; a longer edge above 2500
    becomes 2500 exactly; and each edge is less than a pixel from the edge
    of the source times [min(1, 2500 / longerEdge)].  A 4000 x 3000 source
    is stored at 2500 x 1875.  This holds for every rounding of the doubles
    that obeys the laws. *)
Theorem stored_encoding_scaled (bmp blob : Bitmap) :
  (1 <= width bmp <= 4294967295)%Z -> (1 <= height bmp <= 4294967295)%Z ->
  blob = Camera.drawBitmapToBlob fl bmp
  \/ blob = Camera.captureVideoToBlob fl bmp ->
  let m := Z.max (width bmp) (height bmp) in
  let scale := Qmin 1 (2500 / inject_Z m) in
  (Z.max (width blob) (height blob) <= 2500)%Z
  /\ (width blob <= width bmp)%Z /\ (height blob <= height bmp)%Z
  /\ ((m <= 2500)%Z -> blob = bmp)
  /\ ((2500 < m)%Z -> Z.max (width blob) (height blob) = 2500%Z)
  /\ Qabs (inject_Z (width blob) - inject_Z (width bmp) * scale) < 1
  /\ Qabs (inject_Z (height blob) - inject_Z (height bmp) * scale) < 1
  /\ Camera.drawBitmapToBlob fl {| width := 4000; height := 3000 |}
     = {| width := 2500; height := 1875 |}
  /\ Camera.captureVideoToBlob fl {| width := 4000; height := 3000 |}
     = {| width := 2500; height := 1875 |}.
Proof.
  intros Hw Hh Hblob m scale.
  destruct (scaledSize_bounds (width bmp) (height bmp) Hw Hh)
    as (B1 & B2 & B3 & B4 & B5 & B6 & B7 & B8).
  cbv zeta in B1, B2, B3, B4, B5, B6, B7.
  assert (E : blob = {| width := fst (Camera.scaledSize fl 2500 (width bmp)
                                        (height bmp));
                        height := snd (Camera.scaledSize fl 2500 (width bmp)
                                         (height bmp)) |}).
  { destruct Hblob as [->| ->];
      unfold Camera.drawBitmapToBlob, Camera.captureVideoToBlob;
      now destruct (Camera.scaledSize fl 2500 (width bmp) (height bmp)). }
  rewrite E. cbn [width height].
  repeat split; try assumption.
  - intros Hm. destruct (B4 Hm) as [-> ->]. now destruct bmp.
  - unfold Camera.drawBitmapToBlob. cbn [width height]. now rewrite B8.
  - unfold Camera.captureVideoToBlob. cbn [width height]. now rewrite B8.
Qed.

End Sizes.

Lemma exact_laws : RoundingLaws exact.
Proof.
  unfold exact. split.
  - auto.
  - reflexivity.
  - intros x Hx _. unfold unitRoundoff, smallest in *. split; nra.
Qed.

Lemma stored_encoding_scaled_witness :
  let bmp := {| width := 4000; height := 3000 |} in
  let blob := Camera.drawBitmapToBlob exact bmp in
  Z.max (width blob) (height blob) <= 2500
  /\ Z.max (width blob) (height blob) = 2500
  /\ blob = {| width := 2500; height := 1875 |}.
Proof.
  destruct (stored_encoding_scaled exact exact_laws
              {| width := 4000; height := 3000 |}
              (Camera.drawBitmapToBlob exact
                 {| width := 4000; height := 3000 |}))
    as (H1 & _ & _ & _ & H5 & _ & _ & H8 & _);
    [cbn; lia|cbn; lia|now left|].
  cbv zeta. split; [exact H1|]. split; [apply H5; cbn; lia|exact H8].
Defined.

(** C6, as amended.  An image whose longer edge is below 1500 pixels is
    rejected, whatever its sharpness: an imported file (the guard of
    [validateBlob], on the blob, which has the size of the file since
    nothing is scaled below 2500 pixels) and a video frame (the guard of
    [take]).  [score] is the sharpness score and is arbitrary: it is not
    consulted.  The rejection comes with the one message of the camera,
    that the photo is blurred or too dark, and with no reason of its own.
    A 1000 x 800 image is rejected. *)
Theorem small_image_rejected (fl : Q -> Q) (score : Bitmap -> float)
  (bmp : Bitmap) :
  RoundingLaws fl ->
  1 <= width bmp -> 1 <= height bmp ->
  Z.max (width bmp) (height bmp) < 1500 ->
  Camera.validateBlob score bmp = false
  /\ Camera.onFilePicked fl score bmp = Camera.Retake Camera.blurredOrDark
  /\ Camera.take fl score bmp = Camera.Retake Camera.blurredOrDark.
Proof.
  intros laws Hw Hh Hmax.
  assert (Hlt : (Z.max (width bmp) (height bmp) <? 1500) = true)
    by (apply Z.ltb_lt; lia).
  repeat split.
  - unfold Camera.validateBlob. now rewrite Hlt.
  - unfold Camera.onFilePicked, Camera.drawBitmapToBlob.
    rewrite (scaledSize_fits fl laws) by lia.
    unfold Camera.validateBlob. cbn [width height]. now rewrite Hlt.
  - unfold Camera.take. now rewrite Hlt.
Qed.

Lemma small_image_rejected_witness :
  Camera.validateBlob (fun _ => infinity) {| width := 1000; height := 800 |}
  = false
  /\ Camera.onFilePicked exact (fun _ => infinity)
       {| width := 1000; height := 800 |}
     = Camera.Retake Camera.blurredOrDark
  /\ Camera.take exact (fun _ => infinity) {| width := 1000; height := 800 |}
     = Camera.Retake Camera.blurredOrDark.
Proof.
  apply (small_image_rejected exact (fun _ => infinity)
           {| width := 1000; height := 800 |} exact_laws); simpl; lia.
Defined.

(** C6 as stated fails on the reason.  A sharp image of 1000 x 800 pixels
    and a large image without any sharpness get the same outcome, the
    message that the photo is blurred or too dark: no reading of the
    outcome gives the reason [TooSmall] for the first and [Blurry] for the
    second. *)
Lemma small_image_reason_counterexample :
  let small := {| width := 1000; height := 800 |} in
  let large := {| width := 3000; height := 2000 |} in
  let sharp := fun _ : Bitmap => infinity in
  let blurred := fun _ : Bitmap => 0%float in
  Camera.onFilePicked exact sharp small
  = Camera.Retake (str "Foto unscharf/zu dunkel. Erneut aufnehmen?")
  /\ Camera.onFilePicked exact blurred large
     = Camera.Retake (str "Foto unscharf/zu dunkel. Erneut aufnehmen?")
  /\ Camera.take exact sharp small = Camera.take exact blurred large
  /\ ~ exists reasonOf : Camera.CaptureResult -> spec_Reason,
        reasonOf (Camera.onFilePicked exact sharp small) = TooSmall
        /\ reasonOf (Camera.onFilePicked exact blurred large) = Blurry.
Proof.
  cbv zeta.
  assert (E1 : Camera.onFilePicked exact (fun _ => infinity)
                 {| width := 1000; height := 800 |}
               = Camera.Retake Camera.blurredOrDark) by reflexivity.
  assert (E2 : Camera.onFilePicked exact (fun _ => 0%float)
                 {| width := 3000; height := 2000 |}
               = Camera.Retake Camera.blurredOrDark) by reflexivity.
  split; [exact E1|]. split; [exact E2|]. split; [reflexivity|].
  intros [reasonOf [H1 H2]]. rewrite E1 in H1. rewrite E2 in H2.
  congruence.
Qed.

(** ** The sharpness score of a uniform image *)

(** C7 on the code.  A uniform image of 1500 x 6 pixels is scored on a
    canvas of 800 x 3 pixels and its score is 0.  A uniform image of
    1500 x 4 pixels is scored on a canvas of 800 x 2 pixels, which has no
    interior pixel: the sums are divided by [n = 0], and the score is [NaN],
    not 0.  (Both are rejected: [NaN >= 60] is false.) *)
Theorem flat_image_without_interior_scores_nan :
  let score := Camera.laplacianVariance (flatCanvas 200 180 90) in
  score {| width := 1500; height := 6 |} = 0%float
  /\ is_nan (score {| width := 1500; height := 4 |}) = true
  /\ (score {| width := 1500; height := 4 |} =? 0)%float = false
  /\ Camera.validateBlob score {| width := 1500; height := 6 |} = false
  /\ Camera.validateBlob score {| width := 1500; height := 4 |} = false.
Proof. vm_compute. repeat split; reflexivity. Qed.

(** The same on every canvas without an interior pixel: two pixels wide or
    two pixels high, whatever the image. *)
Lemma no_interior_scores_nan (w h : Z) (img : list Z) :
  w = 2 \/ h = 2 -> Camera.varianceOfLaplacian w h img = nan.
Proof.
  intros Hwh. unfold Camera.varianceOfLaplacian.
  set (out := Camera.laplacian _ w h).
  assert (Hs : Camera.sums out w h = (0%float, 0%float)).
  { unfold Camera.sums. destruct Hwh as [->| ->].
    - change (range 1 (2 - 1)) with (@nil Z).
      induction (range 1 (h - 1)) as [|y l IH]; [reflexivity|exact IH].
    - reflexivity. }
  rewrite Hs. cbn [fst snd].
  replace ((w - 2) * (h - 2)) with 0 by (destruct Hwh; subst; ring).
  reflexivity.
Qed.

(** With an interior the score of a uniform image is 0: every grey level on
    a canvas of 4 x 3 pixels. *)
Lemma grey_levels_score_zero :
  forallb (fun v =>
             (Camera.varianceOfLaplacian 4 3 (flatCanvas v v v 4 3) =? 0)%float)
    (range 0 256) = true.
Proof. vm_compute. reflexivity. Qed.

(* ------------------------------------------------------------------ *)
(** ** Hexadecimal digits, identifiers, digests *)

Lemma toString16_digit v :
  0 <= v < 16 -> toString16 v = [hexChar v].
Proof.
  intros Hv. unfold toString16.
  assert (Hc : v = 0 \/ v = 1 \/ v = 2 \/ v = 3 \/ v = 4 \/ v = 5 \/ v = 6
               \/ v = 7 \/ v = 8 \/ v = 9 \/ v = 10 \/ v = 11 \/ v = 12
               \/ v = 13 \/ v = 14 \/ v = 15) by lia.
  repeat (destruct Hc as [->|Hc]; [reflexivity|]). now subst.
Qed.

Lemma land_15_range x : 0 <= Z.land x 15 < 16.
Proof.
  change 15 with (Z.ones 4). rewrite Z.land_ones by lia.
  apply Z.mod_pos_bound. reflexivity.
Qed.

Lemma hexChar_hex v : 0 <= v < 16 -> isHexLower (hexChar v) = true.
Proof.
  intros Hv.
  assert (Hc : v = 0 \/ v = 1 \/ v = 2 \/ v = 3 \/ v = 4 \/ v = 5 \/ v = 6
               \/ v = 7 \/ v = 8 \/ v = 9 \/ v = 10 \/ v = 11 \/ v = 12
               \/ v = 13 \/ v = 14 \/ v = 15) by lia.
  repeat (destruct Hc as [->|Hc]; [reflexivity|]). now subst.
Qed.

Lemma variant_digit r :
  0 <= r < 16 ->
  let c := hexChar (Z.lor (Z.land r 3) 8) in
  ((c =? 56) || (c =? 57) || (c =? 97) || (c =? 98))%N = true
  /\ toString16 (Z.lor (Z.land r 3) 8) = [c].
Proof.
  intros Hv.
  assert (Hc : r = 0 \/ r = 1 \/ r = 2 \/ r = 3 \/ r = 4 \/ r = 5 \/ r = 6
               \/ r = 7 \/ r = 8 \/ r = 9 \/ r = 10 \/ r = 11 \/ r = 12
               \/ r = 13 \/ r = 14 \/ r = 15) by lia.
  repeat (destruct Hc as [->|Hc]; [split; reflexivity|]).
  subst. split; reflexivity.
Qed.

(** X1. The fallback of [U.uuid] yields a well-formed version 4 identifier,
    whatever bytes the random source gives. *)
Theorem uuid_fallback_wellformed (rnd : nat -> Z) :
  isUuidV4 (Text.uuid None rnd) = true.
Proof.
  unfold Text.uuid.
  cbn [str list_ascii_of_string map Text.replaceXY N_of_ascii N_of_digits
       N.eqb Pos.eqb orb N.add N.mul Pos.add Pos.mul].
  cbv beta iota zeta.
  repeat match goal with
  | |- context [toString16 (Z.lor (Z.land (Z.land (rnd ?k) 15) 3) 8)] =>
      let H := fresh in let E := fresh in
      destruct (variant_digit _ (land_15_range (rnd k))) as [H E];
      cbv zeta in H, E; rewrite E;
      generalize dependent (hexChar (Z.lor (Z.land (Z.land (rnd k) 15) 3) 8));
      intros
  end.
  repeat match goal with
  | |- context [toString16 (Z.land (rnd ?k) 15)] =>
      rewrite (toString16_digit _ (land_15_range (rnd k)));
      let H := fresh in
      pose proof (hexChar_hex _ (land_15_range (rnd k))) as H;
      generalize dependent (hexChar (Z.land (rnd k) 15)); intros
  end.
  unfold isUuidV4.
  cbn [app List.length Nat.eqb andb seq combine forallb fst snd orb].
  repeat match goal with H : _ = true |- _ => rewrite H; clear H end.
  reflexivity.
Qed.

Lemma hex_byte_table :
  forallb (fun b =>
             match padStart 2 48 (toString16 b) with
             | [x; y] => isHexLower x && isHexLower y
                         && (16 * hexValue x + hexValue y =? b)
             | _ => false
             end) (range 0 256) = true.
Proof. vm_compute. reflexivity. Qed.

Lemma hex_byte b :
  0 <= b < 256 ->
  exists x y, padStart 2 48 (toString16 b) = [x; y]
              /\ isHexLower x = true /\ isHexLower y = true
              /\ 16 * hexValue x + hexValue y = b.
Proof.
  intros Hb. pose proof hex_byte_table as H.
  rewrite forallb_forall in H. specialize (H b).
  assert (Hin : In b (range 0 256)).
  { unfold range. apply in_map_iff. exists (Z.to_nat b). split; [lia|].
    apply in_seq. change (Z.to_nat (256 - 0)) with 256%nat. lia. }
  specialize (H Hin).
  destruct (padStart 2 48 (toString16 b)) as [|x [|y [|? ?]]];
    try discriminate.
  apply andb_prop in H as [H H3]. apply andb_prop in H as [H1 H2].
  exists x, y. repeat split; auto. now apply Z.eqb_eq.
Qed.

(** X2. The digest is printed as two lower-case hexadecimal digits a byte, and
    the bytes can be read back from the string: it is 64 digits for the 32
    bytes of SHA-256, and two digests print alike only if they are the
    same. *)
Theorem sha256_hex (digest : list Z -> list Z) (buf : list Z) :
  Forall (fun b => 0 <= b < 256) (digest buf) ->
  List.length (Text.sha256 digest buf) = (2 * List.length (digest buf))%nat
  /\ forallb isHexLower (Text.sha256 digest buf) = true
  /\ unhex (Text.sha256 digest buf) = digest buf.
Proof.
  unfold Text.sha256. induction 1 as [|b l Hb _ IH]; [now repeat split|].
  destruct (hex_byte b Hb) as (x & y & E & Hx & Hy & Hv).
  destruct IH as (IH1 & IH2 & IH3).
  cbn [flat_map]. rewrite E. cbn [app List.length forallb unhex].
  rewrite IH1, IH2, IH3, Hx, Hy, Hv. repeat split. lia.
Qed.

Lemma sha256_hex_witness :
  let digest := fun _ : list Z => [0; 10; 171; 255] in
  List.length (Text.sha256 digest []) = 8%nat
  /\ Text.sha256 digest [] = str "000aabff"
  /\ unhex (Text.sha256 digest []) = [0; 10; 171; 255].
Proof.
  intros digest.
  destruct (sha256_hex digest []) as (H1 & _ & H3).
  - repeat constructor; lia.
  - split; [exact H1|]. split; [reflexivity|exact H3].
Defined.

(* ------------------------------------------------------------------ *)
(** ** The exported cart can be read back *)

Lemma join_cons sep x y l :
  join sep (x :: y :: l) = x ++ sep ++ join sep (y :: l).
Proof. unfold join. cbn [flat_map]. now rewrite <- app_assoc. Qed.

Lemma readCsv_plain s :
  existsb isCsvSpecial s = false ->
  forall cell row rows rest,
    readCsv Plain cell row rows (s ++ rest)
    = readCsv Plain (rev s ++ cell) row rows rest.
Proof.
  induction s as [|c s IH]; intros Hs cell row rows rest; [reflexivity|].
  cbn [existsb] in Hs. apply orb_false_elim in Hs as [Hc Hs].
  unfold isCsvSpecial in Hc.
  repeat (apply orb_false_elim in Hc as [Hc ?]).
  cbn [app readCsv]. rewrite Hc. cbn [andb].
  replace (c =? 59)%N with false by congruence.
  replace (c =? 10)%N with false by congruence.
  rewrite IH by assumption. cbn [rev]. now rewrite <- app_assoc.
Qed.

Lemma readCsv_quoted s cell row rows rest :
  readCsv Quoted cell row rows
    (flat_map (fun c => if (c =? 34)%N then [34; 34] else [c])%N s
     ++ 34%N :: rest)
  = readCsv QuoteSeen (rev s ++ cell) row rows rest.
Proof.
  revert cell. induction s as [|c s IH]; intros cell; [reflexivity|].
  cbn [flat_map rev]. rewrite <- !app_assoc.
  destruct (c =? 34)%N eqn:Ec.
  - apply N.eqb_eq in Ec. subst c. cbn [app readCsv N.eqb Pos.eqb].
    now rewrite IH.
  - cbn [app readCsv]. rewrite Ec. now rewrite IH.
Qed.

(** A cell as [csvEscape] writes it, read up to the semicolon, the line
    feed or the end that follows it. *)
Lemma readCsv_cell_sep s row rows rest :
  readCsv Plain [] row rows (Text.csvEscape s ++ 59%N :: rest)
  = readCsv Plain [] (s :: row) rows rest.
Proof.
  unfold Text.csvEscape. destruct (existsb isCsvSpecial s) eqn:Es.
  - cbn [app readCsv N.eqb Pos.eqb isEmpty andb].
    rewrite <- app_assoc. cbn [app]. rewrite readCsv_quoted.
    cbn [readCsv N.eqb Pos.eqb]. now rewrite app_nil_r, rev_involutive.
  - rewrite readCsv_plain by assumption.
    cbn [readCsv N.eqb Pos.eqb andb].
    now rewrite app_nil_r, rev_involutive.
Qed.

Lemma readCsv_cell_nl s row rows rest :
  readCsv Plain [] row rows (Text.csvEscape s ++ 10%N :: rest)
  = readCsv Plain [] [] (rev (s :: row) :: rows) rest.
Proof.
  unfold Text.csvEscape. destruct (existsb isCsvSpecial s) eqn:Es.
  - cbn [app readCsv N.eqb Pos.eqb isEmpty andb].
    rewrite <- app_assoc. cbn [app]. rewrite readCsv_quoted.
    cbn [readCsv N.eqb Pos.eqb]. now rewrite app_nil_r, rev_involutive.
  - rewrite readCsv_plain by assumption.
    cbn [readCsv N.eqb Pos.eqb andb].
    now rewrite app_nil_r, rev_involutive.
Qed.

Lemma readCsv_cell_end s row rows :
  readCsv Plain [] row rows (Text.csvEscape s)
  = rev (rev (s :: row) :: rows).
Proof.
  unfold Text.csvEscape. destruct (existsb isCsvSpecial s) eqn:Es.
  - cbn [app readCsv N.eqb Pos.eqb isEmpty andb].
    rewrite readCsv_quoted.
    cbn [readCsv]. now rewrite app_nil_r, rev_involutive.
  - rewrite <- (app_nil_r s) at 1. rewrite readCsv_plain by assumption.
    cbn [readCsv]. now rewrite app_nil_r, rev_involutive.
Qed.

Lemma readCsv_line_nl cells : forall c row rows rest,
  readCsv Plain [] row rows (csvLine (c :: cells) ++ 10%N :: rest)
  = readCsv Plain [] [] ((rev row ++ c :: cells) :: rows) rest.
Proof.
  unfold csvLine.
  induction cells as [|d cells IH]; intros c row rows rest.
  - cbn [map join flat_map]. rewrite app_nil_r, readCsv_cell_nl.
    reflexivity.
  - cbn [map]. rewrite join_cons, <- ?app_assoc. cbn [app].
    rewrite readCsv_cell_sep. cbn [map] in IH. rewrite IH.
    cbn [rev]. now rewrite <- app_assoc.
Qed.

Lemma readCsv_line_end cells : forall c row rows,
  readCsv Plain [] row rows (csvLine (c :: cells))
  = rev ((rev row ++ c :: cells) :: rows).
Proof.
  unfold csvLine.
  induction cells as [|d cells IH]; intros c row rows.
  - cbn [map join flat_map]. rewrite app_nil_r, readCsv_cell_end.
    reflexivity.
  - cbn [map]. rewrite join_cons, <- ?app_assoc. cbn [app].
    rewrite readCsv_cell_sep. cbn [map] in IH. rewrite IH.
    cbn [rev]. now rewrite <- app_assoc.
Qed.

Lemma readCsv_table rs : forall r done,
  Forall (fun r => r <> []) (r :: rs) ->
  readCsv Plain [] [] done (join [10%N] (map csvLine (r :: rs)))
  = rev done ++ r :: rs.
Proof.
  induction rs as [|r' rs IH]; intros r done Hne.
  - cbn [map join flat_map]. rewrite app_nil_r.
    inversion Hne as [|? ? Hr _]; subst.
    destruct r as [|c cells]; [contradiction|].
    rewrite readCsv_line_end. reflexivity.
  - cbn [map]. rewrite join_cons. cbn [app].
    inversion Hne as [|? ? Hr Hrest]; subst.
    destruct r as [|c cells]; [contradiction|].
    rewrite readCsv_line_nl. cbn [map] in IH. rewrite IH by assumption.
    cbn [rev app]. now rewrite <- app_assoc.
Qed.

(** X3. The text [exportCSV] writes reads back as the table it was written
    from: the header and one row of quantity, name and note for every item
    of the cart, in the order of [DB.getCartAll], whatever characters the
    names and notes hold and however the quantities are printed. *)
Theorem exportCSV_reads_back (exponential : Z -> jsstring)
  (cart : list CartItem) :
  readCsvFile (Cart.exportCSV exponential cart)
  = Cart.rows exponential (CartStore.getCartAll cart).
Proof.
  unfold Cart.exportCSV, readCsvFile.
  cbn [N.eqb Pos.eqb].
  change (fun r => join [59%N] (map Text.csvEscape r)) with csvLine.
  unfold Cart.rows. rewrite readCsv_table; [reflexivity|].
  constructor; [discriminate|].
  apply Forall_forall. intros r Hr. apply in_map_iff in Hr as (i & <- & _).
  discriminate.
Qed.

(* ------------------------------------------------------------------ *)
(** ** The cart *)

Lemma cartKind_other name' note' n t (i : CartItem) :
  cart_name i = name' -> cart_note i = note' ->
  (n, t) <> (name', note') -> cartKind n t i = false.
Proof.
  intros <- <- Hne. unfold cartKind.
  destruct (str_eqb_spec (cart_name i) n) as [E1|E1]; [|reflexivity].
  destruct (str_eqb_spec (cart_note i) t) as [E2|E2]; [|reflexivity].
  subst. congruence.
Qed.

(** Up to [2^53] the double of an integer is the integer. *)
Lemma toDouble_exact n : Z.abs n <= 2 ^ 53 -> toDouble n = Finite n.
Proof.
  intros H. change (2 ^ 53) with 9007199254740992 in H.
  destruct (Z.eq_dec (Z.abs n) 9007199254740992) as [E|E].
  - destruct (Z.abs_spec n) as [[_ E']|[_ E']]; rewrite E' in E.
    + subst n. vm_compute. reflexivity.
    + replace n with (- 9007199254740992) by lia. vm_compute. reflexivity.
  - unfold toDouble.
    replace (Z.abs n <? 2 ^ 53) with true; [reflexivity|].
    symmetry. apply Z.ltb_lt. change (2 ^ 53) with 9007199254740992. lia.
Qed.

Lemma cartQty_ge name' note' same cart n :
  (forall i, In i cart -> cartKind name' note' i = true ->
             countable (cart_qty i)) ->
  In same cart -> cartKind name' note' same = true ->
  cart_qty same = Finite n ->
  0 <= n <= cartQty name' note' cart.
Proof.
  unfold cartQty. induction cart as [|i l IH]; [contradiction|].
  intros Hc Hin Hk Hq. cbn [sumOver fold_right].
  assert (Hl : 0 <= sumOver (fun i => if cartKind name' note' i
                                      then integerOf (cart_qty i) else 0) l).
  { clear - Hc. induction l as [|j l IH]; [cbn; lia|].
    cbn [sumOver fold_right].
    assert (0 <= sumOver (fun i => if cartKind name' note' i
                                   then integerOf (cart_qty i) else 0) l).
    { apply IH. intros k [->|Hk]; apply Hc; simpl; auto. }
    unfold sumOver in *.
    destruct (cartKind name' note' j) eqn:E; [|lia].
    destruct (Hc j (or_intror (or_introl eq_refl)) E) as (m & -> & Hm).
    cbn [integerOf]. lia. }
  unfold sumOver in *.
  destruct Hin as [->|Hin].
  - rewrite Hk, Hq. cbn [integerOf].
    destruct (Hc same (or_introl eq_refl) Hk) as (m & Em & Hm).
    rewrite Hq in Em. injection Em as <-. lia.
  - assert (0 <= n <= fold_right
             (fun x acc => (if cartKind name' note' x
                            then integerOf (cart_qty x) else 0) + acc) 0 l).
    { apply IH; auto. intros k Hk'. apply Hc. now right. }
    destruct (cartKind name' note' i) eqn:E; [|lia].
    destruct (Hc i (or_introl eq_refl) E) as (m & -> & Hm).
    cbn [integerOf]. lia.
Qed.

(** X4. [Cart.add] merges, as long as the quantities are integers that
    doubles count exactly (from 0 to [2^53], the sum included): what is
    added goes to the quantity of its kind (name and note), the cart holds
    one item of the kind afterwards if it held none or one before (never
    one more than before), and the items of every other kind stay as they
    are. *)
Theorem cart_add_merges (name' note' uuid : jsstring) (q : Z)
  (cart : list CartItem) :
  NoDup (map cart_id cart) ->
  ~ In uuid (map cart_id cart) ->
  (forall i, In i cart -> cartKind name' note' i = true ->
             countable (cart_qty i)) ->
  0 <= q ->
  cartQty name' note' cart + q <= 2 ^ 53 ->
  let cart' := Cart.add name' (Finite q) note' uuid cart in
  cartQty name' note' cart' = cartQty name' note' cart + q
  /\ cartCount name' note' cart' = Z.max 1 (cartCount name' note' cart)
  /\ (forall n t, (n, t) <> (name', note') ->
        cartQty n t cart' = cartQty n t cart
        /\ cartCount n t cart' = cartCount n t cart)
  /\ NoDup (map cart_id cart').
Proof.
  intros Hnd Hfresh Hcnt Hq Hsum cart'. unfold cart', Cart.add,
    CartStore.putCart.
  assert (Hpos : forall l : list CartItem, 0 <= cartCount name' note' l).
  { intros l. unfold cartCount. induction l as [|i l IH]; simpl; [lia|].
    destruct (cartKind name' note' i); lia. }
  destruct (find _ (CartStore.getCartAll cart)) as [same|] eqn:E.
  - apply find_some in E as [Hin Hk].
    apply inKeyOrder_In in Hin.
    assert (Hk' : cartKind name' note' same = true) by exact Hk.
    apply andb_true_iff in Hk as [Hn Ht]. apply str_eqb_eq in Hn, Ht.
    destruct (Hcnt same Hin Hk') as (m & Em & Hm).
    pose proof (cartQty_ge name' note' same cart m Hcnt Hin Hk' Em) as Hge.
    assert (Eadd : Number_add (cart_qty same) (Finite q) = Finite (m + q)).
    { rewrite Em. cbn [Number_add]. apply toDouble_exact. lia. }
    rewrite Eadd.
    set (it := {| cart_id := cart_id same; cart_name := cart_name same;
                  cart_qty := Finite (m + q);
                  cart_note := cart_note same |}).
    assert (Hit : cartKind name' note' it = true) by exact Hk'.
    assert (Hone : 1 <= cartCount name' note' cart).
    { unfold cartCount. clear - Hin Hk' Hpos.
      induction cart as [|i l IH]; [contradiction|]. simpl.
      destruct Hin as [->|Hin].
      - rewrite Hk'. specialize (Hpos l). unfold cartCount in Hpos. lia.
      - specialize (IH Hin). destruct (cartKind name' note' i); lia. }
    unfold cartQty, cartCount in *.
    repeat split.
    + rewrite (sumOver_upsert_present _ _ it same) by auto.
      rewrite Hk', Hit, Em. simpl. lia.
    + rewrite (sumOver_upsert_present _ _ it same) by auto.
      rewrite Hk', Hit. lia.
    + rewrite (sumOver_upsert_present _ _ it same) by auto.
      replace (cartKind n t it) with (cartKind n t same) by reflexivity.
      rewrite (cartKind_other name' note' n t same) by auto. lia.
    + rewrite (sumOver_upsert_present _ _ it same) by auto.
      replace (cartKind n t it) with (cartKind n t same) by reflexivity.
      lia.
    + now apply upsert_keys_NoDup.
  - set (it := {| cart_id := uuid; cart_name := name';
                  cart_qty := Finite q; cart_note := note' |}).
    assert (Hit : cartKind name' note' it = true).
    { unfold cartKind, it. cbn. now rewrite !str_eqb_refl. }
    assert (Hzero : cartCount name' note' cart = 0
                    /\ cartQty name' note' cart = 0).
    { unfold cartCount, cartQty.
      split; apply sumOver_nonneg_zero; intros i Hi;
        apply (inKeyOrder_In cart_id) in Hi;
        pose proof (find_none _ _ E i Hi) as Hk;
        change (cartKind name' note' i = false) in Hk; now rewrite Hk. }
    destruct Hzero as [Hc Hq0].
    unfold cartQty, cartCount in *.
    repeat split.
    + rewrite sumOver_upsert_absent by exact Hfresh. rewrite Hit, Hq0.
      simpl. lia.
    + rewrite sumOver_upsert_absent by exact Hfresh. rewrite Hit, Hc.
      reflexivity.
    + rewrite sumOver_upsert_absent by exact Hfresh.
      rewrite (cartKind_other name' note' n t it) by auto. lia.
    + rewrite sumOver_upsert_absent by exact Hfresh.
      rewrite (cartKind_other name' note' n t it) by auto. lia.
    + now apply upsert_keys_NoDup.
Qed.

Lemma cart_add_merges_witness :
  let cart := [ {| cart_id := str "c-1"; cart_name := str "Filter";
                   cart_qty := Finite 2; cart_note := str "M8" |} ] in
  let cart' := Cart.add (str "Filter") (Finite 1) (str "M8")
                 (str "c-2") cart in
  cartQty (str "Filter") (str "M8") cart' = 3
  /\ cartCount (str "Filter") (str "M8") cart' = 1.
Proof.
  intros cart cart'.
  destruct (cart_add_merges (str "Filter") (str "M8")
              (str "c-2") 1 cart) as (H1 & H2 & _).
  - repeat constructor. simpl. tauto.
  - simpl. intros [H|[]]. discriminate H.
  - intros i [<-|[]] _. exists 2. split; [reflexivity|].
    change (2 ^ 53) with 9007199254740992. lia.
  - lia.
  - change (2 ^ 53) with 9007199254740992. cbn. lia.
  - split; [exact H1|exact H2].
Defined.

(* ------------------------------------------------------------------ *)
(** ** Admin *)

Lemma setPin_nothing encode digest p1 p2 s :
  Admin.setPin encode digest p1 p2 s = s.
Proof.
  unfold Admin.setPin. destruct p1 as [|v1]; [reflexivity|].
  destruct (isEmpty (U.trim v1)); [reflexivity|].
  destruct p2 as [|v2]; [reflexivity|].
  destruct (negb (str_eqb v1 v2)); reflexivity.
Qed.

Lemma login_nothing encode digest pin s :
  Admin.login encode digest pin s = s.
Proof. destruct pin; reflexivity. Qed.

Lemma admin_step encode digest e s :
  Admin.admin s = false ->
  Admin.step encode digest e s
  = if Admin.isLoad e then Admin.loadToggles s else s.
Proof.
  intros Ha. destruct e; cbn [Admin.step Admin.isLoad].
  - reflexivity.
  - destruct s as [a h l th to]. cbn [Admin.admin] in Ha. subst a.
    unfold Admin.clickHome, Admin.onChangeHome.
    cbn [Admin.admin Admin.settings Admin.toggleHome Admin.toggleOverride
         Admin.admin_pin_hash negb].
    now rewrite negb_involutive.
  - destruct s as [a h l th to]. cbn [Admin.admin] in Ha. subst a.
    unfold Admin.clickOverride, Admin.onChangeOverride.
    cbn [Admin.admin Admin.settings Admin.toggleHome Admin.toggleOverride
         Admin.admin_pin_hash negb].
    now rewrite negb_involutive.
  - apply setPin_nothing.
  - apply login_nothing.
Qed.

(** X6. Nobody becomes admin, and the admin panel stores nothing.  Both PIN
    listeners hash the PIN with [U.sha256] on the [Uint8Array] of the
    encoder and end there; the switches are for an admin only, and read
    back as unchecked whatever is stored.  From a start without admin
    rights, whatever is clicked and typed: the state is the state of the
    start, with both boxes unchecked once [loadToggles] has run; the admin
    flag is off, the stored PIN hash and the settings are untouched. *)
Theorem admin_never_granted (encode : jsstring -> list Z)
  (digest : list Z -> list Z) (es : list Admin.Event) (s : Admin.State) :
  Admin.admin s = false ->
  let s' := fold_left (fun s e => Admin.step encode digest e s) es s in
  s' = (if existsb Admin.isLoad es
        then {| Admin.admin := false;
                Admin.admin_pin_hash := Admin.admin_pin_hash s;
                Admin.settings := Admin.settings s;
                Admin.toggleHome := false;
                Admin.toggleOverride := false |}
        else s)
  /\ Admin.admin s' = false
  /\ Admin.admin_pin_hash s' = Admin.admin_pin_hash s
  /\ Admin.settings s' = Admin.settings s.
Proof.
  intros Ha. cbn zeta.
  assert (H : fold_left (fun s e => Admin.step encode digest e s) es s
              = if existsb Admin.isLoad es
                then {| Admin.admin := false;
                        Admin.admin_pin_hash := Admin.admin_pin_hash s;
                        Admin.settings := Admin.settings s;
                        Admin.toggleHome := false;
                        Admin.toggleOverride := false |}
                else s).
  { revert s Ha. induction es as [|e es IH]; intros s Ha; [reflexivity|].
    cbn [fold_left existsb]. rewrite (admin_step _ _ _ _ Ha).
    destruct (Admin.isLoad e); cbn [orb].
    - rewrite IH by exact Ha. cbn [Admin.loadToggles Admin.admin
        Admin.admin_pin_hash Admin.settings].
      unfold Admin.loadToggles. rewrite Ha.
      now destruct (existsb Admin.isLoad es).
    - now apply IH. }
  rewrite H. split; [reflexivity|].
  destruct (existsb Admin.isLoad es); cbn; auto.
Qed.

Lemma admin_never_granted_witness :
  let encode := map Z.of_N in
  let digest := fun buf : list Z => [Z.of_nat (List.length buf); 7] in
  let s := {| Admin.admin := false;
              Admin.admin_pin_hash := Some (str "0000");
              Admin.settings := []; Admin.toggleHome := false;
              Admin.toggleOverride := false |} in
  Admin.admin
    (fold_left (fun s e => Admin.step encode digest e s)
       [ Admin.clickSetPin (Okay (str "1234")) (Okay (str "1234"));
         Admin.clickLogin (Okay (str "1234"));
         Admin.changeHome ] s) = false.
Proof.
  intros encode digest s.
  exact (proj1 (proj2 (admin_never_granted encode digest
           [ Admin.clickSetPin (Okay (str "1234")) (Okay (str "1234"));
             Admin.clickLogin (Okay (str "1234"));
             Admin.changeHome ] s eq_refl))).
Defined.

(* ------------------------------------------------------------------ *)
(** ** The gallery *)

Lemma press_inv n b g :
  0 < n -> GalleryInv n g ->
  exists g', Gallery.press n b g = Some g' /\ GalleryInv n g'.
Proof.
  intros Hn [Hi (k & Hk & Hz)].
  assert (Hn0 : (n =? 0) = false) by (apply Z.eqb_neq; lia).
  assert (Hrem : forall i, 0 <= i + n -> 0 <= Z.rem (i + n) n < n).
  { intros i Hi'. rewrite Z.rem_mod_nonneg by lia.
    apply Z.mod_pos_bound. lia. }
  destruct b; unfold Gallery.press, Gallery.setImg; rewrite Hn0;
    eexists; (split; [reflexivity|]);
    split; cbn [Gallery.idx Gallery.zoom]; try (apply Hrem; lia).
  - now exists k.
  - now exists k.
  - exists (Z.min 12 (k + 1)). split; [lia|]. rewrite Hz.
    destruct (Z.le_gt_cases (k + 1) 12) as [H|H].
    + rewrite Z.min_r by lia. rewrite Q.min_r.
      * unfold Qeq, Qplus. simpl. lia.
      * unfold Qle, Qplus. simpl. lia.
    + rewrite Z.min_l by lia. rewrite Q.min_l.
      * reflexivity.
      * unfold Qle, Qplus. simpl. lia.
  - exists (Z.max 2 (k - 1)). split; [lia|]. rewrite Hz.
    destruct (Z.le_gt_cases 2 (k - 1)) as [H|H].
    + rewrite Z.max_r by lia. rewrite Q.max_r.
      * unfold Qeq, Qminus, Qplus, Qopp. simpl. lia.
      * unfold Qle, Qminus, Qplus, Qopp. simpl. lia.
    + rewrite Z.max_l by lia. rewrite Q.max_l.
      * reflexivity.
      * unfold Qle, Qminus, Qplus, Qopp. simpl. lia.
Qed.

(** X8. On a gallery with pages no click throws, the index stays an index of
    a page, and the zoom stays a multiple of a quarter from a half to
    three: [k / 4] for an integer [k] from 2 to 12.  On an empty gallery
    every click throws. *)
Theorem gallery_in_range (n : Z) (bs : list Gallery.Button) :
  (0 < n ->
   exists g, Gallery.presses n bs Gallery.init = Some g
             /\ 0 <= Gallery.idx g < n
             /\ (1 # 2 <= Gallery.zoom g <= 3)%Q
             /\ exists k, 2 <= k <= 12 /\ (Gallery.zoom g == k # 4)%Q)
  /\ (forall b g, Gallery.presses 0 (b :: bs) g = None).
Proof.
  split.
  - intros Hn.
    assert (H : forall g, GalleryInv n g ->
              exists g', Gallery.presses n bs g = Some g'
                         /\ GalleryInv n g').
    { induction bs as [|b bs IH]; intros g Hg; [now exists g|].
      destruct (press_inv n b g Hn Hg) as (g1 & E & Hg1).
      cbn [Gallery.presses]. rewrite E. now apply IH. }
    destruct (H Gallery.init) as (g & E & Hi & k & Hk & Hz).
    { split; [cbn; lia|]. exists 4. split; [lia|reflexivity]. }
    exists g. split; [exact E|]. split; [exact Hi|]. split.
    + rewrite Hz. unfold Qle. simpl. lia.
    + now exists k.
  - intros b g. cbn [Gallery.presses].
    destruct b; reflexivity.
Qed.

Lemma next_steps n k : forall g,
  0 < n -> 0 <= Gallery.idx g < n ->
  exists g', Gallery.presses n (repeat Gallery.next k) g = Some g'
             /\ Gallery.idx g' = (Gallery.idx g + Z.of_nat k) mod n
             /\ Gallery.zoom g' = Gallery.zoom g.
Proof.
  induction k as [|k IH]; intros g Hn Hi.
  - exists g. split; [reflexivity|]. split; [|reflexivity].
    rewrite Z.add_0_r, Z.mod_small; lia.
  - cbn [repeat Gallery.presses Gallery.press]. unfold Gallery.setImg.
    replace (n =? 0) with false by (symmetry; apply Z.eqb_neq; lia).
    set (g1 := {| Gallery.idx := Z.rem (Gallery.idx g + 1 + n) n;
                  Gallery.zoom := Gallery.zoom g |}).
    assert (E1 : Gallery.idx g1 = (Gallery.idx g + 1) mod n).
    { unfold g1. cbn [Gallery.idx]. rewrite Z.rem_mod_nonneg by lia.
      rewrite <- (Z.mod_add (Gallery.idx g + 1) 1 n) by lia.
      f_equal. lia. }
    destruct (IH g1 Hn) as (g' & E & Hi' & Hz).
    { rewrite E1. apply Z.mod_pos_bound. lia. }
    exists g'. split; [exact E|]. split; [|exact Hz].
    rewrite Hi', E1, Zplus_mod_idemp_l. f_equal. lia.
Qed.

(** X9. The gallery goes round: [next] on the last page shows the first,
    [prev] on the first shows the last, [prev] undoes [next], and as many
    clicks on [next] as there are pages show the same page again. *)
Theorem gallery_wraps (n : Z) (g : Gallery.State) :
  0 < n -> 0 <= Gallery.idx g < n ->
  (exists g1, Gallery.press n Gallery.next g = Some g1
     /\ Gallery.idx g1 = (if Gallery.idx g =? n - 1 then 0
                          else Gallery.idx g + 1)
     /\ Gallery.press n Gallery.prev g1 = Some g)
  /\ (exists g2, Gallery.press n Gallery.prev g = Some g2
        /\ Gallery.idx g2 = (if Gallery.idx g =? 0 then n - 1
                             else Gallery.idx g - 1))
  /\ Gallery.presses n (repeat Gallery.next (Z.to_nat n)) g = Some g.
Proof.
  intros Hn Hi. destruct g as [i z]. cbn [Gallery.idx] in *.
  assert (Hn0 : (n =? 0) = false) by (apply Z.eqb_neq; lia).
  assert (Hnext : Z.rem (i + 1 + n) n = if i =? n - 1 then 0 else i + 1).
  { rewrite Z.rem_mod_nonneg by lia.
    destruct (Z.eqb_spec i (n - 1)) as [->|Hne].
    - replace (n - 1 + 1 + n) with (0 + 2 * n) by lia.
      now rewrite Z.mod_add by lia.
    - replace (i + 1 + n) with (i + 1 + 1 * n) by lia.
      rewrite Z.mod_add by lia. apply Z.mod_small. lia. }
  assert (Hprev : forall j, 0 <= j < n ->
            Z.rem (j - 1 + n) n = if j =? 0 then n - 1 else j - 1).
  { intros j Hj. rewrite Z.rem_mod_nonneg by lia.
    destruct (Z.eqb_spec j 0) as [->|Hne].
    - replace (0 - 1 + n) with (n - 1) by lia. apply Z.mod_small. lia.
    - replace (j - 1 + n) with (j - 1 + 1 * n) by lia.
      rewrite Z.mod_add by lia. apply Z.mod_small. lia. }
  repeat split.
  - unfold Gallery.press, Gallery.setImg. rewrite Hn0.
    cbn [Gallery.idx Gallery.zoom].
    eexists. split; [reflexivity|]. cbn [Gallery.idx Gallery.zoom].
    split; [exact Hnext|]. rewrite Hnext. f_equal. f_equal.
    destruct (Z.eqb_spec i (n - 1)) as [->|Hne].
    + rewrite Hprev by lia. reflexivity.
    + rewrite Hprev by lia.
      destruct (Z.eqb_spec (i + 1) 0); lia.
  - unfold Gallery.press, Gallery.setImg. rewrite Hn0.
    cbn [Gallery.idx Gallery.zoom].
    eexists. split; [reflexivity|]. cbn [Gallery.idx]. now apply Hprev.
  - destruct (next_steps n (Z.to_nat n) {| Gallery.idx := i;
                                           Gallery.zoom := z |} Hn Hi)
      as (g' & E & Hi' & Hz).
    rewrite E. f_equal. destruct g' as [i' z']. cbn in Hi', Hz. subst z'.
    f_equal. rewrite Hi', Z2Nat.id by lia.
    replace (i + n) with (i + 1 * n) by lia.
    rewrite Z.mod_add by lia. apply Z.mod_small. lia.
Qed.

Lemma gallery_wraps_witness :
  Gallery.presses 3 (repeat Gallery.next 3)
    {| Gallery.idx := 2; Gallery.zoom := 1 |}
  = Some {| Gallery.idx := 2; Gallery.zoom := 1 |}.
Proof.
  apply (gallery_wraps 3 {| Gallery.idx := 2; Gallery.zoom := 1 |});
    cbn; lia.
Defined.

(* ------------------------------------------------------------------ *)
(** ** Trimming *)

Lemma trimStart_fixed c r :
  isWhiteSpace c = false -> U.trimStart (c :: r) = c :: r.
Proof. intros H. simpl. now rewrite H. Qed.

Lemma trimStart_head s :
  U.trimStart s = []
  \/ exists c r, U.trimStart s = c :: r /\ isWhiteSpace c = false.
Proof.
  induction s as [|c s IH]; simpl; [now left|].
  destruct (isWhiteSpace c) eqn:E; [exact IH|].
  right. now exists c, s.
Qed.

Lemma trimStart_idempotent s : U.trimStart (U.trimStart s) = U.trimStart s.
Proof.
  destruct (trimStart_head s) as [->|(c & r & -> & H)]; [reflexivity|].
  now apply trimStart_fixed.
Qed.

Lemma trimStart_snoc l c :
  isWhiteSpace c = false ->
  exists w, U.trimStart (l ++ [c]) = w ++ [c].
Proof.
  intros H. induction l as [|x l [w IH]]; simpl.
  - rewrite H. now exists [].
  - destruct (isWhiteSpace x).
    + now exists w.
    + now exists (x :: l).
Qed.

(** [trimEnd] leaves the front of a string that begins with no white
    space. *)
Lemma trimEnd_keeps_front s :
  U.trimStart s = s -> U.trimStart (U.trimEnd s) = U.trimEnd s.
Proof.
  unfold U.trimEnd. destruct s as [|c r]; [reflexivity|].
  intros H.
  assert (Hc : isWhiteSpace c = false).
  { simpl in H. destruct (isWhiteSpace c) eqn:E; [|reflexivity].
    exfalso. destruct (trimStart_suffix r) as [p Hp].
    rewrite H in Hp. apply (f_equal (@List.length _)) in Hp.
    rewrite length_app in Hp. simpl in Hp. lia. }
  cbn [rev]. destruct (trimStart_snoc (rev r) c Hc) as [w ->].
  rewrite rev_app_distr. cbn [rev app]. now apply trimStart_fixed.
Qed.

Lemma trim_idempotent s : U.trim (U.trim s) = U.trim s.
Proof.
  unfold U.trim.
  rewrite (trimEnd_keeps_front _ (trimStart_idempotent s)).
  unfold U.trimEnd. now rewrite rev_involutive, trimStart_idempotent.
Qed.

Lemma filter_comm {A} (p q : A -> bool) (l : list A) :
  filter p (filter q l) = filter q (filter p l).
Proof.
  induction l as [|x l IH]; simpl; [reflexivity|].
  destruct (p x) eqn:Ep, (q x) eqn:Eq; simpl; rewrite ?Ep, ?Eq, IH;
    reflexivity.
Qed.

Lemma strip_sanitize_comm s :
  U.stripSeparators (U.sanitize s) = U.sanitize (U.stripSeparators s).
Proof. apply filter_comm. Qed.

(** White space around a number does not count for [normLs]. *)
Lemma normLs_trim toUpperCase s :
  U.normLs toUpperCase (U.trim s) = U.normLs toUpperCase s.
Proof.
  unfold U.normLs.
  now rewrite !strip_sanitize_comm, strip_trim.
Qed.

(* ------------------------------------------------------------------ *)
(** ** What a step does to the documents *)

Lemma upsert_In_new {A} (key : A -> jsstring) x l : In x (upsert key x l).
Proof.
  induction l as [|y l IH]; simpl; [now left|].
  destruct (str_eqb (key y) (key x)); simpl; auto.
Qed.

(** A step leaves the documents as they are, or [handleSubmit] adds one
    under a fresh key. *)
Lemma handle_docs toUpperCase localeCompare e a :
  enabled e a ->
  StoreInv toUpperCase (db a) /\ PanelInv a ->
  let docs := inbound_docs (db a) in
  let docs' := inbound_docs (db (handle toUpperCase localeCompare e a)) in
  docs' = docs
  \/ (exists lsnr supp date uuid now user,
        ~ In uuid (map doc_id docs)
        /\ isEmpty (U.trim (U.sanitize lsnr)) = false
        /\ docs' = docs ++
             [ {| doc_id := uuid; ls_nr := U.trim (U.sanitize lsnr);
                  ls_nr_normalized :=
                    U.normLs toUpperCase (U.trim (U.sanitize lsnr));
                  supplier := U.trim (U.sanitize supp); date_doc := date;
                  status := ohne_zeichnung;
                  created_at := now; created_by := user;
                  updated_at := None; updated_by := None |} ]).
Proof.
  destruct a as [st pn]. unfold PanelInv. cbn [db panel].
  intros Hen [[Hdk Him Hnorm] Hpan].
  assert (Hok : imagesOk (inbound_docs st) st) by now split.
  destruct e as [lsnr supp date force uuid now user
                | id yes now user
                | inboundId user now captures
                | docId | i | user | user | user | auto online];
    unfold onPanel; cbn [handle db panel enabled] in Hen |- *.
  - (* submit *)
    unfold UI.handleSubmit.
    destruct (_ || _) eqn:Eg; [now left|].
    rewrite exec_bind. destruct (_ && _); [now left|].
    right. exists lsnr, supp, date, uuid, now, user.
    apply orb_false_elim in Eg as [Eg _].
    apply orb_false_elim in Eg as [Eg _].
    split; [exact Hen|]. split; [exact Eg|].
    apply hasKey_false_iff in Hen.
    rewrite !exec_bind. unfold UI.checkDuplicate, DB.addInboundDoc, exec.
    cbn. rewrite Hen. reflexivity.
  - (* confirmDrawing *)
    rewrite confirmDrawing_exec. now left.
  - (* saveAll *)
    destruct Hen as [Hd _]. left.
    now destruct (saveAll_ok _ inboundId user now captures _ Hd Hok).
  - now left.
  - now left.
  - destruct pn as [[docId p]|]; cbn [db]; [|now left].
    destruct Hpan as [H1 H2]. left.
    now destruct (btnDelete_ok _ docId user p _ H1 H2 Hok) as [[? _] _].
  - destruct pn as [[docId p]|]; cbn [db]; [|now left].
    destruct Hpan as [H1 H2]. left.
    now destruct (btnReorderUp_ok _ docId user p _ H1 H2 Hok) as [[? _] _].
  - destruct pn as [[docId p]|]; cbn [db]; [|now left].
    destruct Hpan as [H1 H2]. left.
    now destruct (btnReorderDown_ok _ docId user p _ H1 H2 Hok)
      as [[? _] _].
  - left.
    now destruct (bumpSyncBadge_ok localeCompare _ auto online _ Hok).
Qed.

(** Every stored document is without drawing. *)
Lemma reachable_status toUpperCase localeCompare a :
  reachable toUpperCase localeCompare a ->
  forall d, In d (inbound_docs (db a)) -> status d = ohne_zeichnung.
Proof.
  induction 1 as [|a e Hr IH Hen]; [intros d []|].
  pose proof (reachable_inv _ _ _ Hr) as Hinv.
  destruct (handle_docs toUpperCase localeCompare e a Hen Hinv)
    as [E|(lsnr & supp & date & uuid & now & user & _ & _ & E)];
    cbv zeta in E; rewrite E; [exact IH|].
  intros d Hd. apply in_app_or in Hd as [Hd|[<-|[]]]; [auto|reflexivity].
Qed.

(** X10. No step deletes or changes a stored document: after every step
    every document is in the store as it was, the same in every field.
    In particular no step changes a status: the click that confirms the
    drawings ends at its [put], and every stored document is and stays
    without drawing. *)
Theorem documents_persist (toUpperCase : jsstring -> jsstring)
  (localeCompare : jsstring -> jsstring -> Z) (a : App) (e : Event)
  (d : InboundDoc) :
  reachable toUpperCase localeCompare a ->
  enabled e a ->
  In d (inbound_docs (db a)) ->
  In d (inbound_docs (db (handle toUpperCase localeCompare e a)))
  /\ status d = ohne_zeichnung
  /\ forall d', In d' (inbound_docs
                         (db (handle toUpperCase localeCompare e a))) ->
                status d' = ohne_zeichnung.
Proof.
  intros Hr Hen Hin.
  pose proof (reachable_inv _ _ _ Hr) as Hinv.
  split; [|split].
  - destruct (handle_docs toUpperCase localeCompare e a Hen Hinv)
      as [E|(lsnr & supp & date & uuid & now & user & _ & _ & E)];
      cbv zeta in E; rewrite E; [exact Hin|].
    apply in_or_app. now left.
  - exact (reachable_status _ _ _ Hr d Hin).
  - apply (reachable_status toUpperCase localeCompare).
    now apply reach_step.
Qed.

Lemma documents_persist_witness :
  let a := run U.asciiUpper codeUnitCompare twoPages initApp in
  let e := EvConfirmDrawing (str "doc-1") true (str "2024-01-02T09:00")
             (str "user-1") in
  let d := {| doc_id := str "doc-1"; ls_nr := str "A-100";
              ls_nr_normalized := str "A100"; supplier := str "X";
              date_doc := str "2024-01-01"; status := ohne_zeichnung;
              created_at := str "2024-01-01T08:00";
              created_by := str "user-1";
              updated_at := None; updated_by := None |} in
  In d (inbound_docs (db a))
  /\ In d (inbound_docs (db (handle U.asciiUpper codeUnitCompare e a))).
Proof.
  intros a e d.
  assert (Hin : In d (inbound_docs (db a))) by (now left).
  split; [exact Hin|].
  exact (proj1 (documents_persist U.asciiUpper codeUnitCompare a e d
                  twoPages_reachable I Hin)).
Defined.

(* ------------------------------------------------------------------ *)
(** ** The search *)

Lemma reachable_numbers toUpperCase localeCompare a :
  reachable toUpperCase localeCompare a ->
  NumberInv toUpperCase (db a).
Proof.
  induction 1 as [|a e Hr IH Hen]; [intros d []|].
  pose proof (reachable_inv _ _ _ Hr) as Hinv.
  destruct (handle_docs toUpperCase localeCompare e a Hen Hinv)
    as [E|(lsnr & supp & date & uuid & now & user & _ & Hne & E)];
    cbv zeta in E; unfold NumberInv; rewrite E.
  - exact IH.
  - intros d Hd. apply in_app_or in Hd as [Hd|[<-|[]]]; [now apply IH|].
    cbn [ls_nr ls_nr_normalized]. now rewrite trim_idempotent.
Qed.

Lemma tiles_eval l st :
  Lists.tiles l st = (map (fun d => (d, pageCount st (doc_id d))) l, st).
Proof.
  induction l as [|d l IH]; [reflexivity|].
  cbn [Lists.tiles map]. unfold bind, ret. cbn [fst snd].
  change (snd (DB.countImages (doc_id d) st)) with st.
  rewrite IH. reflexivity.
Qed.

(** X11. In every state the application reaches, a stored document is found by
    its number, in any spelling that differs by case (as far as
    [toUpperCase] goes), separators and white space only: the search shows
    a document with the same normalised number.  The query must not have
    the form of a date: the stored number itself is found unless it has
    that form. *)
Theorem search_finds_number (toUpperCase : jsstring -> jsstring)
  (localeCompare : jsstring -> jsstring -> Z) (a : App) (d : InboundDoc)
  (q : jsstring) :
  reachable toUpperCase localeCompare a ->
  In d (inbound_docs (db a)) ->
  U.normLs toUpperCase q = U.normLs toUpperCase (ls_nr d) ->
  isEmpty (U.trim q) = false ->
  Text.isDateStr (U.trim q) = false ->
  (exists d' pages,
      eval (Lists.search toUpperCase localeCompare q) (db a)
      = Detail d' pages
      /\ In d' (inbound_docs (db a))
      /\ ls_nr_normalized d' = ls_nr_normalized d
      /\ pages = eval (DB.listImages (doc_id d')) (db a))
  /\ (Text.isDateStr (U.trim (ls_nr d)) = false ->
      exists d' pages,
        eval (Lists.search toUpperCase localeCompare (ls_nr d)) (db a)
        = Detail d' pages
        /\ ls_nr_normalized d' = ls_nr_normalized d).
Proof.
  intros Hr Hin Hq Hne Hdate.
  destruct (reachable_numbers _ _ _ Hr d Hin) as [Hne' Hn].
  assert (Hfind : forall q',
            U.normLs toUpperCase q' = U.normLs toUpperCase (ls_nr d) ->
            isEmpty (U.trim q') = false ->
            Text.isDateStr (U.trim q') = false ->
            exists d' pages,
              eval (Lists.search toUpperCase localeCompare q') (db a)
              = Detail d' pages
              /\ In d' (inbound_docs (db a))
              /\ ls_nr_normalized d' = ls_nr_normalized d
              /\ pages = eval (DB.listImages (doc_id d')) (db a)).
  { intros q' Hq' Hb Hd. unfold Lists.search. rewrite Hb, Hd.
    rewrite eval_bind. change (exec (DB.findInboundByLs _) (db a)) with (db a).
    rewrite normLs_trim, Hq', <- Hn.
    unfold eval at 2, DB.findInboundByLs. cbn [fst].
    destruct (inKeyOrder doc_id (filter _ (inbound_docs (db a))))
      as [|d' r] eqn:Ef.
    - exfalso.
      assert (Hd' : In d (inKeyOrder doc_id
                            (filter (fun d0 => str_eqb (ls_nr_normalized d0)
                                                 (ls_nr_normalized d))
                               (inbound_docs (db a))))).
      { apply inKeyOrder_In, filter_In.
        split; [exact Hin|apply str_eqb_refl]. }
      rewrite Ef in Hd'. exact Hd'.
    - assert (Hd' : In d' (d' :: r)) by now left.
      rewrite <- Ef in Hd'.
      apply inKeyOrder_In, filter_In in Hd' as [Hin' He].
      apply str_eqb_eq in He.
      exists d', (eval (DB.listImages (doc_id d')) (db a)).
      repeat split; assumption. }
  split; [now apply Hfind|].
  intros Hd. destruct (Hfind (ls_nr d) eq_refl Hne' Hd)
    as (d' & pages & E & _ & He & _).
  now exists d', pages.
Qed.

Lemma search_finds_number_witness :
  let a := run U.asciiUpper codeUnitCompare twoPages initApp in
  exists d' pages,
    eval (Lists.search U.asciiUpper codeUnitCompare (str " a 100 ")) (db a)
    = Detail d' pages
    /\ ls_nr_normalized d' = str "A100".
Proof.
  intros a.
  set (d := {| doc_id := str "doc-1"; ls_nr := str "A-100";
               ls_nr_normalized := str "A100"; supplier := str "X";
               date_doc := str "2024-01-01"; status := ohne_zeichnung;
               created_at := str "2024-01-01T08:00";
               created_by := str "user-1";
               updated_at := None; updated_by := None |}).
  assert (Hin : In d (inbound_docs (db a))) by (now left).
  destruct (search_finds_number U.asciiUpper codeUnitCompare a d
              (str " a 100 ") twoPages_reachable Hin eq_refl eq_refl
              eq_refl) as [(d' & pages & E & _ & He & _) _].
  exists d', pages. auto.
Defined.

(** X12. A query that has the form of a date is looked up as a date only: the
    hits are the documents of that day, each once, with the number of its
    pages, and there is none when no document has the date, whatever the
    numbers of the documents are. *)
Theorem search_by_date (toUpperCase : jsstring -> jsstring)
  (localeCompare : jsstring -> jsstring -> Z) (st : Store)
  (q : jsstring) :
  Text.isDateStr (U.trim q) = true ->
  let ofDay := filter (fun d => str_eqb (date_doc d) (U.trim q))
                 (inbound_docs st) in
  match eval (Lists.search toUpperCase localeCompare q) st with
  | NoHits => ofDay = []
  | DateHits tiles =>
      ofDay <> []
      /\ Permutation (map fst tiles) ofDay
      /\ forall d n, In (d, n) tiles -> n = pageCount st (doc_id d)
  | _ => False
  end.
Proof.
  intros Hd ofDay. unfold Lists.search. rewrite Hd.
  assert (Hne : isEmpty (U.trim q) = false).
  { destruct (U.trim q); [discriminate Hd|reflexivity]. }
  rewrite Hne, eval_bind.
  change (exec (Lists.listInboundByDate localeCompare (U.trim q)) st)
    with st.
  set (l := eval (Lists.listInboundByDate localeCompare (U.trim q)) st).
  assert (Hp : Permutation l ofDay).
  { unfold l, eval, Lists.listInboundByDate. cbn [fst].
    rewrite sort_perm. apply inKeyOrder_perm. }
  clearbody l. destruct l as [|d r].
  - cbn. apply Permutation_nil in Hp. exact Hp.
  - unfold eval, bind, ret. rewrite tiles_eval. cbn [fst snd].
    split; [|split].
    + intros E. rewrite E in Hp. symmetry in Hp.
      apply Permutation_nil in Hp. discriminate.
    + rewrite map_map. cbn [fst]. rewrite map_id. exact Hp.
    + intros d0 n H. apply in_map_iff in H as (x & Hx & _).
      now inversion Hx.
Qed.

Lemma search_by_date_witness :
  let a := run U.asciiUpper codeUnitCompare twoPages initApp in
  exists tiles,
    eval (Lists.search U.asciiUpper codeUnitCompare (str "2024-01-01"))
      (db a) = DateHits tiles
    /\ map snd tiles = [2].
Proof.
  intros a.
  pose proof (search_by_date U.asciiUpper codeUnitCompare (db a)
                (str "2024-01-01") eq_refl) as H.
  cbv zeta in H.
  destruct (eval (Lists.search U.asciiUpper codeUnitCompare
                    (str "2024-01-01")) (db a)) as [| |tiles|] eqn:E;
    try contradiction; try discriminate.
  exists tiles. split; [reflexivity|].
  vm_compute in E. injection E as <-. reflexivity.
Defined.

(* ------------------------------------------------------------------ *)
(** ** The lists of documents *)

Lemma existsb_str_eqb x l : existsb (str_eqb x) l = true <-> In x l.
Proof.
  rewrite existsb_exists. split.
  - intros (y & Hy & E). apply str_eqb_eq in E. now subst.
  - intros H. exists x. split; [exact H|apply str_eqb_refl].
Qed.

Lemma uniq_In l : forall seen x,
  In x (uniq seen l) <-> In x l /\ ~ In x seen.
Proof.
  induction l as [|y l IH]; intros seen x; cbn [uniq]; [simpl; tauto|].
  destruct (existsb (str_eqb y) seen) eqn:E.
  - apply existsb_str_eqb in E. rewrite IH. simpl. split.
    + tauto.
    + intros [[<-|H] Hn]; tauto.
  - assert (Hy : ~ In y seen).
    { intros H. apply existsb_str_eqb in H. congruence. }
    simpl. rewrite IH. simpl. split.
    + intros [<-|[H Hn]]; [tauto|]. split; [tauto|]. tauto.
    + intros [[<-|H] Hn]; [tauto|].
      destruct (str_eqb_spec y x) as [->|Hne]; [tauto|]. right.
      split; [exact H|]. intros [?|?]; tauto.
Qed.

Lemma uniq_NoDup l : forall seen, NoDup (uniq seen l).
Proof.
  induction l as [|y l IH]; intros seen; cbn [uniq]; [constructor|].
  destruct (existsb (str_eqb y) seen); [apply IH|].
  constructor; [|apply IH].
  rewrite uniq_In. simpl. tauto.
Qed.

Lemma codeUnitCompare_flip a : forall b,
  codeUnitCompare b a = - codeUnitCompare a b.
Proof.
  induction a as [|x a IH]; intros [|y b]; simpl; try reflexivity.
  destruct (N.ltb_spec x y), (N.ltb_spec y x); try reflexivity;
    try lia. apply IH.
Qed.

Lemma insertSorted_sorted {A} (cmp : A -> A -> Z) x l :
  (forall a b, 0 < cmp a b -> cmp b a <= 0) ->
  Sorted (fun a b => cmp a b <= 0) l ->
  Sorted (fun a b => cmp a b <= 0) (insertSorted cmp x l).
Proof.
  intros Htot. induction 1 as [|y l Hs IH Hh]; simpl.
  - repeat constructor.
  - destruct (Z.leb_spec (cmp x y) 0) as [Hle|Hgt].
    + constructor; [now constructor|now constructor].
    + constructor; [exact IH|].
      destruct l as [|z l]; simpl.
      * constructor. now apply Htot.
      * destruct (cmp x z <=? 0); constructor.
        -- now apply Htot.
        -- now inversion Hh.
Qed.

Lemma sort_sorted {A} (cmp : A -> A -> Z) l :
  (forall a b, 0 < cmp a b -> cmp b a <= 0) ->
  Sorted (fun a b => cmp a b <= 0) (sort cmp l).
Proof.
  intros Htot. induction l as [|x l IH]; simpl; [constructor|].
  now apply insertSorted_sorted.
Qed.

(** X13. [refreshLists] shows every stored document on exactly one tile, in
    the list of its status and with the number of its pages; the supplier
    suggestions are the suppliers of the stored documents, each once, in
    the order of their code units. *)
Theorem refreshLists_shows_all (localeCompare : jsstring -> jsstring -> Z)
  (st : Store) :
  let r := eval (Lists.refreshLists localeCompare) st in
  let suppliers := fst (fst r) in
  let listOhne := snd (fst r) in
  let listMit := snd r in
  NoDup suppliers
  /\ Sorted (fun a b => codeUnitCompare a b <= 0) suppliers
  /\ (forall s, In s suppliers <->
                exists d, In d (inbound_docs st) /\ supplier d = s)
  /\ Permutation (map fst listOhne ++ map fst listMit) (inbound_docs st)
  /\ (forall d n, In (d, n) listOhne ->
        status d = ohne_zeichnung /\ n = pageCount st (doc_id d))
  /\ (forall d n, In (d, n) listMit ->
        status d = mit_zeichnung /\ n = pageCount st (doc_id d)).
Proof.
  intros r suppliers listOhne listMit.
  set (mit := eval (DB.listInboundByStatus localeCompare mit_zeichnung) st).
  set (ohne := eval (DB.listInboundByStatus localeCompare ohne_zeichnung) st).
  assert (Er : r = (sort codeUnitCompare (uniq [] (map supplier (mit ++ ohne))),
                    map (fun d => (d, pageCount st (doc_id d))) ohne,
                    map (fun d => (d, pageCount st (doc_id d))) mit)).
  { unfold r, Lists.refreshLists, eval, bind, ret.
    cbn [fst snd DB.listInboundByStatus]. rewrite !tiles_eval.
    reflexivity. }
  unfold suppliers, listOhne, listMit. rewrite Er. cbn [fst snd].
  assert (Hall : Permutation (ohne ++ mit) (inbound_docs st))
    by apply status_split.
  assert (Htile : forall l : list InboundDoc,
            map fst (map (fun d => (d, pageCount st (doc_id d))) l) = l).
  { intros l. rewrite map_map. apply map_id. }
  repeat split.
  - eapply Permutation_NoDup; [symmetry; apply sort_perm|apply uniq_NoDup].
  - apply sort_sorted. intros a b H. rewrite codeUnitCompare_flip. lia.
  - intros H. apply sort_In, uniq_In in H as [H _].
    apply in_map_iff in H as (d & E & Hd). exists d. split; [|exact E].
    apply (Permutation_in d Hall). apply in_or_app.
    apply in_app_or in Hd. tauto.
  - intros (d & Hd & E). apply sort_In, uniq_In. split; [|tauto].
    apply in_map_iff. exists d. split; [exact E|].
    apply (Permutation_in d (Permutation_sym Hall)) in Hd.
    apply in_or_app. apply in_app_or in Hd. tauto.
  - now rewrite !Htile.
  - apply in_map_iff in H as (x & Hx & Hin). inversion Hx; subst.
    apply sort_In, inKeyOrder_In, filter_In in Hin as [_ Hs].
    now destruct (status d).
  - apply in_map_iff in H as (x & Hx & _). now inversion Hx.
  - apply in_map_iff in H as (x & Hx & Hin). inversion Hx; subst.
    apply sort_In, inKeyOrder_In, filter_In in Hin as [_ Hs].
    now destruct (status d).
  - apply in_map_iff in H as (x & Hx & _). now inversion Hx.
Qed.

(* ------------------------------------------------------------------ *)
(** ** The log *)

Lemma extendsLog_refl st : extendsLog st st.
Proof. exists []. now rewrite app_nil_r. Qed.

Lemma extendsLog_trans st1 st2 st3 :
  extendsLog st1 st2 -> extendsLog st2 st3 -> extendsLog st1 st3.
Proof.
  intros [l1 E1] [l2 E2]. exists (l1 ++ l2).
  now rewrite E2, E1, app_assoc.
Qed.

Lemma extendsLog_same st st' : logs st' = logs st -> extendsLog st st'.
Proof. intros E. exists []. now rewrite app_nil_r. Qed.

Lemma bind_extendsLog {A B} (m : DBM A) (k : A -> DBM B) st :
  extendsLog st (exec m st) ->
  (forall x st', extendsLog st' (exec (k x) st')) ->
  extendsLog st (exec (bind m k) st).
Proof.
  intros H1 H2. rewrite exec_bind. eapply extendsLog_trans; [exact H1|].
  apply H2.
Qed.

Lemma addLog_extendsLog l st : extendsLog st (exec (DB.addLog l) st).
Proof. now exists [l]. Qed.

Lemma putImage_extendsLog img st : extendsLog st (exec (DB.putImage img) st).
Proof.
  apply extendsLog_same. unfold exec, DB.putImage.
  now destruct (DB.pageTaken _ _).
Qed.

Lemma addImage_extendsLog img st : extendsLog st (exec (DB.addImage img) st).
Proof.
  apply extendsLog_same. unfold exec, DB.addImage.
  now destruct (_ || _).
Qed.

Lemma forEach_extendsLog {A} (body : A -> DBM unit) l :
  (forall x st, extendsLog st (exec (body x) st)) ->
  forall st, extendsLog st (exec (forEach l body) st).
Proof.
  intros H. induction l as [|x l IH]; intros st; [apply extendsLog_refl|].
  cbn [forEach]. apply bind_extendsLog; [apply H|]. intros _. apply IH.
Qed.

Lemma savePages_extendsLog inboundId user now captures :
  forall page st,
    extendsLog st (exec (Camera.savePages inboundId user now page captures)
                     st).
Proof.
  induction captures as [|[id cap] rest IH]; intros page st;
    [apply extendsLog_refl|].
  cbn [Camera.savePages].
  apply bind_extendsLog; [apply addImage_extendsLog|]. intros _ st1.
  apply bind_extendsLog; [apply addLog_extendsLog|]. intros _ st2.
  apply IH.
Qed.

Lemma reorder_extendsLog a b l (p : Panel) st :
  extendsLog st
    (exec (DB.putImage a ;; DB.putImage b ;; DB.addLog l ;; ret p) st).
Proof.
  apply bind_extendsLog; [apply putImage_extendsLog|]. intros _ st1.
  apply bind_extendsLog; [apply putImage_extendsLog|]. intros _ st2.
  apply bind_extendsLog; [apply addLog_extendsLog|]. intros _ st3.
  apply extendsLog_refl.
Qed.

Lemma handle_extendsLog toUpperCase localeCompare e a :
  extendsLog (db a) (db (handle toUpperCase localeCompare e a)).
Proof.
  destruct a as [st pn].
  destruct e as [lsnr supp date force uuid now user
                | id yes now user
                | inboundId user now captures
                | docId | i | user | user | user | auto online];
    cbn [handle db panel]; unfold onPanel; cbn [db panel];
    try apply extendsLog_refl.
  - (* submit *)
    unfold UI.handleSubmit.
    destruct (_ || _); [apply extendsLog_refl|].
    apply bind_extendsLog; [apply extendsLog_refl|]. intros dup st1.
    destruct (_ && _); [apply extendsLog_refl|].
    apply bind_extendsLog.
    + apply extendsLog_same. unfold exec, DB.addInboundDoc.
      now destruct (hasKey _ _ _).
    + intros _ st2.
      apply bind_extendsLog; [apply addLog_extendsLog|]. intros _ st3.
      apply extendsLog_refl.
  - (* confirmDrawing *)
    rewrite confirmDrawing_exec. apply extendsLog_refl.
  - (* saveAll *)
    unfold Camera.saveAll.
    apply bind_extendsLog; [apply extendsLog_refl|]. intros ex st1.
    apply savePages_extendsLog.
  - (* delete *)
    destruct pn as [[docId p]|]; cbn [db]; [|apply extendsLog_refl].
    unfold UI.btnDelete.
    destruct (sel p <? 0); [apply extendsLog_refl|].
    destruct (nth_error _ _); [|apply extendsLog_refl].
    apply bind_extendsLog; [now apply extendsLog_same|]. intros _ st1.
    apply bind_extendsLog; [apply addLog_extendsLog|]. intros _ st2.
    apply bind_extendsLog; [|intros; apply extendsLog_refl].
    apply forEach_extendsLog. apply putImage_extendsLog.
  - (* reorder up *)
    destruct pn as [[docId p]|]; cbn [db]; [|apply extendsLog_refl].
    unfold UI.btnReorderUp.
    destruct (sel p <=? 0); [apply extendsLog_refl|].
    destruct (nth_error _ _); [|apply extendsLog_refl].
    destruct (nth_error _ _); [|apply extendsLog_refl].
    apply reorder_extendsLog.
  - (* reorder down *)
    destruct pn as [[docId p]|]; cbn [db]; [|apply extendsLog_refl].
    unfold UI.btnReorderDown.
    destruct (_ || _); [apply extendsLog_refl|].
    destruct (nth_error _ _); [|apply extendsLog_refl].
    destruct (nth_error _ _); [|apply extendsLog_refl].
    apply reorder_extendsLog.
  - (* sync *)
    unfold UI.bumpSyncBadge.
    apply bind_extendsLog; [apply extendsLog_refl|]. intros ohne st1.
    apply bind_extendsLog; [apply extendsLog_refl|]. intros mit st2.
    apply bind_extendsLog.
    + apply extendsLog_same. now rewrite countPending_exec.
    + intros pending st3. destruct (_ && _); [|apply extendsLog_refl].
      apply bind_extendsLog; [|intros; apply extendsLog_refl].
      unfold UI.markSynced. apply forEach_extendsLog. intros d st4.
      apply bind_extendsLog; [apply extendsLog_refl|]. intros ims st5.
      apply forEach_extendsLog. intros im st6. unfold UI.syncImage.
      destruct (negb _); [apply putImage_extendsLog|apply extendsLog_refl].
Qed.

(** X14. The log is only ever added to: whatever events happen, in whatever
    state, the log afterwards begins with the log before. *)
Theorem log_append_only (toUpperCase : jsstring -> jsstring)
  (localeCompare : jsstring -> jsstring -> Z) (es : list Event) (a : App) :
  exists l,
    logs (db (run toUpperCase localeCompare es a)) = logs (db a) ++ l.
Proof.
  change (extendsLog (db a) (db (run toUpperCase localeCompare es a))).
  revert a. induction es as [|e es IH]; intros a; [apply extendsLog_refl|].
  unfold run. cbn [fold_left].
  eapply extendsLog_trans; [apply handle_extendsLog|apply IH].
Qed.

(* ------------------------------------------------------------------ *)
(** ** The page manager on an up-to-date list *)

Lemma sort_sorted_id {A} (cmp : A -> A -> Z) l :
  Sorted (fun a b => cmp a b <= 0) l -> sort cmp l = l.
Proof.
  induction 1 as [|x l Hs IH Hh]; [reflexivity|].
  cbn [sort fold_right]. fold (sort cmp l). rewrite IH.
  destruct Hh as [|y l Hxy]; [reflexivity|].
  cbn [insertSorted]. destruct (Z.leb_spec (cmp x y) 0); [reflexivity|lia].
Qed.

Lemma byPageNo_total a b : 0 < byPageNo a b -> byPageNo b a <= 0.
Proof. unfold byPageNo. lia. Qed.

Lemma listImages_sorted inbound st :
  Sorted (fun a b => byPageNo a b <= 0) (eval (DB.listImages inbound) st).
Proof. apply sort_sorted, byPageNo_total. Qed.

(** The panel that [manageImages] opens and a click on a thumbnail
    selects in: the list of the store, as it is. *)
Lemma fresh_panel docId i st :
  UI.selectThumb i (eval (UI.manageImages docId) st)
  = {| imgs := eval (DB.listImages docId) st; sel := i |}.
Proof.
  pose proof (sort_sorted_id _ _ (listImages_sorted docId st)) as E.
  unfold UI.selectThumb, UI.manageImages, UI.render.
  rewrite eval_bind. change (exec (DB.listImages docId) st) with st.
  unfold eval at 1, ret. cbn [fst imgs sel]. now rewrite !E.
Qed.

Lemma Permutation_filter {A} (f : A -> bool) l l' :
  Permutation l l' -> Permutation (filter f l) (filter f l').
Proof.
  induction 1 as [|x l l' _ IH|x y l|l l' l'' _ IH1 _ IH2]; simpl.
  - constructor.
  - destruct (f x); [now constructor|exact IH].
  - destruct (f x), (f y); try reflexivity. constructor.
  - now transitivity (filter f l').
Qed.

Lemma filter_map_same {A} (P : A -> bool) (g : A -> A) l :
  (forall y, In y l -> P (g y) = P y) ->
  filter P (map g l) = map g (filter P l).
Proof.
  induction l as [|y l IH]; intros H; simpl; [reflexivity|].
  rewrite (H y) by now left.
  destruct (P y); simpl; rewrite IH; auto;
    intros z Hz; apply H; now right.
Qed.

Lemma map_fixed {A} (g : A -> A) l :
  (forall y, In y l -> g y = y) -> map g l = l.
Proof.
  intros H. rewrite <- (map_id l) at 2. now apply map_ext_in.
Qed.

Lemma removeAt_split {A} (l1 l2 : list A) x :
  removeAt (List.length l1) (l1 ++ x :: l2) = l1 ++ l2.
Proof. induction l1 as [|y l1 IH]; simpl; [reflexivity|now rewrite IH]. Qed.

Lemma renumber_pages l : forall p,
  map page_no (renumber p l)
  = map (fun k => p + Z.of_nat k) (seq 0 (List.length l)).
Proof.
  induction l as [|x l IH]; intros p; [reflexivity|].
  cbn [renumber map List.length seq page_no setPageNo].
  rewrite IH, <- seq_shift, map_map. f_equal; [lia|].
  apply map_ext. intros k. lia.
Qed.

Lemma seq_increasing n : forall a,
  StronglySorted Z.lt (map Z.of_nat (seq a n)).
Proof.
  induction n as [|n IH]; intros a; [constructor|].
  cbn [seq map]. constructor; [apply IH|].
  apply Forall_forall. intros x Hx.
  apply in_map_iff in Hx as (k & <- & Hk). apply in_seq in Hk. lia.
Qed.

Lemma StronglySorted_map {A B} (f : A -> B) (R : B -> B -> Prop) l :
  StronglySorted R (map f l) <-> StronglySorted (fun a b => R (f a) (f b)) l.
Proof.
  induction l as [|x l IH]; simpl.
  - split; constructor.
  - split; intros H; apply StronglySorted_inv in H as [H1 H2];
      (constructor; [now apply IH|]).
    + rewrite Forall_map in H2. exact H2.
    + rewrite Forall_map. exact H2.
Qed.

Lemma StronglySorted_app_inv {A} (R : A -> A -> Prop) l1 x l2 :
  StronglySorted R (l1 ++ x :: l2) -> StronglySorted R (l1 ++ l2).
Proof.
  induction l1 as [|y l1 IH]; simpl; intros H.
  - now apply StronglySorted_inv in H.
  - apply StronglySorted_inv in H as [H1 H2].
    constructor; [now apply IH|].
    rewrite Forall_app in *. destruct H2 as [H2 H3].
    split; [exact H2|]. now inversion H3.
Qed.

(** A list in ascending order of a key and a list in strictly ascending
    order of the key with the same elements are the same list. *)
Lemma sorted_perm_eq {A} (f : A -> Z) (l : list A) : forall l',
  StronglySorted (fun a b => f a <= f b) l ->
  StronglySorted (fun a b => f a < f b) l' ->
  Permutation l l' ->
  l = l'.
Proof.
  induction l as [|x l IH]; intros l' Hs Hs' Hp.
  - apply Permutation_nil in Hp. now subst.
  - destruct l' as [|y l'].
    + symmetry in Hp. apply Permutation_nil in Hp. discriminate.
    + apply StronglySorted_inv in Hs as [Hs Hx].
      apply StronglySorted_inv in Hs' as [Hs' Hy].
      rewrite Forall_forall in Hx, Hy.
      assert (x = y).
      { assert (Hin : In x (y :: l'))
          by (apply (Permutation_in x Hp); now left).
        assert (Hin' : In y (x :: l))
          by (apply (Permutation_in y (Permutation_sym Hp)); now left).
        destruct Hin as [->|Hin]; [reflexivity|].
        destruct Hin' as [->|Hin']; [reflexivity|].
        specialize (Hx _ Hin'). specialize (Hy _ Hin). lia. }
      subst y. f_equal. apply IH; try assumption.
      now apply Permutation_cons_inv in Hp.
Qed.

Lemma sort_byPageNo_sorted l :
  StronglySorted (fun a b => page_no a <= page_no b) (sort byPageNo l).
Proof.
  apply Sorted_StronglySorted.
  - intros a b c. lia.
  - eapply Sorted_ind
      with (P := fun l => Sorted (fun a b => page_no a <= page_no b) l);
      [constructor| |apply (sort_sorted byPageNo l byPageNo_total)].
    intros a l0 _ IH Hh. constructor; [exact IH|].
    destruct Hh as [|b l1 Hab]; constructor. unfold byPageNo in Hab. lia.
Qed.

(** The list of the pages of a document is determined by the records of
    the document, in whatever order the store holds them. *)
Lemma listImages_of_perm inbound st (l : list Image) :
  Permutation
    (filter (fun i => str_eqb (inbound_id i) inbound) (inbound_images st)) l ->
  StronglySorted (fun a b => page_no a < page_no b) l ->
  eval (DB.listImages inbound) st = l.
Proof.
  intros Hp Hs. unfold eval, DB.listImages. cbn [fst].
  apply (sorted_perm_eq page_no); [apply sort_byPageNo_sorted|exact Hs|].
  now rewrite sort_perm.
Qed.

Lemma putImage_free img st :
  DB.pageTaken img (inbound_images st) = false ->
  exec (DB.putImage img) st
  = with_images st (upsert img_id img (inbound_images st)).
Proof. intros H. unfold exec, DB.putImage. now rewrite H. Qed.

(** The loop [for (const im of imgs) { im.page_no = p++; await
    DB.putImage(im); }] over records that are in the store, in ascending
    order of their pages, none below [p]: every [put] goes through, and
    the records of the document end up as the renumbered ones. *)
Lemma renumber_puts docId S : forall p done st,
  NoDup (map img_id (inbound_images st)) ->
  Permutation
    (filter (fun x => str_eqb (inbound_id x) docId) (inbound_images st))
    (done ++ S) ->
  (forall x, In x done -> page_no x < p) ->
  StronglySorted (fun a b => page_no a < page_no b) S ->
  (forall s, In s S -> p <= page_no s) ->
  let st' := exec (forEach (renumber p S) DB.putImage) st in
  NoDup (map img_id (inbound_images st'))
  /\ Permutation
       (filter (fun x => str_eqb (inbound_id x) docId) (inbound_images st'))
       (done ++ renumber p S)
  /\ filter (fun x => negb (str_eqb (inbound_id x) docId))
       (inbound_images st')
     = filter (fun x => negb (str_eqb (inbound_id x) docId))
         (inbound_images st)
  /\ inbound_docs st' = inbound_docs st.
Proof.
  induction S as [|s S IH]; intros p done st Hnd Hperm Hdone Hsort Hlow.
  - cbn. repeat split; auto.
  - intros st'. unfold st'. cbn [renumber forEach]. rewrite exec_bind.
    set (I := inbound_images st) in *.
    set (r := setPageNo s p).
    apply StronglySorted_inv in Hsort as [Hsort Hs].
    rewrite Forall_forall in Hs.
    assert (Hmem : forall x, In x (done ++ s :: S) ->
              In x I /\ inbound_id x = docId).
    { intros x Hx. apply (Permutation_in x (Permutation_sym Hperm)) in Hx.
      apply filter_In in Hx as [H1 H2]. now apply str_eqb_eq in H2. }
    destruct (Hmem s) as [HsI Hsd]; [apply in_or_app; right; now left|].
    assert (Hother : forall x, In x done \/ In x S ->
              In x I /\ img_id x <> img_id s).
    { intros x Hx.
      destruct (Hmem x) as [HxI _].
      { apply in_or_app. destruct Hx; [now left|right; now right]. }
      split; [exact HxI|]. intros E.
      assert (x = s) by (eapply NoDup_key_eq; eauto). subst x.
      destruct Hx as [Hx|Hx].
      - specialize (Hdone _ Hx). specialize (Hlow s (or_introl eq_refl)).
        lia.
      - specialize (Hs _ Hx). lia. }
    assert (Hfree : DB.pageTaken r I = false).
    { unfold DB.pageTaken. apply not_true_is_false. intros H.
      apply existsb_exists in H as (x & HxI & H).
      apply andb_true_iff in H as [H Hpg].
      apply andb_true_iff in H as [Hid Hin].
      apply negb_true_iff in Hid. apply str_eqb_eq in Hin.
      apply Z.eqb_eq in Hpg. cbn in Hin, Hpg, Hid.
      assert (Hx : In x (done ++ s :: S)).
      { apply (Permutation_in x Hperm). apply filter_In.
        split; [exact HxI|]. rewrite Hin, Hsd. apply str_eqb_refl. }
      apply in_app_or in Hx as [Hx|[<-|Hx]].
      - specialize (Hdone _ Hx). lia.
      - now rewrite str_eqb_refl in Hid.
      - specialize (Hs _ Hx). specialize (Hlow s (or_introl eq_refl)).
        lia. }
    rewrite (putImage_free r st Hfree). fold I.
    set (repl := fun y => if str_eqb (img_id y) (img_id r) then r else y).
    assert (EI : upsert img_id r I = map repl I).
    { apply upsert_present; [exact Hnd|].
      change (img_id r) with (img_id s). now apply in_map. }
    assert (Hrepl_s : forall y, In y I -> img_id y = img_id s -> y = s).
    { intros y Hy E. eapply NoDup_key_eq; eauto. }
    assert (Hrepl_id : forall y, img_id y <> img_id s -> repl y = y).
    { intros y Hy. unfold repl. change (img_id r) with (img_id s).
      destruct (str_eqb_spec (img_id y) (img_id s)); [contradiction|].
      reflexivity. }
    assert (Hrepl_r : repl s = r).
    { unfold repl. change (img_id r) with (img_id s).
      now rewrite str_eqb_refl. }
    assert (Hinb : forall y, In y I -> inbound_id (repl y) = inbound_id y).
    { intros y Hy. unfold repl. change (img_id r) with (img_id s).
      destruct (str_eqb_spec (img_id y) (img_id s)) as [E|E];
        [|reflexivity].
      now rewrite (Hrepl_s y Hy E). }
    destruct (IH (p + 1) (done ++ [r]) (with_images st (upsert img_id r I)))
      as (H1 & H2 & H3 & H4).
    + cbn [inbound_images with_images]. now apply upsert_keys_NoDup.
    + cbn [inbound_images with_images]. rewrite EI.
      rewrite filter_map_same
        by (intros y Hy; now rewrite (Hinb y Hy)).
      rewrite <- app_assoc. cbn [app].
      apply (Permutation_map repl) in Hperm.
      rewrite map_app in Hperm. cbn [map] in Hperm.
      rewrite Hrepl_r in Hperm.
      rewrite (map_fixed repl done) in Hperm
        by (intros y Hy; apply Hrepl_id, Hother; now left).
      rewrite (map_fixed repl S) in Hperm
        by (intros y Hy; apply Hrepl_id, Hother; now right).
      exact Hperm.
    + intros x Hx. apply in_app_or in Hx as [Hx|[<-|[]]].
      * specialize (Hdone _ Hx). lia.
      * cbn. lia.
    + exact Hsort.
    + intros s' Hs'. specialize (Hs _ Hs').
      specialize (Hlow s (or_introl eq_refl)). lia.
    + cbv zeta in H1, H2, H3, H4.
      split; [exact H1|]. split.
      * rewrite <- app_assoc in H2. exact H2.
      * split; [|exact H4]. rewrite H3.
        cbn [inbound_images with_images]. rewrite EI.
        rewrite filter_map_same
          by (intros y Hy; now rewrite (Hinb y Hy)).
        apply map_fixed. intros y Hy. apply filter_In in Hy as [Hy Hn].
        apply Hrepl_id. intros E. rewrite (Hrepl_s y Hy E), Hsd in Hn.
        now rewrite str_eqb_refl in Hn.
Qed.

Lemma filter_remove_key {A} (key : A -> jsstring) l1 x l2 :
  NoDup (map key (l1 ++ x :: l2)) ->
  filter (fun y => negb (str_eqb (key y) (key x))) (l1 ++ x :: l2)
  = l1 ++ l2.
Proof.
  intros Hnd. rewrite filter_app. cbn [filter]. rewrite str_eqb_refl.
  cbn [negb].
  rewrite map_app in Hnd. cbn [map] in Hnd.
  pose proof (NoDup_remove_2 _ _ _ Hnd) as Hx.
  f_equal; apply filter_id_Forall, Forall_forall; intros y Hy;
    apply negb_true_iff;
    (destruct (str_eqb_spec (key y) (key x)) as [E|E]; [|reflexivity]);
    exfalso; apply Hx; rewrite <- E; apply in_or_app;
    [left|right]; now apply in_map.
Qed.

Lemma filter_implied {A} (P Q : A -> bool) l :
  (forall x, In x l -> P x = true -> Q x = true) ->
  filter P (filter Q l) = filter P l.
Proof.
  induction l as [|x l IH]; intros H; simpl; [reflexivity|].
  assert (IH' : filter P (filter Q l) = filter P l)
    by (apply IH; intros y Hy; apply H; now right).
  destruct (Q x) eqn:Eq; simpl; rewrite IH'; [reflexivity|].
  destruct (P x) eqn:Ep; [|reflexivity].
  rewrite (H x (or_introl eq_refl) Ep) in Eq. discriminate.
Qed.

Lemma renumber_sorted l : forall p,
  StronglySorted (fun a b => page_no a < page_no b) (renumber p l).
Proof.
  intros p. apply (StronglySorted_map page_no Z.lt).
  rewrite renumber_pages. revert p.
  induction (List.length l) as [|n IH]; intros p; [constructor|].
  cbn [seq map]. constructor.
  - rewrite <- seq_shift, map_map.
    rewrite (map_ext _ (fun k => (p + 1) + Z.of_nat k)) by (intros; lia).
    apply IH.
  - apply Forall_forall. intros x Hx.
    apply in_map_iff in Hx as (k & <- & Hk). apply in_seq in Hk. lia.
Qed.

Lemma removeAt_length {A} (l : list A) : forall n,
  (n < List.length l)%nat ->
  List.length (removeAt n l) = (List.length l - 1)%nat.
Proof.
  induction l as [|x l IH]; intros [|n] H; simpl in *; try lia.
  rewrite IH by lia. lia.
Qed.

(** The delete button in a page manager that shows the pages as the store
    has them. *)
Lemma btnDelete_fresh (docId user : jsstring) (i : Z) (st : Store) :
  NoDup (map img_id (inbound_images st)) ->
  dense (pagesOf docId st) ->
  0 <= i < Z.of_nat (List.length (pagesOf docId st)) ->
  let p := UI.selectThumb i (eval (UI.manageImages docId) st) in
  let st' := exec (UI.btnDelete docId user p) st in
  let p' := eval (UI.btnDelete docId user p) st in
  pagesOf docId st'
  = map Z.of_nat (seq 1 (List.length (pagesOf docId st) - 1))
  /\ imgs p' = eval (DB.listImages docId) st'
  /\ (forall other, other <> docId ->
        eval (DB.listImages other) st' = eval (DB.listImages other) st)
  /\ inbound_docs st' = inbound_docs st.
Proof.
  intros Hnd Hdense Hi p st' p'. unfold st', p', p. clear st' p' p.
  rewrite fresh_panel.
  set (L := eval (DB.listImages docId) st).
  assert (HN : List.length (pagesOf docId st) = List.length L)
    by (unfold pagesOf; now rewrite length_map).
  rewrite HN in *.
  assert (HLs : StronglySorted (fun a b => page_no a < page_no b) L).
  { apply (StronglySorted_map page_no Z.lt).
    change (map page_no L) with (pagesOf docId st).
    rewrite Hdense. apply seq_increasing. }
  assert (HLlow : forall s, In s L -> 1 <= page_no s).
  { intros s Hs. apply (in_map page_no) in Hs.
    change (map page_no L) with (pagesOf docId st) in Hs.
    rewrite Hdense in Hs. apply in_map_iff in Hs as (k & <- & Hk).
    apply in_seq in Hk. lia. }
  assert (HLk : NoDup (map img_id L)) by now apply listImages_keys.
  assert (HLp : Permutation
                  (filter (fun x => str_eqb (inbound_id x) docId)
                     (inbound_images st)) L).
  { symmetry. apply sort_perm. }
  destruct (nth_error L (Z.to_nat i)) as [im|] eqn:Eim.
  2:{ apply nth_error_None in Eim. lia. }
  destruct (nth_error_split _ _ Eim) as (L1 & L2 & EL & Hlen).
  assert (ES : removeAt (Z.to_nat i) L = L1 ++ L2).
  { rewrite EL, <- Hlen. apply removeAt_split. }
  unfold UI.btnDelete. cbn [sel imgs].
  replace (i <? 0) with false by (symmetry; apply Z.ltb_ge; lia).
  fold L. rewrite Eim, ES.
  rewrite !exec_bind, !eval_bind.
  set (st2 := exec (DB.addLog _) (exec (DB.deleteImage (img_id im)) st)).
  change (exec (ret (UI.render {| imgs := renumber 1 (L1 ++ L2);
                                  sel := -1 |}))
            (exec (forEach (renumber 1 (L1 ++ L2)) DB.putImage) st2))
    with (exec (forEach (renumber 1 (L1 ++ L2)) DB.putImage) st2).
  assert (E2 : inbound_images st2
               = filter (fun x => negb (str_eqb (img_id x) (img_id im)))
                   (inbound_images st)) by reflexivity.
  destruct (renumber_puts docId (L1 ++ L2) 1 [] st2)
    as (H1 & H2 & H3 & H4).
  - rewrite E2. now apply NoDup_map_filter.
  - rewrite E2, filter_comm. cbn [app].
    rewrite (Permutation_filter _ _ _ HLp), EL.
    rewrite filter_remove_key by (now rewrite <- EL). reflexivity.
  - intros x [].
  - rewrite EL in HLs. now apply StronglySorted_app_inv in HLs.
  - intros s Hs. apply HLlow. rewrite EL. apply in_or_app.
    apply in_app_or in Hs as [Hs|Hs]; [now left|right; now right].
  - cbv zeta in H1, H2, H3, H4. cbn [app] in H2.
    set (st3 := exec (forEach (renumber 1 (L1 ++ L2)) DB.putImage) st2) in *.
    assert (E3 : eval (DB.listImages docId) st3 = renumber 1 (L1 ++ L2)).
    { apply listImages_of_perm; [exact H2|apply renumber_sorted]. }
    repeat split.
    + unfold pagesOf. rewrite E3, renumber_pages.
      rewrite <- ES, removeAt_length by lia.
      rewrite <- seq_shift, map_map. apply map_ext. intros k. lia.
    + unfold eval at 1, ret. cbn [fst UI.render imgs]. rewrite E3.
      apply sort_sorted_id. apply StronglySorted_Sorted.
      eapply StronglySorted_ind
        with (P := fun l => StronglySorted
                              (fun a b => byPageNo a b <= 0) l);
        [constructor| |apply (renumber_sorted (L1 ++ L2) 1)].
      intros a l _ IH Ha. constructor; [exact IH|].
      eapply Forall_impl; [|exact Ha]. unfold byPageNo. intros; lia.
    + intros other Hne. unfold eval, DB.listImages. cbn [fst]. f_equal.
      assert (Himp : forall x : Image,
                str_eqb (inbound_id x) other = true ->
                negb (str_eqb (inbound_id x) docId) = true).
      { intros x Hx. apply str_eqb_eq in Hx. apply negb_true_iff.
        destruct (str_eqb_spec (inbound_id x) docId); congruence. }
      rewrite <- (filter_implied _
                    (fun x => negb (str_eqb (inbound_id x) docId))
                    (inbound_images st3)) by (intros x _; apply Himp).
      rewrite H3, filter_implied by (intros x _; apply Himp).
      rewrite E2. apply filter_implied.
      intros y Hy Hyo. apply str_eqb_eq in Hyo. apply negb_true_iff.
      destruct (str_eqb_spec (img_id y) (img_id im)) as [E|E];
        [|reflexivity].
      exfalso. assert (Him : In im L) by (eapply nth_error_In; eauto).
      apply listImages_In in Him as [Him Hd].
      assert (y = im)
        by (apply (NoDup_key_eq img_id (inbound_images st)); assumption).
      subst y. congruence.
    + exact H4.
Qed.

(** X15. In a page manager that shows the pages as the store has them,
    deleting a page of a document numbered 1..N leaves the document
    numbered 1..N-1: the remaining pages move up.  The panel shows the
    pages as the store has them again, and the pages of the other
    documents and the documents are untouched. *)
Theorem delete_keeps_pages_dense (docId user : jsstring) (i : Z)
  (st : Store) :
  NoDup (map img_id (inbound_images st)) ->
  dense (pagesOf docId st) ->
  0 <= i < Z.of_nat (List.length (pagesOf docId st)) ->
  let p := UI.selectThumb i (eval (UI.manageImages docId) st) in
  let st' := exec (UI.btnDelete docId user p) st in
  let p' := eval (UI.btnDelete docId user p) st in
  pagesOf docId st'
  = map Z.of_nat (seq 1 (List.length (pagesOf docId st) - 1))
  /\ imgs p' = eval (DB.listImages docId) st'
  /\ (forall other, other <> docId ->
        eval (DB.listImages other) st' = eval (DB.listImages other) st)
  /\ inbound_docs st' = inbound_docs st.
Proof. apply btnDelete_fresh. Qed.

Lemma delete_keeps_pages_dense_witness :
  let st := db (run U.asciiUpper codeUnitCompare twoPages initApp) in
  let p := UI.selectThumb 0 (eval (UI.manageImages (str "doc-1")) st) in
  pagesOf (str "doc-1") st = [1; 2]
  /\ pagesOf (str "doc-1")
       (exec (UI.btnDelete (str "doc-1") (str "user-1") p) st) = [1].
Proof.
  intros st p. split; [reflexivity|].
  apply (delete_keeps_pages_dense (str "doc-1") (str "user-1") 0 st).
  - apply distinct_NoDup. reflexivity.
  - reflexivity.
  - vm_compute. split; [discriminate|reflexivity].
Defined.

(* ------------------------------------------------------------------ *)
(** ** Reordering pages *)

Lemma putImage_taken img st :
  DB.pageTaken img (inbound_images st) = true ->
  exec (DB.putImage img) st = st.
Proof. intros H. unfold exec, DB.putImage. now rewrite H. Qed.

(** The two [put]s of a swap: each gives a record the page that the other
    record still holds in the store, so the unique index on document and
    page rejects both, and the store keeps the records as they were. *)
Lemma swap_puts (x y : Image) (l : LogEntry) (p : Panel) st :
  In x (inbound_images st) -> In y (inbound_images st) ->
  img_id x <> img_id y -> inbound_id x = inbound_id y ->
  inbound_images
    (exec (DB.putImage (setPageNo x (page_no y)) ;;
           DB.putImage (setPageNo y (page_no x)) ;;
           DB.addLog l ;; ret p) st)
  = inbound_images st.
Proof.
  intros Hx Hy Hne Hin.
  assert (H1 : DB.pageTaken (setPageNo x (page_no y)) (inbound_images st)
               = true).
  { apply existsb_exists. exists y. split; [exact Hy|]. cbn.
    rewrite Hin, str_eqb_refl, Z.eqb_refl.
    destruct (str_eqb_spec (img_id y) (img_id x)); [congruence|].
    reflexivity. }
  assert (H2 : DB.pageTaken (setPageNo y (page_no x)) (inbound_images st)
               = true).
  { apply existsb_exists. exists x. split; [exact Hx|]. cbn.
    rewrite Hin, str_eqb_refl, Z.eqb_refl.
    destruct (str_eqb_spec (img_id x) (img_id y)); [congruence|].
    reflexivity. }
  rewrite !exec_bind. rewrite (putImage_taken _ _ H1).
  rewrite (putImage_taken _ _ H2). reflexivity.
Qed.

Lemma setAt_split {A} (l1 l2 : list A) x y :
  setAt (List.length l1) y (l1 ++ x :: l2) = l1 ++ y :: l2.
Proof. induction l1 as [|z l1 IH]; simpl; [reflexivity|now rewrite IH]. Qed.

Lemma sorted_by_pages (l l' : list Image) :
  map page_no l = map page_no l' ->
  StronglySorted (fun a b => page_no a <= page_no b) l ->
  Sorted (fun a b => byPageNo a b <= 0) l'.
Proof.
  intros E H. apply (StronglySorted_map page_no Z.le) in H.
  rewrite E in H. apply (StronglySorted_map page_no Z.le) in H.
  apply StronglySorted_Sorted.
  eapply StronglySorted_ind
    with (P := fun l => StronglySorted (fun a b => byPageNo a b <= 0) l);
    [constructor| |exact H].
  intros a l0 _ IH Ha. constructor; [exact IH|].
  eapply Forall_impl; [|exact Ha]. unfold byPageNo. intros; lia.
Qed.

Lemma strictly_sorted (l : list Z) :
  StronglySorted Z.le l -> NoDup l -> StronglySorted Z.lt l.
Proof.
  induction 1 as [|x l Hs IH Hx]; intros Hnd; [constructor|].
  inversion Hnd as [|? ? Hnx Hnd']; subst.
  constructor; [now apply IH|].
  rewrite Forall_forall in *. intros y Hy. specialize (Hx y Hy).
  assert (x <> y) by (intros ->; contradiction). lia.
Qed.

Lemma sort_app {A} (cmp : A -> A -> Z) l1 l2 :
  sort cmp (l1 ++ l2) = fold_right (insertSorted cmp) (sort cmp l2) l1.
Proof. unfold sort. apply fold_right_app. Qed.

Lemma insertSorted_front {A} (cmp : A -> A -> Z) x l :
  HdRel (fun a b => cmp a b <= 0) x l -> insertSorted cmp x l = x :: l.
Proof.
  intros [|y l' H]; [reflexivity|]. cbn [insertSorted].
  destruct (Z.leb_spec (cmp x y) 0); [reflexivity|lia].
Qed.

(** What [render] makes of the list after a swap of the pages of two
    neighbours: the two change places. *)
Lemma sort_swapped (l1 l2 : list Image) (u v : Image) :
  StronglySorted (fun a b => page_no a < page_no b) (l1 ++ u :: v :: l2) ->
  sort byPageNo (l1 ++ setPageNo u (page_no v) :: setPageNo v (page_no u)
                    :: l2)
  = l1 ++ setPageNo v (page_no u) :: setPageNo u (page_no v) :: l2.
Proof.
  intros Hs.
  set (u' := setPageNo u (page_no v)). set (v' := setPageNo v (page_no u)).
  assert (Hle : StronglySorted (fun a b => page_no a <= page_no b)
                  (l1 ++ u :: v :: l2)).
  { eapply StronglySorted_ind
      with (P := fun l => StronglySorted
                            (fun a b => page_no a <= page_no b) l);
      [constructor| |exact Hs].
    intros a l0 _ IH Ha. constructor; [exact IH|].
    eapply Forall_impl; [|exact Ha]. cbv beta. intros; lia. }
  assert (Hall : Sorted (fun a b => byPageNo a b <= 0)
                   (l1 ++ v' :: u' :: l2)).
  { apply (sorted_by_pages (l1 ++ u :: v :: l2)); [|exact Hle].
    rewrite !map_app. reflexivity. }
  assert (Htail : Sorted (fun a b => byPageNo a b <= 0) (v' :: u' :: l2)).
  { clear - Hall. induction l1 as [|x l1 IH]; [exact Hall|].
    apply IH. now inversion Hall. }
  assert (Huv : page_no u < page_no v).
  { clear - Hs. induction l1 as [|x l1 IH].
    - apply StronglySorted_inv in Hs as [_ H]. now inversion H.
    - apply IH. now apply StronglySorted_inv in Hs. }
  assert (E : sort byPageNo (u' :: v' :: l2) = v' :: u' :: l2).
  { inversion Htail as [|? ? H1 _]; subst.
    inversion H1 as [|? ? Hl2 Hu]; subst.
    cbn [sort fold_right]. fold (sort byPageNo l2).
    rewrite (sort_sorted_id _ _ Hl2).
    rewrite (insertSorted_front byPageNo v' l2).
    - cbn [insertSorted].
      destruct (Z.leb_spec (byPageNo u' v') 0) as [H|H].
      + unfold byPageNo in H. cbn in H. lia.
      + now rewrite (insertSorted_front byPageNo u' l2).
    - destruct Hu as [|z l2 Hz]; constructor.
      unfold byPageNo in *. cbn in *. lia. }
  rewrite sort_app, E.
  transitivity (sort byPageNo (l1 ++ v' :: u' :: l2)).
  - rewrite sort_app. now rewrite (sort_sorted_id _ _ Htail).
  - now apply sort_sorted_id.
Qed.

(** X16. A swap in the page manager never reaches the store.  With the panel
    showing the pages as the store has them, [btnReorderUp] on a page and
    [btnReorderDown] on the page before it both leave every stored record
    as it was, while the panel shows the two pages in each other's place
    (and the selection moved along). *)
Theorem reorder_not_stored (docId user : jsstring) (st : Store)
  (l1 l2 : list Image) (u v : Image) :
  NoDup (map img_id (inbound_images st)) ->
  NoDup (pagesOf docId st) ->
  eval (DB.listImages docId) st = l1 ++ u :: v :: l2 ->
  let n := Z.of_nat (List.length l1) in
  let opened := eval (UI.manageImages docId) st in
  let up := UI.btnReorderUp docId user (UI.selectThumb (n + 1) opened) in
  let down := UI.btnReorderDown docId user (UI.selectThumb n opened) in
  let swapped :=
    l1 ++ setPageNo v (page_no u) :: setPageNo u (page_no v) :: l2 in
  (inbound_images (exec up st) = inbound_images st
   /\ imgs (eval up st) = swapped /\ sel (eval up st) = n)
  /\ (inbound_images (exec down st) = inbound_images st
      /\ imgs (eval down st) = swapped /\ sel (eval down st) = n + 1).
Proof.
  intros Hnd Hpages EL n opened up down swapped.
  unfold up, down, opened. rewrite !fresh_panel, EL.
  assert (Hs : StronglySorted (fun a b => page_no a < page_no b)
                 (l1 ++ u :: v :: l2)).
  { apply (StronglySorted_map page_no Z.lt). rewrite <- EL.
    apply strictly_sorted; [|exact Hpages].
    apply (StronglySorted_map page_no Z.le), sort_byPageNo_sorted. }
  assert (Hu : In u (inbound_images st) /\ inbound_id u = docId).
  { apply listImages_In. rewrite EL. apply in_or_app. right. now left. }
  assert (Hv : In v (inbound_images st) /\ inbound_id v = docId).
  { apply listImages_In. rewrite EL. apply in_or_app. right. right.
    now left. }
  destruct Hu as [Hu Hud], Hv as [Hv Hvd].
  assert (Huv : page_no u < page_no v).
  { clear - Hs. induction l1 as [|x l1 IH].
    - apply StronglySorted_inv in Hs as [_ H]. now inversion H.
    - apply IH. now apply StronglySorted_inv in Hs. }
  assert (Hne : img_id u <> img_id v).
  { intros E.
    assert (u = v)
      by (apply (NoDup_key_eq img_id (inbound_images st)); assumption).
    subst v. lia. }
  assert (Nu : nth_error (l1 ++ u :: v :: l2) (List.length l1) = Some u).
  { rewrite nth_error_app2, Nat.sub_diag by lia. reflexivity. }
  assert (Nv : nth_error (l1 ++ u :: v :: l2) (S (List.length l1))
               = Some v).
  { rewrite nth_error_app2 by lia.
    replace (S (List.length l1) - List.length l1)%nat with 1%nat by lia.
    reflexivity. }
  assert (Sv : forall y, setAt (S (List.length l1)) y (l1 ++ u :: v :: l2)
                         = l1 ++ u :: y :: l2).
  { intros y. change (l1 ++ u :: v :: l2) with (l1 ++ [u] ++ v :: l2).
    rewrite app_assoc.
    replace (S (List.length l1)) with (List.length (l1 ++ [u]))
      by (rewrite length_app; simpl; lia).
    rewrite setAt_split, <- app_assoc. reflexivity. }
  split.
  - unfold UI.btnReorderUp. cbn [sel imgs].
    replace (n + 1 <=? 0) with false by (symmetry; apply Z.leb_gt; lia).
    replace (Z.to_nat (n + 1)) with (S (List.length l1)) by lia.
    replace (S (List.length l1) - 1)%nat with (List.length l1) by lia.
    rewrite Nu, Nv.
    split; [apply swap_puts; try assumption; congruence|].
    rewrite !eval_bind. unfold eval, ret. cbn [fst UI.render imgs sel].
    split; [|lia].
    rewrite setAt_split.
    change (l1 ++ setPageNo u (page_no v) :: v :: l2)
      with (l1 ++ [setPageNo u (page_no v)] ++ v :: l2).
    rewrite app_assoc.
    replace (S (List.length l1))
      with (List.length (l1 ++ [setPageNo u (page_no v)]))
      by (rewrite length_app; simpl; lia).
    rewrite setAt_split, <- app_assoc. cbn [app].
    now apply sort_swapped.
  - unfold UI.btnReorderDown. cbn [sel imgs].
    replace ((n <? 0) || (Z.of_nat (List.length (l1 ++ u :: v :: l2)) - 1
                          <=? n)) with false.
    2:{ symmetry. apply orb_false_intro; [apply Z.ltb_ge; lia|].
        apply Z.leb_gt. rewrite length_app. simpl. lia. }
    replace (Z.to_nat n) with (List.length l1) by lia.
    replace (List.length l1 + 1)%nat with (S (List.length l1)) by lia.
    rewrite Nu, Nv.
    split; [apply swap_puts; try assumption; congruence|].
    rewrite !eval_bind. unfold eval, ret. cbn [fst UI.render imgs sel].
    split; [|reflexivity].
    rewrite Sv, setAt_split.
    now apply sort_swapped.
Qed.

Lemma reorder_not_stored_witness :
  let st := db (run U.asciiUpper codeUnitCompare twoPages initApp) in
  let opened := eval (UI.manageImages (str "doc-1")) st in
  let up := UI.btnReorderUp (str "doc-1") (str "user-1")
              (UI.selectThumb 1 opened) in
  inbound_images (exec up st) = inbound_images st
  /\ map img_id (imgs (eval up st)) = [str "img-b"; str "img-a"]
  /\ map img_id (eval (DB.listImages (str "doc-1")) (exec up st))
     = [str "img-a"; str "img-b"].
Proof.
  intros st opened up.
  set (u := {| img_id := str "img-a"; inbound_id := str "doc-1";
               page_no := 1; width_px := 2500; height_px := 1875;
               size_bytes := 480000; sha256 := str "ha";
               img_created_at := str "2024-01-01T08:01";
               img_created_by := str "user-1"; synced := false |}).
  set (v := {| img_id := str "img-b"; inbound_id := str "doc-1";
               page_no := 2; width_px := 2500; height_px := 1875;
               size_bytes := 480000; sha256 := str "hb";
               img_created_at := str "2024-01-01T08:01";
               img_created_by := str "user-1"; synced := false |}).
  destruct (reorder_not_stored (str "doc-1") (str "user-1") st [] [] u v)
    as [(H1 & H2 & _) _].
  - apply distinct_NoDup. reflexivity.
  - vm_compute. repeat constructor; simpl; intuition discriminate.
  - reflexivity.
  - split; [exact H1|]. split.
    + change (imgs (eval up st)
              = [setPageNo v (page_no u); setPageNo u (page_no v)]) in H2.
      now rewrite H2.
    + unfold eval, DB.listImages. cbn [fst].
      change (inbound_images (exec up st) = inbound_images st) in H1.
      now rewrite H1.
Defined.

(* ------------------------------------------------------------------ *)
(** ** The board at all times *)

Lemma listItemsByZone_exec z st : exec (DB.listItemsByZone z) st = st.
Proof. reflexivity. Qed.

Lemma exec_ret {A} (x : A) st : exec (ret x) st = st.
Proof. reflexivity. Qed.

Lemma putItem_inv it st :
  BoardInv st -> nonNegative (qty it) -> BoardInv (exec (DB.putItem it) st).
Proof.
  intros [Hk Hq] Hit. unfold exec, DB.putItem.
  cbn [snd dnd_items with_items]. split.
  - now apply upsert_keys_NoDup.
  - apply Forall_forall. intros x Hx.
    apply upsert_In in Hx as [->|Hx]; [exact Hit|].
    rewrite Forall_forall in Hq. now apply Hq.
Qed.

Lemma clickDel_exec id st : exec (Board.clickDel id) st = st.
Proof. reflexivity. Qed.

Lemma clickEdit_exec id p1 p2 p3 st :
  exec (Board.clickEdit id p1 p2 p3) st = st.
Proof. destruct p1, p2, p3; reflexivity. Qed.

Lemma step_inv e st : BoardInv st -> BoardInv (exec (Board.step e) st).
Proof.
  intros Hinv. destruct e as [u1 u2 u3|id tz pr uuid|id|id p1 p2 p3|v uuid];
    cbn [Board.step].
  - unfold Board.seed. rewrite !exec_bind, !listItemsByZone_exec.
    destruct (_ =? 0)%nat; [|exact Hinv].
    rewrite !exec_bind.
    repeat apply putItem_inv; cbn [qty nonNegative]; try lia; exact Hinv.
  - rewrite exec_bind, drop_exec. exact Hinv.
  - rewrite exec_bind, clickDel_exec. exact Hinv.
  - rewrite exec_bind, clickEdit_exec. exact Hinv.
  - unfold Board.addBin. destruct v as [|text]; [exact Hinv|].
    destruct (isEmpty _); [exact Hinv|].
    apply putItem_inv; [exact Hinv|]. cbn [qty nonNegative]. lia.
Qed.

(** X17. Whatever happens on the board (the seeding of a start, drops,
    edits, deletions, new bins), no item ever has a negative quantity or a
    quantity that is no number, and no two items share a key. *)
Theorem board_quantities_never_negative (es : list Board.Event) :
  let st := exec (forEach es Board.step) emptyStore in
  NoDup (map item_id (dnd_items st))
  /\ Forall (fun i => nonNegative (qty i)) (dnd_items st).
Proof.
  cbv zeta. change (BoardInv (exec (forEach es Board.step) emptyStore)).
  assert (H : forall st, BoardInv st ->
            BoardInv (exec (forEach es Board.step) st)).
  { induction es as [|e es IH]; intros st Hinv; [exact Hinv|].
    cbn [forEach]. rewrite exec_bind. apply IH. now apply step_inv. }
  apply H. split; constructor.
Qed.

Lemma zone_nonempty z it st :
  In it (dnd_items st) -> zone it = z ->
  eval (DB.listItemsByZone z) st <> [].
Proof.
  intros Hin Hz E.
  assert (H : In it (eval (DB.listItemsByZone z) st)).
  { unfold eval, DB.listItemsByZone. cbn [fst].
    apply inKeyOrder_In, filter_In.
    split; [exact Hin|]. rewrite Hz. apply str_eqb_refl. }
  rewrite E in H. exact H.
Qed.

(** X18. The sample items are seeded at most once in a row: a start right
    after a start adds nothing.  (They are seeded whenever the three zones
    the check looks at are empty, items in the other zones or not.) *)
Theorem seed_once (u1 u2 u3 v1 v2 v3 : jsstring) (st : Store) :
  exec (Board.seed v1 v2 v3) (exec (Board.seed u1 u2 u3) st)
  = exec (Board.seed u1 u2 u3) st.
Proof.
  set (st1 := exec (Board.seed u1 u2 u3) st).
  assert (Hany : eval (DB.listItemsByZone (str "Wareneingang")) st1 <> []
                 \/ eval (DB.listItemsByZone zoneBestaende) st1 <> []
                 \/ eval (DB.listItemsByZone (str "Lagerplatz")) st1 <> []).
  { unfold st1, Board.seed. rewrite !exec_bind, !listItemsByZone_exec.
    destruct (_ =? 0)%nat eqn:E.
    - right. right. rewrite !exec_bind.
      eapply zone_nonempty; [apply upsert_In_new|reflexivity].
    - apply Nat.eqb_neq in E. rewrite exec_ret.
      destruct (eval (DB.listItemsByZone (str "Wareneingang")) st);
        [|left; discriminate].
      destruct (eval (DB.listItemsByZone zoneBestaende) st);
        [|right; left; discriminate].
      destruct (eval (DB.listItemsByZone (str "Lagerplatz")) st);
        [|right; right; discriminate].
      now cbn in E. }
  unfold Board.seed at 1. rewrite !exec_bind, !listItemsByZone_exec.
  destruct (_ =? 0)%nat eqn:E; [|reflexivity].
  exfalso. apply Nat.eqb_eq in E.
  destruct Hany as [H|[H|H]];
    apply H; apply length_zero_iff_nil; lia.
Qed.

(* ------------------------------------------------------------------ *)
(** ** Quantities as text *)





(** The rounding at work.  Beyond [2^53] an integer goes to the nearest
    double, a tie to the even one; [parseInt] stops at the first character
    that is no digit; and on the samples [toDouble] is the conversion of
    the binary64 numbers of the kernel. *)
Lemma toDouble_samples :
  toDouble (2 ^ 53 + 1) = Finite (2 ^ 53)
  /\ toDouble (2 ^ 53 + 3) = Finite (2 ^ 53 + 4)
  /\ toDouble (10 ^ 21) = Finite (10 ^ 21)
  /\ toDouble (2 ^ 1024) = Infinity false
  /\ forallb (fun n =>
                match toDouble n, Prim2SF (of_Z n) with
                | Finite v, S754_finite s m e =>
                    v =? (if s then -1 else 1) * (Z.pos m * 2 ^ e)
                | _, _ => false
                end)
       [2 ^ 53 + 1; 2 ^ 53 + 3; 2 ^ 54 + 2; 2 ^ 54 + 6; 2 ^ 60 + 12345;
        1234567890123456789; - (2 ^ 53 + 1); 2 ^ 62 + 2 ^ 9] = true.
Proof. vm_compute. repeat split; reflexivity. Qed.

Lemma quantityOf_samples :
  quantityOf (str "12abc") = Finite 12
  /\ quantityOf (str "-7") = Finite 0
  /\ quantityOf (str "") = Finite 0
  /\ quantityOf (str "abc") = Finite 0
  /\ quantityOf (str " +42") = Finite 42
  /\ quantityOf (str "9007199254740993") = Finite 9007199254740992
  /\ quantityOf (str "1e+21") = Finite 1.
Proof. vm_compute. repeat split; reflexivity. Qed.


(* ------------------------------------------------------------------ *)
(** ** The cart at all times *)


Lemma toDouble_nonNegative n : 0 <= n -> nonNegative (toDouble n).
Proof.
  intros Hn. unfold toDouble.
  destruct (Z.abs n <? 2 ^ 53); [exact Hn|].
  generalize (Z.log2 (Z.abs n) - 52). intros k.
  assert (Hp : 0 <= 2 ^ k) by (apply Z.pow_nonneg; lia).
  assert (Hq : 0 <= Z.abs n / 2 ^ k).
  { destruct (Z.eq_dec (2 ^ k) 0) as [E|E].
    - rewrite E, Z.div_0_r. lia.
    - apply Z.div_pos; lia. }
  generalize dependent (Z.abs n / 2 ^ k). intros q Hq.
  generalize ((2 ^ (k - 1) <? Z.abs n mod 2 ^ k)
              || (Z.abs n mod 2 ^ k =? 2 ^ (k - 1)) && Z.odd q).
  intros b.
  destruct (2 ^ 1024 <=? (if b then q + 1 else q) * 2 ^ k).
  - cbn [nonNegative]. apply Z.ltb_ge. exact Hn.
  - cbn [nonNegative].
    assert (0 <= Z.sgn n) by (apply Z.sgn_nonneg; exact Hn).
    destruct b; nia.
Qed.

Lemma Number_add_nonNegative a b :
  nonNegative a -> nonNegative b -> nonNegative (Number_add a b).
Proof.
  destruct a as [x|s|], b as [y|t|]; cbn [nonNegative Number_add];
    try tauto.
  - intros Hx Hy. apply toDouble_nonNegative. lia.
  - intros -> ->. reflexivity.
Qed.

Lemma quantityOf_nonNegative val : nonNegative (quantityOf val).
Proof.
  unfold quantityOf.
  destruct (parseInt _) as [[|p|p]|[|]|]; cbn; auto; lia.
Qed.

Lemma putCart_inv it cart :
  NoDup (map cart_id cart)
  /\ Forall (fun i => nonNegative (cart_qty i)) cart ->
  nonNegative (cart_qty it) ->
  NoDup (map cart_id (CartStore.putCart it cart))
  /\ Forall (fun i => nonNegative (cart_qty i)) (CartStore.putCart it cart).
Proof.
  intros [Hk Hq] Hit. unfold CartStore.putCart. split.
  - now apply upsert_keys_NoDup.
  - apply Forall_forall. intros x Hx.
    apply upsert_In in Hx as [->|Hx]; [exact Hit|].
    rewrite Forall_forall in Hq. now apply Hq.
Qed.

(** X20. Whatever happens to the cart (documents put into it, cells edited,
    rows deleted, the cart cleared), no row ever has a negative quantity
    or a quantity that is no number, and no two rows share a key. *)
Theorem cart_quantities_never_negative (es : list Basket.Event) :
  let cart := fold_left (fun c e => Basket.step e c) es [] in
  NoDup (map cart_id cart)
  /\ Forall (fun i => nonNegative (cart_qty i)) cart.
Proof.
  cbv zeta.
  assert (H : forall cart,
            NoDup (map cart_id cart)
            /\ Forall (fun i => nonNegative (cart_qty i)) cart ->
            NoDup (map cart_id (fold_left (fun c e => Basket.step e c)
                                  es cart))
            /\ Forall (fun i => nonNegative (cart_qty i))
                 (fold_left (fun c e => Basket.step e c) es cart)).
  { induction es as [|e es IH]; intros cart Hinv; [exact Hinv|].
    cbn [fold_left]. apply IH.
    assert (Hmem : forall x, In x cart -> nonNegative (cart_qty x)).
    { destruct Hinv as [_ Hq]. now rewrite Forall_forall in Hq. }
    destruct e as [doc uuid|id field text|id|]; cbn [Basket.step].
    - unfold Basket.btnToCart, Cart.add.
      destruct (find _ (CartStore.getCartAll cart)) as [same|] eqn:E.
      + apply putCart_inv; [exact Hinv|]. cbn [cart_qty].
        apply find_some in E as [Hin _]. apply inKeyOrder_In in Hin.
        apply Number_add_nonNegative; [now apply Hmem|cbn; lia].
      + apply putCart_inv; [exact Hinv|]. cbn. lia.
    - unfold Cart.onTableInput.
      destruct (find _ (CartStore.getCartAll cart)) as [it|] eqn:E;
        [|exact Hinv].
      apply find_some in E as [Hin _]. apply inKeyOrder_In in Hin.
      specialize (Hmem _ Hin).
      apply putCart_inv; [exact Hinv|].
      destruct field; cbn [cart_qty]; try exact Hmem.
      apply quantityOf_nonNegative.
    - unfold Cart.onTableClick, CartStore.delCart. destruct Hinv as [Hk Hq].
      split; [now apply NoDup_map_filter|].
      apply Forall_forall. intros x Hx. apply filter_In in Hx as [Hx _].
      now apply Hmem.
    - split; constructor. }
  apply H. split; constructor.
Qed.






(* ------------------------------------------------------------------ *)
(** ** The size recorded with a page *)

(** X22. The size recorded with a capture, and stored with the page as
    [width_px] and [height_px], is the size of the picked image, not the
    size of the JPEG that is stored: for an image with a longer edge above
    2500 pixels the stored JPEG is at most 2500 pixels a side, and the
    record still says the size of the source. *)
Theorem recorded_size_is_source_size (fl : Q -> Q)
  (score : Bitmap -> float) (bmp : Bitmap) :
  RoundingLaws fl ->
  1 <= width bmp <= 4294967295 ->
  1 <= height bmp <= 4294967295 ->
  2500 < Z.max (width bmp) (height bmp) ->
  let blob := Camera.drawBitmapToBlob fl bmp in
  Z.max (width blob) (height blob) <= 2500
  /\ forall w h, Camera.onFilePicked fl score bmp = Camera.Pushed w h ->
       w = width bmp /\ h = height bmp
       /\ Z.max (width blob) (height blob) < Z.max w h.
Proof.
  intros laws Hw Hh Hm blob.
  assert (Hfit : Z.max (width blob) (height blob) <= 2500).
  { unfold blob, Camera.drawBitmapToBlob, Camera.scaledSize.
    replace (Z.max (width bmp) (height bmp) =? 0) with false
      by (symmetry; apply Z.eqb_neq; lia).
    cbn [width height].
    assert (Hedge : forall c, 1 <= c <= Z.max (width bmp) (height bmp) ->
      Math_round
        (fl (inject_Z c
             * Qmin 1 (fl (inject_Z 2500
                           / inject_Z (Z.max (width bmp) (height bmp)))))%Q)
      <= 2500).
    { intros c Hc.
      destruct (scaled_edge fl laws c (Z.max (width bmp) (height bmp)))
        as (_ & Hup & _ & _); [lia|lia|].
      cbv zeta in Hup.
      apply Z.le_trans with (Math_round (2500 + (1 # 4))%Q);
        [|now vm_compute].
      apply Math_round_mono. eapply Qle_trans; [exact Hup|].
      apply Qplus_le_l.
      assert (HM : (0 < inject_Z (Z.max (width bmp) (height bmp)))%Q).
      { replace 0%Q with (inject_Z 0) by reflexivity.
        rewrite <- Zlt_Qlt. lia. }
      assert (Hcm : (inject_Z c
                     <= inject_Z (Z.max (width bmp) (height bmp)))%Q)
        by (rewrite <- Zle_Qle; lia).
      assert (Hc0 : (0 <= inject_Z c)%Q).
      { replace 0%Q with (inject_Z 0) by reflexivity.
        rewrite <- Zle_Qle. lia. }
      set (m := inject_Z (Z.max (width bmp) (height bmp))) in *.
      set (x := inject_Z c) in *.
      setoid_replace (x * (2500 / m))%Q with ((x * 2500) / m)%Q
        by (field; intros E; rewrite E in HM; now apply Qlt_irrefl in HM).
      apply Qle_shift_div_r; [exact HM|]. nra. }
    apply Z.max_lub; apply Hedge; lia. }
  split; [exact Hfit|].
  intros w h. unfold Camera.onFilePicked. fold blob.
  destruct (Camera.validateBlob score blob); [|discriminate].
  intros E. injection E as <- <-. repeat split. lia.
Qed.

Lemma recorded_size_is_source_size_witness :
  let bmp := {| width := 4000; height := 3000 |} in
  let score := fun _ : Bitmap => 100%float in
  Camera.onFilePicked exact score bmp = Camera.Pushed 4000 3000
  /\ Camera.drawBitmapToBlob exact bmp = {| width := 2500; height := 1875 |}
  /\ Z.max (width (Camera.drawBitmapToBlob exact bmp))
       (height (Camera.drawBitmapToBlob exact bmp)) <= 2500.
Proof.
  intros bmp score.
  destruct (recorded_size_is_source_size exact score bmp exact_laws)
    as [H _]; try (cbn; lia).
  split; [reflexivity|]. split; [reflexivity|exact H].
Defined.

(* ------------------------------------------------------------------ *)
(** ** The store in every reachable state *)

Lemma NoDup_map_on {A B} (f : A -> B) (l : list A) :
  NoDup l ->
  (forall x y, In x l -> In y l -> f x = f y -> x = y) ->
  NoDup (map f l).
Proof.
  induction 1 as [|x l Hx Hl IH]; intros Hinj; cbn [map]; constructor.
  - intros Hin. apply in_map_iff in Hin as (y & E & Hy).
    apply Hx. rewrite <- (Hinj y x); auto; [now right|now left].
  - apply IH. intros y z Hy Hz. apply Hinj; now right.
Qed.

(** X23. In every state the application reaches, the keys of the documents
    and of the pages are unique, every page belongs to a stored document,
    and no two pages of a document have the same page number. *)
Theorem reachable_store_wellformed (toUpperCase : jsstring -> jsstring)
  (localeCompare : jsstring -> jsstring -> Z) (a : App) :
  reachable toUpperCase localeCompare a ->
  NoDup (map doc_id (inbound_docs (db a)))
  /\ NoDup (map img_id (inbound_images (db a)))
  /\ (forall i, In i (inbound_images (db a)) ->
        exists d, In d (inbound_docs (db a)) /\ doc_id d = inbound_id i)
  /\ (forall docId, NoDup (pagesOf docId (db a))).
Proof.
  intros Hr. destruct (reachable_inv _ _ _ Hr) as [[Hdk [Hk Hp Ho] _] _].
  split; [exact Hdk|]. split; [exact Hk|]. split.
  - intros i Hi. specialize (Ho i Hi).
    apply in_map_iff in Ho as (d & E & Hd). now exists d.
  - intros docId. unfold pagesOf.
    pose proof (listImages_keys docId (db a) Hk) as HL.
    apply NoDup_map_on.
    + now apply NoDup_map_inv in HL.
    + intros x y Hx Hy E.
      apply listImages_In in Hx as [Hx Hxd], Hy as [Hy Hyd].
      apply (NoDup_key_eq img_id (inbound_images (db a))); auto.
      apply Hp; congruence.
Qed.

Lemma reachable_store_wellformed_witness :
  let a := run U.asciiUpper codeUnitCompare threePagesManaged initApp in
  NoDup (map img_id (inbound_images (db a)))
  /\ NoDup (pagesOf (str "doc-1") (db a)).
Proof.
  intros a.
  destruct (reachable_store_wellformed U.asciiUpper codeUnitCompare a
              threePagesManaged_reachable) as (_ & H1 & _ & H2).
  split; [exact H1|apply H2].
Defined.

(* ------------------------------------------------------------------ *)
(** ** The pages of a document are numbered 1..N *)












(* ------------------------------------------------------------------ *)
(** ** The captures that wait to be saved *)

Lemma removelast_In {A} (l : list A) x : In x (removelast l) -> In x l.
Proof.
  induction l as [|y l IH]; [intros []|].
  destruct l as [|z l]; [intros []|].
  change (removelast (y :: z :: l)) with (y :: removelast (z :: l)).
  intros [->|H]; [now left|right; now apply IH].
Qed.

(** X24. Every capture in the list of the camera dialog was recorded with a
    longer edge of at least 1500 pixels: a video frame or a picked file
    below that never gets into the list, and rotating and deleting keep it
    so.  [Done] saves the captures of this list. *)
Theorem captures_passed_size_check (fl : Q -> Q) (score : Bitmap -> float)
  (es : list Session.Event) :
  RoundingLaws fl ->
  Forall Session.decoded es ->
  Forall (fun c => 1500 <= Z.max (cap_w c) (cap_h c))
    (fold_left (fun caps e => Session.step fl score e caps) es []).
Proof.
  intros laws Hes.
  assert (H : forall caps,
            Forall (fun c => 1500 <= Z.max (cap_w c) (cap_h c)) caps ->
            Forall (fun c => 1500 <= Z.max (cap_w c) (cap_h c))
              (fold_left (fun caps e => Session.step fl score e caps)
                 es caps)).
  { induction Hes as [|e es He _ IH]; intros caps Hc; [exact Hc|].
    cbn [fold_left]. apply IH.
    destruct e as [v size sha|bmp size sha|size sha|];
      cbn [Session.step Session.decoded] in *.
    - unfold Camera.take.
      destruct (Z.ltb_spec (Z.max (width v) (height v)) 1500);
        [exact Hc|].
      destruct (Camera.validateBlob _ _); [|exact Hc].
      cbn [Session.push]. apply Forall_app. split; [exact Hc|].
      repeat constructor. cbn [cap_w cap_h]. lia.
    - unfold Camera.onFilePicked.
      destruct (Camera.validateBlob score (Camera.drawBitmapToBlob fl bmp))
        eqn:Ev; [|exact Hc].
      cbn [Session.push]. apply Forall_app. split; [exact Hc|].
      repeat constructor. cbn [cap_w cap_h].
      destruct (Z.le_gt_cases (Z.max (width bmp) (height bmp)) 2500)
        as [Hm|Hm]; [|lia].
      unfold Camera.validateBlob, Camera.drawBitmapToBlob in Ev.
      rewrite (scaledSize_fits fl laws) in Ev by lia.
      cbn [width height] in Ev.
      destruct (Z.ltb_spec (Z.max (width bmp) (height bmp)) 1500);
        [discriminate|lia].
    - unfold Session.rotateLast.
      destruct (rev caps) as [|last front] eqn:E; [exact Hc|].
      assert (Ec : caps = rev front ++ [last]).
      { rewrite <- (rev_involutive caps), E. reflexivity. }
      rewrite Ec in Hc. apply Forall_app in Hc as [Hf Hl].
      apply Forall_app. split; [exact Hf|].
      inversion Hl as [|? ? Hlast _]; subst.
      repeat constructor. cbn [cap_w cap_h]. lia.
    - unfold Session.deleteLast. apply Forall_forall. intros x Hx.
      apply removelast_In in Hx. rewrite Forall_forall in Hc.
      now apply Hc. }
  apply H. constructor.
Qed.

Lemma captures_passed_size_check_witness :
  let score := fun _ : Bitmap => 100%float in
  let es := [ Session.pickFile {| width := 4000; height := 3000 |} 480000
                (str "ha");
              Session.pickFile {| width := 1000; height := 800 |} 90000
                (str "hb");
              Session.rotate 481000 (str "hc") ] in
  fold_left (fun caps e => Session.step exact score e caps) es []
  = [ {| cap_w := 3000; cap_h := 4000; cap_size := 481000;
         cap_sha256 := str "hc" |} ]
  /\ Forall (fun c => 1500 <= Z.max (cap_w c) (cap_h c))
       (fold_left (fun caps e => Session.step exact score e caps) es []).
Proof.
  intros score es. split; [reflexivity|].
  apply (captures_passed_size_check exact score es exact_laws).
  repeat constructor; cbn; lia.
Defined.
